(** * rtlobs.collect: the integration engine of an rtl-sdr radio telescope

    A shallow embedding of [src/rtlobs/collect.py] and the properties of
    its four drivers ([run_total_power_int], [dicke], [run_spectrum_int],
    [run_fswitch_int]).

    Conventions of the embedding.
    - Numbers are rationals [Q].  A Python float that decides an integer or
      a branch (the sample counts [N] and [N_dwell], the check on [t_int])
      is the IEEE double: every operation on it is rounded to the nearest
      double, ties to even, see [float64]; a decimal or an int argument
      stands for the double nearest to it.  The exponent range is not
      bounded: overflow to infinity and subnormal numbers are outside the
      embedding.  Floats that only carry measured values (powers, spectra,
      frequencies, times) are exact rationals; the IEEE special values that
      numpy produces on a division by zero are kept, see [npfloat].
    - Python [int]s are [Z]; [//] is [Z.div], [int(x)] truncates toward
      zero, [range(n)] runs [Z.to_nat n] times.
    - The device, and everything done to it, lives in a [World]; a driver
      is a function from worlds to a world and an outcome ([Ok] or a raised
      exception).
    - [scipy.signal.welch] and [scipy.signal.get_window] are external: they
      are parameters of the development. *)

From Stdlib Require Import ZArith QArith Qround Qpower List Bool Lia Lqa Field
  Setoid Morphisms.
Import ListNotations.

Local Open Scope Q_scope.

(* ================================================================== *)
(** ** Python and numpy numbers *)

(** [int(x)] on a float: truncation toward zero. *)
Definition py_int (x : Q) : Z := Z.quot (Qnum x) (Zpos (Qden x)).

(** The binary exponent of a positive rational: the [e] with
    [2^e <= x < 2^(e+1)]. *)
Definition Qlog2 (x : Q) : Z :=
  let k := (Z.log2 (Qnum x) - Z.log2 (Zpos (Qden x)))%Z in
  if Qle_bool (2 ^ k) x then k else (k - 1)%Z.

(** The integer nearest to [s]; a tie goes to the even one. *)
Definition round_half_even (s : Q) : Z :=
  let f := Qfloor s in
  match Qcompare (s - inject_Z f) (1 # 2) with
  | Lt => f
  | Gt => (f + 1)%Z
  | Eq => if Z.even f then f else (f + 1)%Z
  end.

(** The float nearest to a positive rational: 53 significant bits. *)
Definition round_pos (x : Q) : Q :=
  let e := (Qlog2 x - 52)%Z in
  inject_Z (round_half_even (x * 2 ^ (- e))) * 2 ^ e.

(** [float(x)]: the IEEE double nearest to [x], ties to even. *)
Definition float64 (x : Q) : Q :=
  match Qcompare x 0 with
  | Eq => 0
  | Gt => round_pos x
  | Lt => - round_pos (- x)
  end.

(** [a * b] and [a / b] on floats: the exact result, rounded. *)
Definition float_mul (a b : Q) : Q := float64 (float64 a * float64 b).
Definition float_div (a b : Q) : Q := float64 (float64 a / float64 b).

(** [N = int(sdr.rs * t_int)]: the total number of samples to collect. *)
Definition total_samples (rs t_int : Q) : Z := py_int (float_mul rs t_int).

(** [N_dwell = int(sdr.rs * (1.0 / fswitch))]: the samples of one dwell. *)
Definition dwell_samples (rs fswitch : Q) : Z :=
  py_int (float_mul rs (float_div 1 fswitch)).

(** [2.0 * (1.0 / fswitch)]: the shortest integration the
    frequency-switched driver accepts. *)
Definition switch_threshold (fswitch : Q) : Q :=
  float_mul 2 (float_div 1 fswitch).

(** [a / b] on two Python ints: true division. *)
Definition int_truediv (a b : Z) : Q := inject_Z a / inject_Z b.

(** A numpy [float64]: a finite value, an infinity or NaN. *)
Inductive npfloat : Type :=
| Fin (q : Q)
| PInf
| NInf
| NaN.

Definition Qis_zero (q : Q) : bool := Qeq_bool q 0.
Definition Qis_pos (q : Q) : bool := negb (Qle_bool q 0).

Definition np_neg (x : npfloat) : npfloat :=
  match x with
  | Fin q => Fin (- q)
  | PInf => NInf
  | NInf => PInf
  | NaN => NaN
  end.

Definition np_add (x y : npfloat) : npfloat :=
  match x, y with
  | NaN, _ | _, NaN => NaN
  | Fin a, Fin b => Fin (a + b)
  | PInf, NInf | NInf, PInf => NaN
  | PInf, _ | _, PInf => PInf
  | NInf, _ | _, NInf => NInf
  end.

(** An infinity of the sign of [q] ([q] not zero). *)
Definition np_inf_of_sign (q : Q) : npfloat :=
  if Qis_pos q then PInf else NInf.

Definition np_mul (x y : npfloat) : npfloat :=
  match x, y with
  | NaN, _ | _, NaN => NaN
  | Fin a, Fin b => Fin (a * b)
  | Fin a, PInf | PInf, Fin a =>
      if Qis_zero a then NaN else np_inf_of_sign a
  | Fin a, NInf | NInf, Fin a =>
      if Qis_zero a then NaN else np_neg (np_inf_of_sign a)
  | PInf, PInf | NInf, NInf => PInf
  | PInf, NInf | NInf, PInf => NInf
  end.

(** numpy division: a zero divisor raises nothing; it yields NaN for [0/0]
    and an infinity otherwise (numpy only emits a RuntimeWarning). *)
Definition np_div (x y : npfloat) : npfloat :=
  match x, y with
  | NaN, _ | _, NaN => NaN
  | Fin a, Fin b =>
      if Qis_zero b then (if Qis_zero a then NaN else np_inf_of_sign a)
      else Fin (a / b)
  | Fin _, (PInf | NInf) => Fin 0
  | PInf, Fin b => if Qis_zero b then PInf else np_inf_of_sign b
  | NInf, Fin b => if Qis_zero b then NInf else np_neg (np_inf_of_sign b)
  | (PInf | NInf), (PInf | NInf) => NaN
  end.

(** Equality of numpy values up to the representation of the rational. *)
Definition np_eq (x y : npfloat) : Prop :=
  match x, y with
  | Fin a, Fin b => a == b
  | PInf, PInf | NInf, NInf | NaN, NaN => True
  | _, _ => False
  end.

Definition np_is_nan (x : npfloat) : bool :=
  match x with NaN => true | _ => false end.

(** A Python scalar as the drivers meet it: a builtin [float], or a numpy
    [float64] once a numpy value has been added to it. *)
Inductive pynum : Type :=
| PyFloat (q : Q)
| NpFloat (x : npfloat).

Definition to_np (p : pynum) : npfloat :=
  match p with PyFloat q => Fin q | NpFloat x => x end.

(** Sum of a list of rationals ([np.sum], [ndarray.sum]). *)
Definition Qsum (l : list Q) : Q := fold_right Qplus 0 l.

(** [ndarray.mean()]: the sum over the number of elements. *)
Definition mean (l : list Q) : Q := Qsum l / inject_Z (Z.of_nat (length l)).

(* ================================================================== *)
(** ** Sample blocks *)

(** A complex sample: in-phase and quadrature parts. *)
Record complex : Type := Cx { re : Q; im : Q }.

Definition SampleBlock : Type := list complex.

(** The DC compensation every acquisition path applies:
    [iq = (iq.real - iq.real.mean()) + (1j * (iq.imag - iq.imag.mean()))]. *)
Definition dc_compensate (iq : SampleBlock) : SampleBlock :=
  let mr := mean (map re iq) in
  let mi := mean (map im iq) in
  map (fun z => Cx (re z - mr) (im z - mi)) iq.

(** [np.conj(z)]. *)
Definition conj (z : complex) : complex := Cx (re z) (- im z).

(** [a * b] on complex numbers. *)
Definition cmul (a b : complex) : complex :=
  Cx (re a * re b - im a * im b) (re a * im b + im a * re b).

(** [np.real(iq * np.conj(iq))] for one sample. *)
Definition sample_power (z : complex) : Q := re (cmul z (conj z)).

(** [np.sum(np.real(iq * np.conj(iq)))]. *)
Definition block_power (iq : SampleBlock) : Q := Qsum (map sample_power iq).

(* ================================================================== *)
(** ** The world: the rtl-sdr device and what is done to it *)

(** Exceptions a driver can raise. *)
Inductive Exn : Type :=
| ZeroDivisionError     (* Python division by zero *)
| AssertionError        (* a failed [assert] *)
| UnboundLocalError     (* a local read before assignment *)
| ValueError            (* numpy and scipy argument errors *)
| DeviceOpenError       (* [RtlSdr()] finds no device *)
| DeviceReadError       (* [read_samples] cannot deliver the block *)
| OSError.              (* [np.save] cannot write *)

Inductive outcome (A : Type) : Type :=
| Ok (a : A)
| Raise (e : Exn).
Arguments Ok {A} a.
Arguments Raise {A} e.

(** Calls made to the device (and to the disk), in the order they happen. *)
Inductive Event : Type :=
| EvOpen
| EvSetRs (q : Q)
| EvSetFc (q : Q)
| EvSetGain (q : Q)
| EvGpioOutput (pin : Z)
| EvGpioBit (pin : Z) (level : bool)
| EvRead (n : Z)
| EvClose
| EvSave.

Record World : Type := mkWorld {
  present : bool;          (* a dongle is plugged in *)
  is_open : bool;          (* the device handle is open *)
  dev_rs : Q;              (* sample rate the tuner is set to *)
  dev_fc : Q;              (* center frequency the tuner is set to *)
  dev_gain : Q;            (* tuner gain *)
  gpio4 : bool;            (* level of GPIO bit 4, the noise-source switch *)
  feed : list complex;     (* the samples the hardware will deliver *)
  clock : Z;               (* [time.time()], a logical clock *)
  disk_ok : bool;          (* [np.save] can write its file *)
  trace : list Event;      (* calls made so far, oldest first *)
  released : nat           (* times the device has been released *)
}.

(** There is one dongle; a handle names it. *)
Inductive handle : Type := TheSdr.

Definition M (A : Type) : Type := World -> World * outcome A.

Definition ret {A} (a : A) : M A := fun w => (w, Ok a).
Definition raise {A} (e : Exn) : M A := fun w => (w, Raise e).
Definition bind {A B} (c : M A) (k : A -> M B) : M B :=
  fun w => match c w with
           | (w1, Ok a) => k a w1
           | (w1, Raise e) => (w1, Raise e)
           end.

Notation "x <- c ;; k" := (bind c (fun x => k))
  (at level 61, c at next level, right associativity).
Notation "c ;; k" := (bind c (fun _ => k))
  (at level 61, right associativity).

Definition log_event (e : Event) (w : World) : World :=
  mkWorld (present w) (is_open w) (dev_rs w) (dev_fc w) (dev_gain w)
          (gpio4 w) (feed w) (clock w) (disk_ok w) (trace w ++ [e])
          (released w).

(** [RtlSdr()]: opens the dongle, or raises when there is none. *)
Definition RtlSdr : M handle := fun w =>
  if present w then
    (log_event EvOpen
       (mkWorld (present w) true (dev_rs w) (dev_fc w) (dev_gain w)
                (gpio4 w) (feed w) (clock w) (disk_ok w) (trace w)
              (released w)),
     Ok TheSdr)
  else (w, Raise DeviceOpenError).

(** [sdr.rs = rate]. *)
Definition set_rs (_ : handle) (rate : Q) : M unit := fun w =>
  (log_event (EvSetRs rate)
     (mkWorld (present w) (is_open w) rate (dev_fc w) (dev_gain w)
              (gpio4 w) (feed w) (clock w) (disk_ok w) (trace w)
              (released w)),
   Ok tt).

(** [sdr.fc = fc]. *)
Definition set_fc (_ : handle) (f : Q) : M unit := fun w =>
  (log_event (EvSetFc f)
     (mkWorld (present w) (is_open w) (dev_rs w) f (dev_gain w)
              (gpio4 w) (feed w) (clock w) (disk_ok w) (trace w)
              (released w)),
   Ok tt).

(** [sdr.gain = gain]. *)
Definition set_gain (_ : handle) (g : Q) : M unit := fun w =>
  (log_event (EvSetGain g)
     (mkWorld (present w) (is_open w) (dev_rs w) (dev_fc w) g
              (gpio4 w) (feed w) (clock w) (disk_ok w) (trace w)
              (released w)),
   Ok tt).

(** [sdr.rs] read back. *)
Definition get_rs (_ : handle) : M Q := fun w => (w, Ok (dev_rs w)).

(** [sdr.set_gpio_output(pin)]. *)
Definition set_gpio_output (_ : handle) (pin : Z) : M unit := fun w =>
  (log_event (EvGpioOutput pin) w, Ok tt).

(** [sdr.set_gpio_bit(pin, level)]. *)
Definition set_gpio_bit (_ : handle) (pin : Z) (level : bool) : M unit :=
  fun w =>
  (log_event (EvGpioBit pin level)
     (mkWorld (present w) (is_open w) (dev_rs w) (dev_fc w) (dev_gain w)
              (if (pin =? 4)%Z then level else gpio4 w)
              (feed w) (clock w) (disk_ok w) (trace w) (released w)),
   Ok tt).

(** [sdr.read_samples(n)]: the next [n] samples of the feed; the read
    fails when the hardware cannot deliver them. *)
Definition read_samples (_ : handle) (n : Z) : M SampleBlock := fun w =>
  let w1 := log_event (EvRead n) w in
  if ((0 <=? n)%Z && (Z.to_nat n <=? length (feed w))%nat)%bool then
    (mkWorld (present w1) (is_open w1) (dev_rs w1) (dev_fc w1) (dev_gain w1)
             (gpio4 w1) (skipn (Z.to_nat n) (feed w1)) (clock w1)
             (disk_ok w1) (trace w1) (released w1),
     Ok (firstn (Z.to_nat n) (feed w)))
  else (w1, Raise DeviceReadError).

(** [sdr.close()]: releases the device when the handle is open; on a
    handle that is closed already the call does nothing. *)
Definition close (_ : handle) : M unit := fun w =>
  (log_event EvClose
     (mkWorld (present w) false (dev_rs w) (dev_fc w) (dev_gain w)
              (gpio4 w) (feed w) (clock w) (disk_ok w) (trace w)
              (if is_open w then S (released w) else released w)),
   Ok tt).

(** [time.time()]. *)
Definition time_time : M Z := fun w =>
  (mkWorld (present w) (is_open w) (dev_rs w) (dev_fc w) (dev_gain w)
           (gpio4 w) (feed w) (clock w + 1)%Z (disk_ok w)
           (trace w) (released w),
   Ok (clock w)).

(** [np.save(...)]. *)
Definition np_save : M unit := fun w =>
  if disk_ok w then (log_event EvSave w, Ok tt) else (w, Raise OSError).

(** [a / b] on Python numbers [a], [b] with [b] a float parameter. *)
Definition py_truediv (a b : Q) : M Q :=
  if Qis_zero b then raise ZeroDivisionError else ret (float_div a b).

(** [a / b] on Python ints. *)
Definition py_int_truediv (a b : Z) : M Q :=
  if (b =? 0)%Z then raise ZeroDivisionError else ret (int_truediv a b).

(** [a // b] on Python ints. *)
Definition py_floordiv (a b : Z) : M Z :=
  if (b =? 0)%Z then raise ZeroDivisionError else ret (a / b)%Z.

(** [p / d] with [d] a Python int: a builtin float raises on [d = 0], a
    numpy float64 does not. *)
Definition pynum_div_int (p : pynum) (d : Z) : M pynum :=
  match p with
  | PyFloat q =>
      if (d =? 0)%Z then raise ZeroDivisionError
      else ret (PyFloat (q / inject_Z d))
  | NpFloat x => ret (NpFloat (np_div x (Fin (inject_Z d))))
  end.

(** [get_sdr(rate, fc, gain)]. *)
Definition get_sdr (rate fc gain : Q) : M handle :=
  sdr <- RtlSdr ;;
  set_rs sdr rate ;;
  set_fc sdr fc ;;
  set_gain sdr gain ;;
  ret sdr.

(** The frame every driver shares:
<<
    try:
        if sdr is None:
            sdr = get_sdr(rate, fc, gain); close_sdr = True
        else:
            close_sdr = False
        body
    except: print(...); raise
    finally:
        if sdr is not None and close_sdr: sdr.close()
>>
    When [get_sdr] raises, [sdr] is still [None] and the [finally] clause
    closes nothing.  [body] receives the handle and [close_sdr]. *)
Definition with_sdr {A} (rate fc gain : Q) (sdr : option handle)
    (body : handle -> bool -> M A) : M A := fun w =>
  let acquired :=
    match sdr with
    | None => (h <- get_sdr rate fc gain ;; ret (h, true)) w
    | Some h => (w, Ok (h, false))
    end in
  match acquired with
  | (w1, Raise e) => (w1, Raise e)
  | (w1, Ok (h, close_sdr)) =>
      let (w2, r) := body h close_sdr w1 in
      (if close_sdr then fst (close h w2) else w2, r)
  end.

(** The [if close_sdr: sdr.close()] that ends every [try] body. *)
Definition tidy (sdr : handle) (close_sdr : bool) : M unit :=
  if close_sdr then close sdr else ret tt.

(* ================================================================== *)
(** ** [run_total_power_int] *)

(** [p_tot_callback]: the callback updates the globals [p_tot] and [cnt]. *)
Definition p_tot_callback (iq : SampleBlock) (st : pynum * Z) : pynum * Z :=
  let (p_tot, cnt) := st in
  let iq := dc_compensate iq in
  (NpFloat (np_add (to_np p_tot) (Fin (block_power iq))), (cnt + 1)%Z).

(** Modelled from the spec: the bounded callback stream of the Sample
    Source ([read_samples_async] with a callback wrapped by
    [helpers.limit_calls(max_calls)], both of the pyrtlsdr package and not
    of this repository).  The device delivers block after block, strictly
    in order; the wrapper counts the deliveries and hands a block to the
    callback as long as its number does not exceed [max_calls].  The first
    block beyond the budget is delivered too: the wrapper drops it and
    cancels the stream.  [max_calls] is the float [N / num_samp]: the
    blocks numbered [1 .. floor(max_calls)] reach the callback. *)
Definition call_budget (max_calls : Q) : nat := Z.to_nat (Qfloor max_calls).

Fixpoint read_stream {S : Type} (sdr : handle) (budget : nat)
    (callback : SampleBlock -> S -> S) (num_samples : Z) (st : S) : M S :=
  match budget with
  | O =>
      (* the delivery that exhausts the budget *)
      read_samples sdr num_samples ;;
      ret st
  | Datatypes.S b =>
      iq <- read_samples sdr num_samples ;;
      read_stream sdr b callback num_samples (callback iq st)
  end.

Definition read_samples_async {S : Type} (sdr : handle) (max_calls : Q)
    (callback : SampleBlock -> S -> S) (num_samples : Z) (st : S) : M S :=
  read_stream sdr (call_budget max_calls) callback num_samples st.

(** The body of the [try] block. *)
Definition total_power_body (num_samp : Z) (rate t_int : Q)
    (sdr : handle) (close_sdr : bool) : M pynum :=
    rs <- get_rs sdr ;;
    let N := total_samples rs t_int in
    (* the debug message evaluates int(N / num_samp) *)
    py_int_truediv N num_samp ;;
    (* p_tot = 0.0; cnt = 0 *)
    max_calls <- py_int_truediv N num_samp ;;
    st <- read_samples_async sdr max_calls p_tot_callback num_samp
            (PyFloat 0, 0%Z) ;;
    let (p_tot, cnt) := st in
    (* the debug message evaluates (num_samp * cnt) / rate *)
    py_truediv (inject_Z (num_samp * cnt)) rate ;;
    p_avg <- pynum_div_int p_tot (num_samp * cnt) ;;
    tidy sdr close_sdr ;;
    ret p_avg.

Definition run_total_power_int (num_samp : Z) (gain rate fc t_int : Q)
    (sdr : option handle) : M pynum :=
  with_sdr rate fc gain sdr (total_power_body num_samp rate t_int).

(* ================================================================== *)
(** ** [dicke] (with [plot=False]) *)

Record DickeState : Type := mkDicke {
  ts : list Z;              (* time of each measurement *)
  ps : list Q;              (* total power of each block *)
  noise_on : list Z;        (* the switch flag of each block *)
  flipflop : Z;
  time_str : option Z       (* unbound until the loop body has run *)
}.

Definition dicke_init : DickeState := mkDicke [] [] [] 1 None.

(** One pass of the loop body. *)
Definition dicke_step (sdr : handle) (num_samp : Z) (st : DickeState)
    : M DickeState :=
  curtime <- time_time ;;
  (if (flipflop st =? 0)%Z then set_gpio_bit sdr 4 false
   else set_gpio_bit sdr 4 true) ;;
  iq <- read_samples sdr num_samp ;;
  let iq := dc_compensate iq in
  let p_tot := block_power iq in
  ret (mkDicke (ts st ++ [curtime]) (ps st ++ [p_tot])
               (noise_on st ++ [flipflop st]) (1 - flipflop st)%Z
               (Some curtime)).

Fixpoint dicke_loop (sdr : handle) (num_samp : Z) (n : nat)
    (st : DickeState) : M DickeState :=
  match n with
  | O => ret st
  | S n' => st' <- dicke_step sdr num_samp st ;;
            dicke_loop sdr num_samp n' st'
  end.

(** The body of the [try] block. *)
Definition dicke_body (num_samp : Z) (gain rate fc t : Q)
    (sdr : handle) (close_sdr : bool) : M (list Z * list Q * list Z) :=
    set_rs sdr rate ;;
    set_fc sdr fc ;;
    set_gain sdr gain ;;
    rs <- get_rs sdr ;;
    let N := total_samples rs t in
    (* the debug message evaluates int(N / num_samp) *)
    py_int_truediv N num_samp ;;
    set_gpio_output sdr 4 ;;
    n <- py_floordiv N num_samp ;;
    st <- dicke_loop sdr num_samp (Z.to_nat n) dicke_init ;;
    (* np.save(f'..._{time_str}.npy', ...) *)
    match time_str st with
    | None => raise UnboundLocalError
    | Some _ => np_save
    end ;;
    (if close_sdr then set_gpio_bit sdr 4 false ;; close sdr else ret tt) ;;
    ret (ts st, ps st, noise_on st).

Definition dicke (num_samp : Z) (gain rate fc t : Q) (sdr : option handle)
    : M (list Z * list Q * list Z) :=
  with_sdr rate fc gain sdr (dicke_body num_samp gain rate fc t).

(* ================================================================== *)
(** ** numpy arrays *)

(** [np.zeros(n)]. *)
Definition np_zeros (n : Z) : M (list Q) :=
  if (n <? 0)%Z then raise ValueError else ret (repeat 0 (Z.to_nat n)).

(** [a += b] on arrays: element by element; a one-element [b] is
    broadcast; other shapes do not match. *)
Definition np_iadd (a b : list Q) : M (list Q) :=
  if (length b =? length a)%nat then
    ret (map (fun p => fst p + snd p) (combine a b))
  else if (length b =? 1)%nat then
    ret (map (fun x => x + hd 0 b) a)
  else raise ValueError.

(** [a /= cnt] with [cnt] a Python int. *)
Definition np_idiv_count (a : list Q) (cnt : Z) : list npfloat :=
  map (fun x => np_div (Fin x) (Fin (inject_Z cnt))) a.

(** [np.fft.fftshift(x)]: a roll by [len(x) // 2]. *)
Definition fftshift {A : Type} (x : list A) : list A :=
  let n := length x in
  let shift := (n / 2)%nat in
  skipn (n - shift) x ++ firstn (n - shift) x.

(** [(win.sum()**2) / (win*win).sum()] *)
Definition window_correction (win : list Q) : npfloat :=
  np_div (Fin (Qsum win ^ 2)) (Fin (Qsum (map (fun x => x * x) win))).

(** [p * ((win.sum()**2) / (win*win).sum()) / rate] *)
Definition to_psd (p : list npfloat) (win : list Q) (rate : Q)
    : list npfloat :=
  map (fun x => np_div (np_mul x (window_correction win)) (Fin rate)) p.

(** The segment length forced on [welch]. *)
Definition choose_nperseg (nbins : Z) : Z :=
  if (nbins <? 256)%Z then nbins else 256%Z.

(* ================================================================== *)
(** ** The spectral drivers *)

Section Spectral.

(** [welch(iq, fs=rate, nperseg=nperseg, nfft=nbins, noverlap=0,
    scaling='spectrum', window='hann', detrend=False,
    return_onesided=False)]: the frequencies and the power spectrum of one
    block. Arguments: the block, [fs], [nperseg], [nfft]. *)
Variable welch : SampleBlock -> Q -> Z -> Z -> list Q * list Q.

(** [get_window('hann', nperseg)] for a positive [nperseg]. *)
Variable get_window : Z -> list Q.

(** The call of [get_window]: a window of no length is refused. *)
Definition call_get_window (nperseg : Z) : M (list Q) :=
  if (nperseg <=? 0)%Z then raise ValueError else ret (get_window nperseg).

(** *** [run_spectrum_int] *)

(** One pass of the integration loop on [(freqs, p_xx_tot, cnt)]. *)
Definition spectrum_step (sdr : handle) (num_samp nbins nperseg : Z)
    (rate : Q) (st : list Q * list Q * Z) : M (list Q * list Q * Z) :=
  let '(_, p_xx_tot, cnt) := st in
  iq <- read_samples sdr num_samp ;;
  let iq := dc_compensate iq in
  let (freqs, p_xx) := welch iq rate nperseg nbins in
  p_xx_tot <- np_iadd p_xx_tot p_xx ;;
  ret (freqs, p_xx_tot, (cnt + 1)%Z).

Fixpoint spectrum_loop (sdr : handle) (num_samp nbins nperseg : Z)
    (rate : Q) (n : nat) (st : list Q * list Q * Z)
    : M (list Q * list Q * Z) :=
  match n with
  | O => ret st
  | S n' => st' <- spectrum_step sdr num_samp nbins nperseg rate st ;;
            spectrum_loop sdr num_samp nbins nperseg rate n' st'
  end.

(** The body of the [try] block. *)
Definition spectrum_body (num_samp nbins nperseg : Z)
    (gain rate fc t_int : Q) (sdr : handle) (close_sdr : bool)
    : M (list Q * list npfloat) :=
    set_rs sdr rate ;;
    set_fc sdr fc ;;
    set_gain sdr gain ;;
    rs <- get_rs sdr ;;
    let N := total_samples rs t_int in
    q <- py_int_truediv N num_samp ;;
    let num_loops := (py_int q + 1)%Z in
    freqs <- np_zeros nbins ;;
    p_xx_tot <- np_zeros nbins ;;
    st <- spectrum_loop sdr num_samp nbins nperseg rate
            (Z.to_nat num_loops) (freqs, p_xx_tot, 0%Z) ;;
    let '(freqs, p_xx_tot, cnt) := st in
    let p_xx_tot := np_idiv_count p_xx_tot cnt in
    (* the debug message evaluates num_samp * cnt / rate *)
    py_truediv (inject_Z (num_samp * cnt)) rate ;;
    let freqs := fftshift freqs in
    let p_xx_tot := fftshift p_xx_tot in
    let freqs := map (fun f => f + fc) freqs in
    win <- call_get_window nperseg ;;
    let p_avg_hz := to_psd p_xx_tot win rate in
    tidy sdr close_sdr ;;
    ret (freqs, p_avg_hz).

Definition run_spectrum_int (num_samp nbins : Z) (gain rate fc t_int : Q)
    (sdr : option handle) : M (list Q * list npfloat) :=
  let nperseg := choose_nperseg nbins in
  with_sdr rate fc gain sdr
    (spectrum_body num_samp nbins nperseg gain rate fc t_int).

(** *** [run_fswitch_int] *)

Record FsState : Type := mkFs {
  freqs_on : list Q;
  freqs_off : list Q;
  p_xx_on : list Q;
  p_xx_off : list Q;
  cntOn : Z;
  cntOff : Z
}.

(** One pass of the inner loop: one block on the current frequency. *)
Definition fswitch_step (sdr : handle) (num_samp nbins nperseg : Z)
    (rate : Q) (tick : bool) (st : FsState) : M FsState :=
  iq <- read_samples sdr num_samp ;;
  let iq := dc_compensate iq in
  if tick then
    let (freqs, p_xx) := welch iq rate nperseg nbins in
    p <- np_iadd (p_xx_on st) p_xx ;;
    ret (mkFs freqs (freqs_off st) p (p_xx_off st)
              (cntOn st + 1)%Z (cntOff st))
  else
    let (freqs, p_xx) := welch iq rate nperseg nbins in
    p <- np_iadd (p_xx_off st) p_xx ;;
    ret (mkFs (freqs_on st) freqs (p_xx_on st) p
              (cntOn st) (cntOff st + 1)%Z).

Fixpoint fswitch_inner (sdr : handle) (num_samp nbins nperseg : Z)
    (rate : Q) (tick : bool) (n : nat) (st : FsState) : M FsState :=
  match n with
  | O => ret st
  | S n' => st' <- fswitch_step sdr num_samp nbins nperseg rate tick st ;;
            fswitch_inner sdr num_samp nbins nperseg rate tick n' st'
  end.

(** One dwell: retune, then [num_loops] blocks. *)
Definition fswitch_dwell (sdr : handle) (num_samp nbins nperseg : Z)
    (rate fc fthrow : Q) (num_loops : Z) (i : Z) (st : FsState)
    : M FsState :=
  let tick := (i mod 2 =? 0)%Z in
  (if tick then set_fc sdr fc else set_fc sdr fthrow) ;;
  fswitch_inner sdr num_samp nbins nperseg rate tick
                (Z.to_nat num_loops) st.

(** The outer loop: dwells [i], [i+1], ... ([n] of them). *)
Fixpoint fswitch_outer (sdr : handle) (num_samp nbins nperseg : Z)
    (rate fc fthrow : Q) (num_loops : Z) (n : nat) (i : Z) (st : FsState)
    : M FsState :=
  match n with
  | O => ret st
  | S n' =>
      st' <- fswitch_dwell sdr num_samp nbins nperseg rate fc fthrow
               num_loops i st ;;
      fswitch_outer sdr num_samp nbins nperseg rate fc fthrow num_loops
                    n' (i + 1)%Z st'
  end.

(** The input check made before the [try]. *)
Definition fswitch_check (t_int fswitch : Q) : M unit :=
  d <- py_truediv 1 fswitch ;;
  if Qle_bool (float_mul 2 d) (float64 t_int) then ret tt
  else raise AssertionError.

(** The body of the [try] block. *)
Definition fswitch_body (num_samp nbins nperseg : Z)
    (gain rate fc fthrow t_int fswitch : Q) (sdr : handle)
    (close_sdr : bool) : M (list Q * list npfloat * list Q * list npfloat) :=
    set_rs sdr rate ;;
    set_fc sdr fc ;;
    set_gain sdr gain ;;
    rs <- get_rs sdr ;;
    let N := total_samples rs t_int in
    (* 1.0 / fswitch *)
    py_truediv 1 fswitch ;;
    let N_dwell := dwell_samples rs fswitch in
    num_loops <- py_floordiv N_dwell num_samp ;;
    num_dwells <- py_floordiv N N_dwell ;;
    (* the debug message evaluates N // num_samp *)
    py_floordiv N num_samp ;;
    freqs_on0 <- np_zeros nbins ;;
    freqs_off0 <- np_zeros nbins ;;
    p_xx_on0 <- np_zeros nbins ;;
    p_xx_off0 <- np_zeros nbins ;;
    st <- fswitch_outer sdr num_samp nbins nperseg rate fc fthrow num_loops
            (Z.to_nat num_dwells) 0%Z
            (mkFs freqs_on0 freqs_off0 p_xx_on0 p_xx_off0 0 0) ;;
    let p_on := np_idiv_count (p_xx_on st) (cntOn st) in
    let p_off := np_idiv_count (p_xx_off st) (cntOff st) in
    (* the debug message evaluates num_samp * (cntOn + cntOff) / rate *)
    py_truediv (inject_Z (num_samp * (cntOn st + cntOff st))) rate ;;
    let f_on := fftshift (freqs_on st) in
    let f_off := fftshift (freqs_off st) in
    let p_on := fftshift p_on in
    let p_off := fftshift p_off in
    let f_on := map (fun f => f + fc) f_on in
    let f_off := map (fun f => f + fthrow) f_off in
    win <- call_get_window nperseg ;;
    let p_avg_on_hz := to_psd p_on win rate in
    let p_avg_off_hz := to_psd p_off win rate in
    tidy sdr close_sdr ;;
    ret (f_on, p_avg_on_hz, f_off, p_avg_off_hz).

Definition run_fswitch_int (num_samp nbins : Z)
    (gain rate fc fthrow t_int fswitch : Q) (sdr : option handle)
    : M (list Q * list npfloat * list Q * list npfloat) :=
  let nperseg := choose_nperseg nbins in
  fswitch_check t_int fswitch ;;
  (* fswitch > 10 only logs a warning *)
  with_sdr rate fc gain sdr
    (fswitch_body num_samp nbins nperseg gain rate fc fthrow t_int fswitch).

End Spectral.

(* ================================================================== *)
(** ** Views on feeds and traces, and concrete inputs *)

(** The first [k] blocks of [n] samples a feed delivers. *)
Fixpoint blocks (n k : nat) (fd : list complex) : list SampleBlock :=
  match k with
  | O => []
  | S k' => firstn n fd :: blocks n k' (skipn n fd)
  end.

(** The event is a block read. *)
Definition is_read (e : Event) : bool :=
  match e with EvRead _ => true | _ => false end.

(** The event is a [close()] call. *)
Definition is_close (e : Event) : bool :=
  match e with EvClose => true | _ => false end.

(** Number of blocks requested from the device in a trace. *)
Definition count_reads (tr : list Event) : nat := length (filter is_read tr).

(** Number of [close()] calls in a trace. *)
Definition count_closes (tr : list Event) : nat :=
  length (filter is_close tr).

(** The world once [k] blocks of [n] samples have been read from it. *)
Definition after_reads (n : Z) (k : nat) (w : World) : World :=
  mkWorld (present w) (is_open w) (dev_rs w) (dev_fc w) (dev_gain w)
          (gpio4 w) (skipn (k * Z.to_nat n) (feed w)) (clock w) (disk_ok w)
          (trace w ++ repeat (EvRead n) k) (released w).

(** A fresh world: a dongle is plugged in and delivers [fd]. *)
Definition fresh_world (fd : list complex) : World :=
  mkWorld true false 0 0 0 false fd 0 true [] 0.

(** A world whose dongle the caller has already opened, at rate [r]. *)
Definition opened_world (r : Q) (fd : list complex) : World :=
  mkWorld true true r 0 0 false fd 0 true [EvOpen] 0.

(** A feed of [n] samples [1+0j, 2+1j, 3+2j, ...]. *)
Definition ramp_feed (n : nat) : list complex :=
  map (fun k => Cx (inject_Z (Z.of_nat k) + 1) (inject_Z (Z.of_nat k)))
      (seq 0 n).

(** [np.fft.fftfreq]-like frequency axis of [nfft] bins at rate [fs]. *)
Definition fftfreq (nfft : Z) (fs : Q) : list Q :=
  map (fun k =>
         let k := Z.of_nat k in
         inject_Z (if (k <? (nfft + 1) / 2)%Z then k else k - nfft)
         * fs / inject_Z nfft)
      (seq 0 (Z.to_nat nfft)).

(** A stand-in for [welch], to run the spectral drivers on concrete
    inputs: bin [k] holds [(k + 1)] times the power of the block. *)
Definition sample_welch (iq : SampleBlock) (fs : Q) (nperseg nfft : Z)
    : list Q * list Q :=
  (fftfreq nfft fs,
   map (fun k => inject_Z (Z.of_nat k + 1) * block_power iq)
       (seq 0 (Z.to_nat nfft))).

(** A stand-in for [get_window('hann', n)]: the periodic Hann window is
    [[0, 1/2, 1, 1/2]] for [n = 4] and [[0, 1]] for [n = 2]. *)
Definition sample_window (n : Z) : list Q :=
  if (n =? 4)%Z then [0; 1 # 2; 1; 1 # 2]
  else if (n =? 2)%Z then [0; 1]
  else repeat 1 (Z.to_nat n).

(* ================================================================== *)
(** ** Views of a run: worlds, accumulators and schedules the statements
    speak about *)

(** [c] never raises [e], whatever the world. *)
Definition never_raises {A} (e : Exn) (c : M A) : Prop :=
  forall w, snd (c w) <> Raise e.

(** The world once the tuner has been set ([sdr.rs], [sdr.fc],
    [sdr.gain]). *)
Definition tuned (rate fc gain : Q) (w : World) : World :=
  mkWorld (present w) (is_open w) rate fc gain (gpio4 w) (feed w)
          (clock w) (disk_ok w)
          (trace w ++ [EvSetRs rate; EvSetFc fc; EvSetGain gain])
          (released w).

(** The world once [RtlSdr()] has opened the dongle. *)
Definition opened (w : World) : World :=
  mkWorld (present w) true (dev_rs w) (dev_fc w) (dev_gain w) (gpio4 w)
          (feed w) (clock w) (disk_ok w) (trace w ++ [EvOpen])
          (released w).

(** The world once [close()] has been called. *)
Definition closed (w : World) : World :=
  mkWorld (present w) false (dev_rs w) (dev_fc w) (dev_gain w) (gpio4 w)
          (feed w) (clock w) (disk_ok w) (trace w ++ [EvClose])
          (if is_open w then S (released w) else released w).

(** Number of blocks requested from the device so far. *)
Definition reads (w : World) : nat := count_reads (trace w).

(** [c] requests at most [k] blocks, whatever the world and the outcome. *)
Definition reads_le {A} (k : nat) (c : M A) : Prop :=
  forall w, (reads (fst (c w)) <= reads w + k)%nat.

(** The power of each block after DC compensation. *)
Definition powers (bl : list SampleBlock) : list Q :=
  map (fun iq => block_power (dc_compensate iq)) bl.

(** Following the spec's words (Power Accumulator, DC Compensator): the sum
    over the samples of a block of [I^2 + Q^2], once the mean of the [I]s
    has been taken off every [I] and the mean of the [Q]s off every [Q]. *)
Definition spec_power (iq : SampleBlock) : Q :=
  let n := inject_Z (Z.of_nat (length iq)) in
  let mI := Qsum (map re iq) / n in
  let mQ := Qsum (map im iq) / n in
  Qsum (map (fun z => (re z - mI) ^ 2 + (im z - mQ) ^ 2) iq).

(** The rate the total-power driver computes [N] from: it reads [sdr.rs],
    which is [rate] on a dongle it opened and the tuner's current rate on a
    handle the caller supplied. *)
Definition rate_in_use (rate : Q) (sdr : option handle) (w : World) : Q :=
  match sdr with None => rate | Some _ => dev_rs w end.

(** The world in which the body of a driver starts. *)
Definition entered (rate fc gain : Q) (sdr : option handle) (w : World)
    : World :=
  match sdr with None => tuned rate fc gain (opened w) | Some _ => w end.

(** The world a driver leaves when its body ends in [w]: on a normal
    return the body has closed a dongle of its own and the [finally] clause
    closes it again. *)
Definition left_normally (sdr : option handle) (w : World) : World :=
  match sdr with None => closed (closed w) | Some _ => w end.

(** The world a driver leaves when its body raises in [w]. *)
Definition left_raising (sdr : option handle) (w : World) : World :=
  match sdr with None => closed w | Some _ => w end.

(** Element-wise sum of two arrays of one length. *)
Definition vadd (a b : list Q) : list Q :=
  map (fun p => fst p + snd p) (combine a b).

(** The periodogram of one block, as the loops compute it. *)
Definition pgram (welch : SampleBlock -> Q -> Z -> Z -> list Q * list Q)
    (rate : Q) (nperseg nbins : Z) (iq : SampleBlock) : list Q :=
  snd (welch (dc_compensate iq) rate nperseg nbins).

(** The frequency axis [welch] returns with it. *)
Definition faxis (welch : SampleBlock -> Q -> Z -> Z -> list Q * list Q)
    (rate : Q) (nperseg nbins : Z) (iq : SampleBlock) : list Q :=
  fst (welch (dc_compensate iq) rate nperseg nbins).

(** The running per-bin sum after the blocks [bl]. *)
Definition accumulate (welch : SampleBlock -> Q -> Z -> Z -> list Q * list Q)
    (rate : Q) (nperseg nbins : Z) (bl : list SampleBlock) (p0 : list Q)
    : list Q :=
  fold_left (fun p iq => vadd p (pgram welch rate nperseg nbins iq)) bl p0.

(** The frequency axis kept after the blocks [bl]: that of the last one. *)
Definition last_axis (welch : SampleBlock -> Q -> Z -> Z -> list Q * list Q)
    (rate : Q) (nperseg nbins : Z) (bl : list SampleBlock) (f0 : list Q)
    : list Q :=
  fold_left (fun _ iq => faxis welch rate nperseg nbins iq) bl f0.

(** The sum over the blocks [bl] of bin [k] of their periodograms. *)
Definition bin_sum (welch : SampleBlock -> Q -> Z -> Z -> list Q * list Q)
    (rate : Q) (nperseg nbins : Z) (k : nat) (bl : list SampleBlock) : Q :=
  Qsum (map (fun iq => nth k (pgram welch rate nperseg nbins iq) 0) bl).

(** [(sum w)^2 / sum (w^2)] as a rational. *)
Definition window_factor (win : list Q) : Q :=
  Qsum win ^ 2 / Qsum (map (fun x => x * x) win).

(** What the drivers do to an accumulated spectrum once the loops are
    over: average, center, shift to [center], scale to a density. *)
Definition finalize (freqs p_xx : list Q) (cnt : Z) (center : Q)
    (win : list Q) (rate : Q) : list Q * list npfloat :=
  (map (fun f => f + center) (fftshift freqs),
   to_psd (fftshift (np_idiv_count p_xx cnt)) win rate).

(** A finalized spectrum of [n] bins: position [(k + n/2) mod n] holds
    bin [k], whose frequency is [axis k + center] and whose power is
    [total k / count * (window_factor / rate)]. *)
Definition finalized (n : nat) (axis total : nat -> Q) (count : Z)
    (center : Q) (win : list Q) (rate : Q)
    (res : list Q * list npfloat) : Prop :=
  length (fst res) = n /\
  length (snd res) = n /\
  forall k, (k < n)%nat ->
    nth ((k + n / 2) mod n) (fst res) 0 = axis k + center /\
    np_eq (nth ((k + n / 2) mod n) (snd res) NaN)
          (Fin (total k / inject_Z count * (window_factor win / rate))).

(** The world once the tuner has been moved to [f]. *)
Definition retuned (f : Q) (w : World) : World :=
  mkWorld (present w) (is_open w) (dev_rs w) f (dev_gain w) (gpio4 w)
          (feed w) (clock w) (disk_ok w) (trace w ++ [EvSetFc f])
          (released w).

(** The world once [n] dwells of [nl] blocks have been acquired, the first
    of them on [fc] when [tick] holds and on [fthrow] otherwise. *)
Fixpoint after_dwells (num_samp : Z) (nl : nat) (fc fthrow : Q) (n : nat)
    (tick : bool) (w : World) : World :=
  match n with
  | O => w
  | S n' =>
      after_dwells num_samp nl fc fthrow n' (negb tick)
        (after_reads num_samp nl (retuned (if tick then fc else fthrow) w))
  end.

(** The calls [n] dwells make, the first of them numbered [i]: a retuning
    and [nl] block reads each; even dwells go to [fc], odd ones to
    [fthrow]. *)
Definition dwell_events (num_samp : Z) (nl : nat) (fc fthrow : Q)
    (i n : nat) : list Event :=
  flat_map (fun j => EvSetFc (if Nat.even j then fc else fthrow)
                     :: repeat (EvRead num_samp) nl)
           (seq i n).

(** The blocks of the dwells in which the switch is in the selected state:
    [n] dwells of [nl] blocks of [ns] samples are cut from the feed, and
    [tick] tells whether the first one is selected. *)
Fixpoint state_blocks (ns nl n : nat) (tick : bool) (fd : list complex)
    : list SampleBlock :=
  match n with
  | O => []
  | S n' => (if tick then blocks ns nl fd else [])
            ++ state_blocks ns nl n' (negb tick) (skipn (nl * ns) fd)
  end.

(** The accumulators once the blocks [on] went to the fiducial frequency
    and [off] to the shifted one. *)
Definition fs_after (welch : SampleBlock -> Q -> Z -> Z -> list Q * list Q)
    (rate : Q) (nperseg nbins : Z) (on off : list SampleBlock)
    (st : FsState) : FsState :=
  mkFs (last_axis welch rate nperseg nbins on (freqs_on st))
       (last_axis welch rate nperseg nbins off (freqs_off st))
       (accumulate welch rate nperseg nbins on (p_xx_on st))
       (accumulate welch rate nperseg nbins off (p_xx_off st))
       (cntOn st + Z.of_nat (length on))
       (cntOff st + Z.of_nat (length off)).

(** The world once the clock has been read. *)
Definition ticked (w : World) : World :=
  mkWorld (present w) (is_open w) (dev_rs w) (dev_fc w) (dev_gain w)
          (gpio4 w) (feed w) (clock w + 1)%Z (disk_ok w)
          (trace w) (released w).

(** The world once GPIO bit 4 has been set to [b]. *)
Definition switched (b : bool) (w : World) : World :=
  mkWorld (present w) (is_open w) (dev_rs w) (dev_fc w) (dev_gain w)
          b (feed w) (clock w) (disk_ok w) (trace w ++ [EvGpioBit 4 b])
          (released w).

(** The world once [n] rounds (set the switch, read a block) are over,
    the first of them with the switch at [b]. *)
Fixpoint after_rounds (num_samp : Z) (b : bool) (n : nat) (w : World)
    : World :=
  match n with
  | O => w
  | S n' => after_rounds num_samp (negb b) n'
              (after_reads num_samp 1 (switched b (ticked w)))
  end.

(** The loop state once [n] rounds are over. *)
Fixpoint dicke_after (num_samp : Z) (b : bool) (n : nat) (st : DickeState)
    (w : World) : DickeState :=
  match n with
  | O => st
  | S n' =>
      dicke_after num_samp (negb b) n'
        (mkDicke (ts st ++ [clock w])
                 (ps st ++ [block_power
                              (dc_compensate
                                 (firstn (Z.to_nat num_samp) (feed w)))])
                 (noise_on st ++ [if b then 1%Z else 0%Z])
                 (if b then 0%Z else 1%Z)
                 (Some (clock w)))
        (after_reads num_samp 1 (switched b (ticked w)))
  end.

(** The switch flags of [n] rounds: [1, 0, 1, 0, ...]. *)
Definition dicke_flags (n : nat) : list Z :=
  map (fun j => if Nat.even j then 1%Z else 0%Z) (seq 0 n).

(** The calls of [m] rounds, the first with the switch at [b]. *)
Fixpoint gpio_rounds (num_samp : Z) (b : bool) (m : nat) : list Event :=
  match m with
  | O => []
  | S m' => EvGpioBit 4 b :: EvRead num_samp
            :: gpio_rounds num_samp (negb b) m'
  end.

(** The level of the switch after [m] rounds, the first at [b], from the
    level [g0]. *)
Fixpoint level_after (b : bool) (m : nat) (g0 : bool) : bool :=
  match m with
  | O => g0
  | S m' => level_after (negb b) m' b
  end.

(** The event is a write of the switch or a block read. *)
Definition is_gpio_or_read (e : Event) : bool :=
  match e with
  | EvGpioBit _ _ | EvRead _ => true
  | _ => false
  end.

(** The switch writes and block reads of a trace, in order. *)
Definition gpio_view (tr : list Event) : list Event :=
  filter is_gpio_or_read tr.

(** The computation returned. *)
Definition is_ok {A} (r : outcome A) : bool :=
  match r with Ok _ => true | Raise _ => false end.

(** The first switch flag of a Dicke time series is "noise off". *)
Definition starts_noise_off (flags : list Z) : Prop :=
  match flags with
  | [] => True
  | f :: _ => f = 0%Z
  end.

(** The switch writes and block reads made so far. *)
Definition gv (w : World) : list Event := gpio_view (trace w).

(** [c] neither writes the switch nor reads a block. *)
Definition quiet {A} (c : M A) : Prop :=
  forall w, gv (fst (c w)) = gv w /\ gpio4 (fst (c w)) = gpio4 w.

(** The write that puts the switch back to 0, when it is made. *)
Definition reset_event (reset : bool) : list Event :=
  if reset then [EvGpioBit 4 false] else [].

(** [c] makes some rounds, the first with the switch at [b], and puts the
    switch back to 0 exactly when it returns and [own] holds. *)
Definition switches {A} (num_samp : Z) (own b : bool) (c : M A) : Prop :=
  forall w, exists m,
    gv (fst (c w))
    = gv w ++ gpio_rounds num_samp b m
      ++ reset_event (own && is_ok (snd (c w))) /\
    gpio4 (fst (c w))
    = if own && is_ok (snd (c w)) then false
      else level_after b m (gpio4 w).

(* ================================================================== *)
(** ** Views used by the further properties *)

(** Two samples are equal as complex numbers. *)
Definition cx_eq (a b : complex) : Prop := re a == re b /\ im a == im b.

(** Two blocks are equal sample by sample. *)
Definition block_eq (x y : SampleBlock) : Prop := Forall2 cx_eq x y.

(** The block with the constant [c] added to every sample. *)
Definition shift_block (c : complex) (iq : SampleBlock) : SampleBlock :=
  map (fun z => Cx (re z + re c) (im z + im c)) iq.

(** The block with every sample multiplied by the real gain [g]. *)
Definition scale_block (g : Q) (iq : SampleBlock) : SampleBlock :=
  map (fun z => Cx (g * re z) (g * im z)) iq.

(** Subtraction of [a] from the real parts and [b] from the imaginary
    parts: the shape of [dc_compensate]. *)
Definition center (a b : Q) (iq : SampleBlock) : SampleBlock :=
  map (fun z => Cx (re z - a) (im z - b)) iq.

(** A numpy value that is neither NaN nor an infinity. *)
Definition np_finite (x : npfloat) : Prop :=
  match x with Fin _ => True | _ => False end.






(** [c] leaves the tuner (rate, center frequency, gain) as it found it. *)
Definition keeps_tuner {A} (c : M A) : Prop :=
  forall w, dev_rs (fst (c w)) = dev_rs w /\
            dev_fc (fst (c w)) = dev_fc w /\
            dev_gain (fst (c w)) = dev_gain w.

(* ================================================================== *)
(** ** Rounding to a double *)

Lemma two_pos (e : Z) : 0 < 2 ^ e.
Proof. apply Qpower_0_lt. reflexivity. Qed.

Lemma two_plus (a b : Z) : 2 ^ (a + b) == 2 ^ a * 2 ^ b.
Proof. apply Qpower_plus. discriminate. Qed.

Lemma two_succ (a : Z) : 2 ^ (a + 1) == 2 * 2 ^ a.
Proof. rewrite two_plus. change (2 ^ 1) with 2. ring. Qed.

Lemma two_cancel (e : Z) : 2 ^ (- e) * 2 ^ e == 1.
Proof. rewrite <- two_plus. replace (- e + e)%Z with 0%Z by lia. reflexivity. Qed.

Lemma two_le (a b : Z) : (a <= b)%Z -> 2 ^ a <= 2 ^ b.
Proof. intros H. apply Qpower_le_compat_l; [exact H | discriminate]. Qed.

Lemma two_lt (a b : Z) : (a < b)%Z -> 2 ^ a < 2 ^ b.
Proof. intros H. apply Qpower_lt_compat_l; [exact H | reflexivity]. Qed.

Lemma two_inject (n : Z) : (0 <= n)%Z -> 2 ^ n == inject_Z (2 ^ n).
Proof. intros H. now rewrite Zpower_Qpower. Qed.

(** A positive rational lies between two consecutive powers of two. *)
Lemma Qlog2_spec (x : Q) :
  0 < x -> 2 ^ Qlog2 x <= x /\ x < 2 ^ (Qlog2 x + 1).
Proof.
  intros Hx. destruct x as [n d].
  assert (Hn : (0 < n)%Z).
  { unfold Qlt in Hx. cbn in Hx. lia. }
  set (a := Z.log2 n). set (b := Z.log2 (Zpos d)).
  assert (Ha : (2 ^ a <= n < 2 ^ (a + 1))%Z).
  { pose proof (Z.log2_spec n Hn). fold a in H.
    now rewrite <- Z.add_1_r in H. }
  assert (Hb : (2 ^ b <= Zpos d < 2 ^ (b + 1))%Z).
  { pose proof (Z.log2_spec (Zpos d) ltac:(lia)). fold b in H.
    now rewrite <- Z.add_1_r in H. }
  assert (Ha0 : (0 <= a)%Z) by apply Z.log2_nonneg.
  assert (Hb0 : (0 <= b)%Z) by apply Z.log2_nonneg.
  assert (Hx' : n # d == inject_Z n / inject_Z (Zpos d)) by apply Qmake_Qdiv.
  assert (Hd : 0 < inject_Z (Zpos d)) by reflexivity.
  (* 2^(a-b-1) < x < 2^(a-b+1) *)
  assert (Hup : n # d < 2 ^ (a - b + 1)).
  { rewrite Hx'. apply Qlt_shift_div_r; [exact Hd|].
    replace (a - b + 1)%Z with ((a + 1) + - b)%Z by lia.
    rewrite two_plus.
    apply Qlt_le_trans with (2 ^ (a + 1) * 2 ^ (- b) * 2 ^ b).
    - rewrite <- Qmult_assoc, two_cancel, Qmult_1_r.
      rewrite two_inject by lia. rewrite <- Zlt_Qlt. lia.
    - apply Qmult_le_l.
      + apply Qmult_lt_0_compat; apply two_pos.
      + rewrite two_inject by lia. rewrite <- Zle_Qle. lia. }
  assert (Hlo : 2 ^ (a - b - 1) < n # d).
  { rewrite Hx'. apply Qlt_shift_div_l; [exact Hd|].
    replace (a - b - 1)%Z with (a + - (b + 1))%Z by lia.
    rewrite two_plus.
    apply Qlt_le_trans with (2 ^ a * 2 ^ (- (b + 1)) * 2 ^ (b + 1)).
    - apply Qmult_lt_l.
      + apply Qmult_lt_0_compat; apply two_pos.
      + rewrite (two_inject (b + 1)) by lia. rewrite <- Zlt_Qlt. lia.
    - rewrite <- Qmult_assoc, two_cancel, Qmult_1_r.
      rewrite two_inject by lia. rewrite <- Zle_Qle. lia. }
  unfold Qlog2. cbn [Qnum Qden]. fold a b.
  destruct (Qle_bool (2 ^ (a - b)) (n # d)) eqn:E.
  - split; [now apply Qle_bool_iff | exact Hup].
  - split; [now apply Qlt_le_weak|].
    replace (a - b - 1 + 1)%Z with (a - b)%Z by lia.
    apply Qnot_le_lt. intros H. apply Qle_bool_iff in H. congruence.
Qed.

Lemma Qlog2_unique (x : Q) (e : Z) :
  2 ^ e <= x -> x < 2 ^ (e + 1) -> Qlog2 x = e.
Proof.
  intros Hlo Hhi.
  assert (Hx : 0 < x) by (eapply Qlt_le_trans; [apply (two_pos e) | exact Hlo]).
  destruct (Qlog2_spec x Hx) as [Llo Lhi].
  assert (A : (Qlog2 x < e + 1)%Z).
  { apply Qpower_lt_compat_l_inv with (q := 2); [|reflexivity].
    eapply Qle_lt_trans; eassumption. }
  assert (B : (e < Qlog2 x + 1)%Z).
  { apply Qpower_lt_compat_l_inv with (q := 2); [|reflexivity].
    eapply Qle_lt_trans; eassumption. }
  lia.
Qed.

Lemma Qlog2_comp (x y : Q) : 0 < x -> x == y -> Qlog2 x = Qlog2 y.
Proof.
  intros Hx E. symmetry. destruct (Qlog2_spec x Hx) as [A B].
  apply Qlog2_unique; rewrite <- E; assumption.
Qed.

Lemma Qlog2_mono (x y : Q) : 0 < x -> x <= y -> (Qlog2 x <= Qlog2 y)%Z.
Proof.
  intros Hx Hxy.
  assert (Hy : 0 < y) by (eapply Qlt_le_trans; eassumption).
  destruct (Qlog2_spec x Hx) as [A _]. destruct (Qlog2_spec y Hy) as [_ B].
  assert (C : (Qlog2 x < Qlog2 y + 1)%Z).
  { apply Qpower_lt_compat_l_inv with (q := 2); [|reflexivity].
    eapply Qle_lt_trans; [exact A|]. eapply Qle_lt_trans; eassumption. }
  lia.
Qed.

(** *** Rounding to the nearest integer *)

Lemma round_half_even_bounds (s : Q) :
  (Qfloor s <= round_half_even s <= Qfloor s + 1)%Z.
Proof.
  unfold round_half_even.
  destruct (_ ?= _); [destruct (Z.even _)| |]; lia.
Qed.

Lemma round_half_even_comp (s t : Q) :
  s == t -> round_half_even s = round_half_even t.
Proof.
  intros E. unfold round_half_even.
  rewrite (Qfloor_comp _ _ E).
  assert (E' : s - inject_Z (Qfloor t) == t - inject_Z (Qfloor t))
    by (rewrite E; reflexivity).
  now rewrite (Qcompare_comp _ _ E' _ _ (Qeq_refl (1 # 2))).
Qed.

Lemma round_half_even_Z (z : Z) : round_half_even (inject_Z z) = z.
Proof.
  unfold round_half_even. rewrite Qfloor_Z.
  assert (E : inject_Z z - inject_Z z == 0) by ring.
  rewrite (Qcompare_comp _ _ E _ _ (Qeq_refl (1 # 2))). reflexivity.
Qed.

Lemma round_half_even_mono (s t : Q) :
  s <= t -> (round_half_even s <= round_half_even t)%Z.
Proof.
  intros H. pose proof (Qfloor_resp_le _ _ H) as Hf.
  pose proof (round_half_even_bounds s) as Bs.
  pose proof (round_half_even_bounds t) as Bt.
  destruct (Z.eq_dec (Qfloor s) (Qfloor t)) as [E|NE]; [|lia].
  unfold round_half_even in *. rewrite E in *.
  set (f := Qfloor t) in *.
  destruct (Qcompare_spec (s - inject_Z f) (1 # 2)) as [Es|Ls|Gs];
    destruct (Qcompare_spec (t - inject_Z f) (1 # 2)) as [Et|Lt|Gt];
    try destruct (Z.even f); try lia; exfalso; lra.
Qed.

(** *** Rounding a positive rational *)

Lemma scaled_range (x : Q) :
  0 < x ->
  inject_Z (2 ^ 52) <= x * 2 ^ (- (Qlog2 x - 52)) /\
  x * 2 ^ (- (Qlog2 x - 52)) <= inject_Z (2 ^ 53).
Proof.
  intros Hx. destruct (Qlog2_spec x Hx) as [A B].
  set (L := Qlog2 x) in *.
  replace (- (L - 52))%Z with (52 + - L)%Z by lia.
  rewrite two_plus.
  assert (P := two_pos (- L)).
  assert (C1 : 2 ^ L * 2 ^ (- L) == 1)
    by (rewrite Qmult_comm; apply two_cancel).
  assert (C2 : 2 ^ (L + 1) * 2 ^ (- L) == 2).
  { rewrite two_succ, <- Qmult_assoc, C1. ring. }
  assert (D1 : 1 <= x * 2 ^ (- L)).
  { apply Qle_trans with (2 ^ L * 2 ^ (- L)); [rewrite C1; apply Qle_refl|].
    apply Qmult_le_compat_r; [exact A | now apply Qlt_le_weak]. }
  assert (D2 : x * 2 ^ (- L) <= 2).
  { apply Qle_trans with (2 ^ (L + 1) * 2 ^ (- L));
      [|rewrite C2; apply Qle_refl].
    apply Qmult_le_compat_r; now apply Qlt_le_weak. }
  assert (T : (2:Q) ^ 52 == inject_Z (2 ^ 52)) by (apply two_inject; lia).
  assert (T' : inject_Z (2 ^ 53) == 2 * inject_Z (2 ^ 52)) by reflexivity.
  rewrite T' , <- T.
  assert (P52 := two_pos 52).
  split.
  - setoid_replace (x * (2 ^ 52 * 2 ^ (- L))) with (2 ^ 52 * (x * 2 ^ (- L)))
      by ring.
    nra.
  - setoid_replace (x * (2 ^ 52 * 2 ^ (- L))) with (2 ^ 52 * (x * 2 ^ (- L)))
      by ring.
    nra.
Qed.

Lemma mantissa_range (x : Q) :
  0 < x ->
  (2 ^ 52 <= round_half_even (x * 2 ^ (- (Qlog2 x - 52))) <= 2 ^ 53)%Z.
Proof.
  intros Hx. destruct (scaled_range x Hx) as [A B]. split.
  - rewrite <- (round_half_even_Z (2 ^ 52)). now apply round_half_even_mono.
  - rewrite <- (round_half_even_Z (2 ^ 53)). now apply round_half_even_mono.
Qed.

Lemma round_pos_range (x : Q) :
  0 < x ->
  2 ^ Qlog2 x <= round_pos x /\ round_pos x <= 2 ^ (Qlog2 x + 1).
Proof.
  intros Hx. pose proof (mantissa_range x Hx) as [A B].
  unfold round_pos. set (L := Qlog2 x) in *.
  set (m := round_half_even _) in *.
  assert (P := two_pos (L - 52)).
  assert (E1 : 2 ^ L == inject_Z (2 ^ 52) * 2 ^ (L - 52)).
  { rewrite <- two_inject, <- two_plus by lia. now replace (52 + (L - 52))%Z with L by lia. }
  assert (E2 : 2 ^ (L + 1) == inject_Z (2 ^ 53) * 2 ^ (L - 52)).
  { rewrite <- two_inject, <- two_plus by lia.
    now replace (53 + (L - 52))%Z with (L + 1)%Z by lia. }
  rewrite E1, E2. split; apply Qmult_le_compat_r;
    try (now apply Qlt_le_weak); rewrite <- Zle_Qle; assumption.
Qed.

Lemma round_pos_pos (x : Q) : 0 < x -> 0 < round_pos x.
Proof.
  intros Hx. eapply Qlt_le_trans; [apply (two_pos (Qlog2 x))|].
  apply (round_pos_range x Hx).
Qed.

Lemma round_pos_comp (x y : Q) : 0 < x -> x == y -> round_pos x == round_pos y.
Proof.
  intros Hx E. unfold round_pos. rewrite <- (Qlog2_comp x y Hx E).
  set (k := (Qlog2 x - 52)%Z).
  assert (E' : x * 2 ^ (- k) == y * 2 ^ (- k)) by (rewrite E; reflexivity).
  rewrite (round_half_even_comp _ _ E'). reflexivity.
Qed.

Lemma round_pos_mono (x y : Q) :
  0 < x -> x <= y -> round_pos x <= round_pos y.
Proof.
  intros Hx Hxy.
  assert (Hy : 0 < y) by (eapply Qlt_le_trans; eassumption).
  pose proof (Qlog2_mono x y Hx Hxy) as HL.
  destruct (Z.eq_dec (Qlog2 x) (Qlog2 y)) as [E|NE].
  - unfold round_pos. rewrite E. apply Qmult_le_compat_r.
    + rewrite <- Zle_Qle. apply round_half_even_mono.
      apply Qmult_le_compat_r; [exact Hxy|]. apply Qlt_le_weak, two_pos.
    + apply Qlt_le_weak, two_pos.
  - apply Qle_trans with (2 ^ (Qlog2 x + 1)); [apply (round_pos_range x Hx)|].
    apply Qle_trans with (2 ^ Qlog2 y); [|apply (round_pos_range y Hy)].
    apply two_le. lia.
Qed.

Lemma round_pos_double (x : Q) : 0 < x -> round_pos (2 * x) == 2 * round_pos x.
Proof.
  intros Hx. destruct (Qlog2_spec x Hx) as [A B].
  assert (L2 : Qlog2 (2 * x) = (Qlog2 x + 1)%Z).
  { apply Qlog2_unique.
    - rewrite two_succ. lra.
    - rewrite (two_succ (Qlog2 x + 1)). lra. }
  unfold round_pos. rewrite L2.
  replace (Qlog2 x + 1 - 52)%Z with ((Qlog2 x - 52) + 1)%Z by lia.
  set (e := (Qlog2 x - 52)%Z).
  rewrite (round_half_even_comp (2 * x * 2 ^ (- (e + 1))) (x * 2 ^ (- e))).
  - rewrite two_succ. ring.
  - replace (- e)%Z with (- (e + 1) + 1)%Z by lia.
    rewrite (two_succ (- (e + 1))). ring.
Qed.

(** A rational with a 53-bit mantissa is a float. *)
Lemma round_pos_exact (m e : Z) :
  (2 ^ 52 <= m <= 2 ^ 53)%Z ->
  round_pos (inject_Z m * 2 ^ e) == inject_Z m * 2 ^ e.
Proof.
  intros [Hlo Hhi].
  assert (P := two_pos e).
  assert (T52 : (2:Q) ^ 52 == inject_Z (2 ^ 52)) by (apply two_inject; lia).
  assert (T53 : (2:Q) ^ 53 == inject_Z (2 ^ 53)) by (apply two_inject; lia).
  destruct (Z.eq_dec m (2 ^ 53)) as [E|NE].
  - subst m.
    assert (L : Qlog2 (inject_Z (2 ^ 53) * 2 ^ e) = (e + 53)%Z).
    { apply Qlog2_unique.
      - rewrite <- T53, <- two_plus. apply two_le. lia.
      - rewrite <- T53, <- two_plus. apply two_lt. lia. }
    unfold round_pos. rewrite L.
    replace (e + 53 - 52)%Z with (e + 1)%Z by lia.
    rewrite (round_half_even_comp _ (inject_Z (2 ^ 52))).
    + rewrite round_half_even_Z, two_succ.
      change (inject_Z (2 ^ 53)) with (2 * inject_Z (2 ^ 52)). ring.
    + rewrite <- T53, <- T52, <- Qmult_assoc, <- !two_plus.
      replace (53 + (e + - (e + 1)))%Z with 52%Z by lia. reflexivity.
  - assert (L : Qlog2 (inject_Z m * 2 ^ e) = (e + 52)%Z).
    { apply Qlog2_unique.
      - rewrite (Z.add_comm e 52), two_plus, T52.
        apply Qmult_le_compat_r; [|now apply Qlt_le_weak].
        rewrite <- Zle_Qle. exact Hlo.
      - replace (e + 52 + 1)%Z with (53 + e)%Z by lia.
        rewrite two_plus, T53. apply Qmult_lt_compat_r; [exact P|].
        rewrite <- Zlt_Qlt. lia. }
    unfold round_pos. rewrite L.
    replace (e + 52 - 52)%Z with e by lia.
    rewrite (round_half_even_comp _ (inject_Z m)).
    + now rewrite round_half_even_Z.
    + rewrite <- Qmult_assoc, (Qmult_comm (2 ^ e)), two_cancel. ring.
Qed.

Lemma round_pos_idem (x : Q) : 0 < x -> round_pos (round_pos x) == round_pos x.
Proof.
  intros Hx. unfold round_pos at 2 3.
  apply round_pos_exact. apply (mantissa_range x Hx).
Qed.

(** *** [float64] *)

Lemma float64_pos (x : Q) : 0 < x -> float64 x = round_pos x.
Proof.
  intros H. unfold float64.
  destruct (Qcompare_spec x 0); [lra | lra | reflexivity].
Qed.

Lemma float64_neg (x : Q) : x < 0 -> float64 x = - round_pos (- x).
Proof.
  intros H. unfold float64.
  destruct (Qcompare_spec x 0); [lra | reflexivity | lra].
Qed.

Lemma float64_zero (x : Q) : x == 0 -> float64 x = 0.
Proof.
  intros H. unfold float64.
  destruct (Qcompare_spec x 0); [reflexivity | lra | lra].
Qed.

Lemma float64_sign_pos (x : Q) : 0 < x -> 0 < float64 x.
Proof. intros H. rewrite float64_pos by exact H. now apply round_pos_pos. Qed.

Lemma float64_sign_neg (x : Q) : x < 0 -> float64 x < 0.
Proof.
  intros H. rewrite float64_neg by exact H.
  assert (0 < round_pos (- x)) by (apply round_pos_pos; lra). lra.
Qed.

Lemma float64_nonneg (x : Q) : 0 <= x -> 0 <= float64 x.
Proof.
  intros H. destruct (Qcompare_spec x 0) as [E|L|G].
  - rewrite float64_zero by exact E. lra.
  - lra.
  - apply Qlt_le_weak, float64_sign_pos, G.
Qed.

Lemma float64_nonzero (x : Q) : ~ x == 0 -> ~ float64 x == 0.
Proof.
  intros H. destruct (Qcompare_spec x 0) as [E|L|G].
  - contradiction.
  - pose proof (float64_sign_neg x L). lra.
  - pose proof (float64_sign_pos x G). lra.
Qed.

#[global] Instance float64_comp : Proper (Qeq ==> Qeq) float64.
Proof.
  intros x y E. destruct (Qcompare_spec x 0) as [Z|L|G].
  - rewrite (float64_zero x Z), (float64_zero y) by (rewrite <- E; exact Z).
    reflexivity.
  - rewrite (float64_neg x L), (float64_neg y) by (rewrite <- E; exact L).
    rewrite (round_pos_comp (- x) (- y)); [reflexivity | lra | now rewrite E].
  - rewrite (float64_pos x G), (float64_pos y) by (rewrite <- E; exact G).
    now apply round_pos_comp.
Qed.

Lemma float64_opp (x : Q) : float64 (- x) == - float64 x.
Proof.
  destruct (Qcompare_spec x 0) as [Z|L|G].
  - rewrite (float64_zero x Z), (float64_zero (- x)) by lra. reflexivity.
  - rewrite (float64_neg x L), (float64_pos (- x)) by lra. ring.
  - rewrite (float64_pos x G), (float64_neg (- x)) by lra.
    rewrite (round_pos_comp (- - x) x); [reflexivity | lra | ring].
Qed.

(** Rounding keeps the order. *)
Lemma float64_mono (x y : Q) : x <= y -> float64 x <= float64 y.
Proof.
  intros H.
  destruct (Qcompare_spec x 0) as [Zx|Lx|Gx].
  - rewrite (float64_zero x Zx). apply float64_nonneg. lra.
  - destruct (Qcompare_spec y 0) as [Zy|Ly|Gy].
    + rewrite (float64_zero y Zy). apply Qlt_le_weak, float64_sign_neg, Lx.
    + rewrite (float64_neg x Lx), (float64_neg y Ly).
      assert (round_pos (- y) <= round_pos (- x))
        by (apply round_pos_mono; lra). lra.
    + pose proof (float64_sign_neg x Lx). pose proof (float64_sign_pos y Gy).
      lra.
  - rewrite (float64_pos x Gx), (float64_pos y) by lra.
    now apply round_pos_mono.
Qed.

(** A float is its own rounding. *)
Lemma float64_idem (x : Q) : float64 (float64 x) == float64 x.
Proof.
  destruct (Qcompare_spec x 0) as [Z|L|G].
  - rewrite (float64_zero x Z). reflexivity.
  - rewrite (float64_neg x L), float64_opp.
    rewrite float64_pos by (apply round_pos_pos; lra).
    rewrite round_pos_idem by lra. reflexivity.
  - rewrite (float64_pos x G).
    rewrite float64_pos by (apply round_pos_pos; exact G).
    now apply round_pos_idem.
Qed.

(** Doubling is exact. *)
Lemma float64_double (x : Q) : float64 (2 * x) == 2 * float64 x.
Proof.
  destruct (Qcompare_spec x 0) as [Z|L|G].
  - rewrite (float64_zero x Z), (float64_zero (2 * x)) by lra. reflexivity.
  - rewrite (float64_neg x L), (float64_neg (2 * x)) by lra.
    rewrite (round_pos_comp (- (2 * x)) (2 * - x)); [| lra | ring].
    rewrite round_pos_double by lra. ring.
  - rewrite (float64_pos x G), (float64_pos (2 * x)) by lra.
    now apply round_pos_double.
Qed.

(* ================================================================== *)
(** ** Sums and means *)

Lemma Qsum_app (l1 l2 : list Q) : Qsum (l1 ++ l2) == Qsum l1 + Qsum l2.
Proof.
  induction l1 as [|x l1 IH]; simpl.
  - ring.
  - rewrite IH. ring.
Qed.

Lemma Qsum_map_shift {A : Type} (f : A -> Q) (m : Q) (l : list A) :
  Qsum (map (fun z => f z - m) l)
  == Qsum (map f l) - inject_Z (Z.of_nat (length l)) * m.
Proof.
  induction l as [|x l IH].
  - simpl. ring.
  - cbn [map Qsum fold_right length]. fold (Qsum (map (fun z => f z - m) l)).
    fold (Qsum (map f l)). rewrite IH.
    rewrite Nat2Z.inj_succ. unfold Z.succ. rewrite inject_Z_plus. ring.
Qed.

Lemma length_pos_inject {A : Type} (l : list A) :
  l <> [] -> ~ inject_Z (Z.of_nat (length l)) == 0.
Proof.
  intros Hl H. destruct l as [|x l]; [congruence|].
  unfold Qeq in H. cbn [inject_Z Qnum Qden length] in H. lia.
Qed.

Lemma mean_centered {A : Type} (f : A -> Q) (l : list A) :
  l <> [] ->
  mean (map (fun z => f z - mean (map f l)) l) == 0.
Proof.
  intros Hl. unfold mean at 1. rewrite Qsum_map_shift.
  rewrite length_map. unfold mean. rewrite length_map.
  pose proof (length_pos_inject l Hl) as Hn.
  field. exact Hn.
Qed.

(** C9. The DC compensation keeps the length of the block, subtracts the
    mean of the real parts from every real part and the mean of the
    imaginary parts from every imaginary part, and (on a block that is not
    empty) leaves real parts of mean zero and imaginary parts of mean
    zero. *)
Theorem dc_compensate_zero_mean (iq : SampleBlock) :
  length (dc_compensate iq) = length iq /\
  (forall k z, nth_error iq k = Some z ->
     nth_error (dc_compensate iq) k
     = Some (Cx (re z - mean (map re iq)) (im z - mean (map im iq)))) /\
  (iq <> [] ->
     mean (map re (dc_compensate iq)) == 0 /\
     mean (map im (dc_compensate iq)) == 0).
Proof.
  unfold dc_compensate. split; [apply length_map|]. split.
  - intros k z Hk. rewrite nth_error_map, Hk. reflexivity.
  - intros Hl. rewrite !map_map. cbn [re im]. split.
    + apply (mean_centered re iq Hl).
    + apply (mean_centered im iq Hl).
Qed.

Lemma dc_compensate_zero_mean_witness :
  ramp_feed 3 <> [] /\
  mean (map re (dc_compensate (ramp_feed 3))) == 0 /\
  mean (map im (dc_compensate (ramp_feed 3))) == 0.
Proof.
  assert (H : ramp_feed 3 <> []) by (vm_compute; discriminate).
  split; [exact H|].
  exact (proj2 (proj2 (dc_compensate_zero_mean (ramp_feed 3))) H).
Defined.

(* ================================================================== *)
(** ** [int()] and [//] *)

Lemma py_int_nonneg (x : Q) : 0 <= x -> py_int x = Qfloor x.
Proof.
  destruct x as [n d]. unfold Qle, py_int, Qfloor. cbn [Qnum Qden].
  intros H. rewrite Z.quot_div_nonneg; lia.
Qed.

Lemma py_int_opp (x : Q) : py_int (- x) = (- py_int x)%Z.
Proof.
  destruct x as [n d]. unfold py_int, Qopp. cbn [Qnum Qden].
  apply Z.quot_opp_l. lia.
Qed.

Lemma py_int_comp (x y : Q) : x == y -> py_int x = py_int y.
Proof.
  intros E. destruct (Qlt_le_dec x 0) as [Hx|Hx].
  - assert (Hy : 0 <= - y) by (rewrite <- E; lra).
    assert (Hx' : 0 <= - x) by lra.
    pose proof (py_int_nonneg _ Hx') as A.
    pose proof (py_int_nonneg _ Hy) as B.
    rewrite py_int_opp in A, B.
    assert (C : Qfloor (- x) = Qfloor (- y))
      by (apply Qfloor_comp; rewrite E; reflexivity).
    lia.
  - assert (Hy : 0 <= y) by (rewrite <- E; exact Hx).
    rewrite !py_int_nonneg by assumption. apply Qfloor_comp, E.
Qed.

Lemma Qfloor_nonneg (x : Q) : 0 <= x -> (0 <= Qfloor x)%Z.
Proof.
  intros H. change 0%Z with (Qfloor 0). apply Qfloor_resp_le, H.
Qed.

Lemma py_int_pos (x : Q) : 0 <= x -> (0 <= py_int x)%Z.
Proof.
  intros H. rewrite py_int_nonneg by exact H. apply Qfloor_nonneg, H.
Qed.

Lemma Qfloor_int_truediv (a b : Z) :
  (0 < b)%Z -> Qfloor (int_truediv a b) = (a / b)%Z.
Proof.
  intros Hb. unfold int_truediv.
  destruct b as [|p|p]; try lia.
  unfold Qdiv, Qinv, inject_Z, Qmult, Qfloor. cbn [Qnum Qden].
  f_equal; lia.
Qed.

Lemma int_truediv_nonneg (a b : Z) :
  (0 <= a)%Z -> (0 < b)%Z -> 0 <= int_truediv a b.
Proof.
  intros Ha Hb. unfold int_truediv. apply Qle_shift_div_l.
  - change 0 with (inject_Z 0). rewrite <- Zlt_Qlt. exact Hb.
  - rewrite Qmult_0_l. change 0 with (inject_Z 0). rewrite <- Zle_Qle.
    exact Ha.
Qed.

Lemma py_int_truediv_floor (a b : Z) :
  (0 <= a)%Z -> (0 < b)%Z -> py_int (int_truediv a b) = (a / b)%Z.
Proof.
  intros Ha Hb. rewrite py_int_nonneg.
  - apply Qfloor_int_truediv, Hb.
  - apply int_truediv_nonneg; assumption.
Qed.

Lemma call_budget_floor (a b : Z) :
  (0 < b)%Z -> call_budget (int_truediv a b) = Z.to_nat (a / b).
Proof.
  intros Hb. unfold call_budget. now rewrite Qfloor_int_truediv.
Qed.

Lemma py_int_mono (x y : Q) : 0 <= x -> x <= y -> (py_int x <= py_int y)%Z.
Proof.
  intros Hx Hxy. rewrite !py_int_nonneg by lra. now apply Qfloor_resp_le.
Qed.

Lemma py_int_double (x : Q) : 0 <= x -> (2 * py_int x <= py_int (2 * x))%Z.
Proof.
  intros Hx. rewrite !py_int_nonneg by lra.
  pose proof (Qfloor_le x) as A.
  assert (B : inject_Z (2 * Qfloor x) <= 2 * x).
  { rewrite inject_Z_mult. change (inject_Z 2) with 2. lra. }
  apply Qfloor_resp_le in B. now rewrite Qfloor_Z in B.
Qed.

(** *** The float operations of the drivers *)

Lemma float64_1 : float64 1 == 1.
Proof. vm_compute. reflexivity. Qed.

Lemma float64_2 : float64 2 == 2.
Proof. vm_compute. reflexivity. Qed.

Lemma float64_nonpos (x : Q) : x <= 0 -> float64 x <= 0.
Proof.
  intros H. pose proof (float64_mono x 0 H) as M.
  now rewrite (float64_zero 0 (Qeq_refl 0)) in M.
Qed.

Lemma float_mul_nonneg (a b : Q) : 0 <= a * b -> 0 <= float_mul a b.
Proof.
  intros H. unfold float_mul. apply float64_nonneg.
  destruct (Qlt_le_dec 0 a) as [Ha|Ha].
  - assert (0 <= b) by nra.
    pose proof (float64_nonneg a ltac:(lra)).
    pose proof (float64_nonneg b ltac:(lra)). nra.
  - destruct (Qlt_le_dec a 0) as [Ha'|Ha'].
    + assert (b <= 0) by nra.
      pose proof (float64_nonpos a ltac:(lra)).
      pose proof (float64_nonpos b ltac:(lra)). nra.
    + assert (E : a == 0) by lra.
      rewrite (float64_zero a E). lra.
Qed.

Lemma float_div_pos (a b : Q) : 0 < a -> 0 < b -> 0 < float_div a b.
Proof.
  intros Ha Hb. unfold float_div. apply float64_sign_pos.
  pose proof (float64_sign_pos a Ha). pose proof (float64_sign_pos b Hb).
  apply Qlt_shift_div_l; lra.
Qed.

Lemma float_div_float (a b : Q) : float64 (float_div a b) == float_div a b.
Proof. apply float64_idem. Qed.

Lemma float_mul_float (a b : Q) : float64 (float_mul a b) == float_mul a b.
Proof. apply float64_idem. Qed.

Lemma float_div_1 (f : Q) :
  float64 f == f -> float_div 1 f == float64 (1 / f).
Proof. intros E. unfold float_div. now rewrite float64_1, E. Qed.

(** The threshold is twice the float [1.0 / fswitch]: the doubling is
    exact. *)
Lemma switch_threshold_eq (f : Q) : switch_threshold f == 2 * float_div 1 f.
Proof.
  unfold switch_threshold, float_mul.
  rewrite float64_2, float_div_float, float64_double, float_div_float.
  reflexivity.
Qed.

(** For a float [fswitch], a [t_int] of at least [2 / fswitch] clears the
    threshold. *)
Lemma threshold_below (t_int f : Q) :
  float64 f == f -> ~ f == 0 -> 2 / f <= t_int ->
  switch_threshold f <= float64 t_int.
Proof.
  intros E Hf Ht. rewrite switch_threshold_eq, (float_div_1 f E).
  assert (H : 1 / f <= t_int / 2).
  { setoid_replace (1 / f) with (2 / f / 2) by (field; exact Hf).
    apply Qmult_le_compat_r; [exact Ht | vm_compute; discriminate]. }
  apply float64_mono in H.
  assert (D : float64 t_int == 2 * float64 (t_int / 2)).
  { rewrite <- float64_double. apply float64_comp. field. }
  rewrite D. lra.
Qed.

Lemma total_samples_nonneg (rs t_int : Q) :
  0 <= rs * t_int -> (0 <= total_samples rs t_int)%Z.
Proof. intros H. apply py_int_pos, float_mul_nonneg, H. Qed.


(** An accepted integration holds at least two dwells' worth of samples:
    [N >= 2 * N_dwell]. *)
Lemma two_dwells_fit (rs t_int fswitch : Q) :
  0 <= rs -> 0 < fswitch ->
  switch_threshold fswitch <= float64 t_int ->
  (2 * dwell_samples rs fswitch <= total_samples rs t_int)%Z.
Proof.
  intros Hr Hf Ht. unfold dwell_samples, total_samples.
  set (d := float_div 1 fswitch).
  assert (Pd : 0 < d) by (apply float_div_pos; lra).
  assert (Pr : 0 <= float64 rs) by (apply float64_nonneg, Hr).
  assert (Y : 0 <= float_mul rs d).
  { unfold float_mul. apply float64_nonneg. unfold d.
    rewrite float_div_float. fold d. nra. }
  eapply Z.le_trans; [apply py_int_double, Y|].
  apply py_int_mono; [lra|].
  unfold float_mul. unfold d at 1. rewrite float_div_float. fold d.
  rewrite <- float64_double. apply float64_mono.
  rewrite switch_threshold_eq in Ht. fold d in Ht. nra.
Qed.


(* ================================================================== *)
(** ** Running the monad *)

Lemma bind_Ok {A B} (c : M A) (k : A -> M B) (w w1 : World) (a : A) :
  c w = (w1, Ok a) -> bind c k w = k a w1.
Proof. intros H. unfold bind. now rewrite H. Qed.

Lemma bind_Raise {A B} (c : M A) (k : A -> M B) (w w1 : World) (e : Exn) :
  c w = (w1, Raise e) -> bind c k w = (w1, Raise e).
Proof. intros H. unfold bind. now rewrite H. Qed.

Lemma py_truediv_Ok (a b : Q) (w : World) :
  ~ b == 0 -> py_truediv a b w = (w, Ok (float_div a b)).
Proof.
  intros H. unfold py_truediv, Qis_zero.
  destruct (Qeq_bool b 0) eqn:E; [|reflexivity].
  apply Qeq_bool_iff in E. contradiction.
Qed.

Lemma py_truediv_zero (a b : Q) (w : World) :
  b == 0 -> py_truediv a b w = (w, Raise ZeroDivisionError).
Proof.
  intros H. unfold py_truediv, Qis_zero.
  apply Qeq_bool_iff in H. now rewrite H.
Qed.

Lemma py_floordiv_Ok (a b : Z) (w : World) :
  b <> 0%Z -> py_floordiv a b w = (w, Ok (a / b)%Z).
Proof.
  intros H. unfold py_floordiv. apply Z.eqb_neq in H. now rewrite H.
Qed.

Lemma py_int_truediv_Ok (a b : Z) (w : World) :
  b <> 0%Z -> py_int_truediv a b w = (w, Ok (int_truediv a b)).
Proof.
  intros H. unfold py_int_truediv. apply Z.eqb_neq in H. now rewrite H.
Qed.

Lemma np_zeros_Ok (n : Z) (w : World) :
  (0 <= n)%Z -> np_zeros n w = (w, Ok (repeat 0 (Z.to_nat n))).
Proof.
  intros H. unfold np_zeros. apply Z.ltb_ge in H. now rewrite H.
Qed.

(* ================================================================== *)
(** ** Which exceptions a computation can raise *)

Lemma nr_ret {A} (e : Exn) (a : A) : never_raises e (ret a).
Proof. intros w. discriminate. Qed.

Lemma nr_raise {A} (e e' : Exn) : e' <> e -> never_raises e (@raise A e').
Proof. intros H w. simpl. congruence. Qed.

Lemma nr_bind {A B} (e : Exn) (c : M A) (k : A -> M B) :
  never_raises e c -> (forall a, never_raises e (k a)) ->
  never_raises e (bind c k).
Proof.
  intros Hc Hk w. unfold bind. specialize (Hc w).
  destruct (c w) as [w1 [a|e1]]; simpl in *.
  - apply Hk.
  - intros E. apply Hc. congruence.
Qed.

Lemma nr_if {A} (e : Exn) (b : bool) (c1 c2 : M A) :
  never_raises e c1 -> never_raises e c2 ->
  never_raises e (if b then c1 else c2).
Proof. destruct b; auto. Qed.

Lemma nr_set_rs e h r : never_raises e (set_rs h r).
Proof. intros w. discriminate. Qed.
Lemma nr_set_fc e h r : never_raises e (set_fc h r).
Proof. intros w. discriminate. Qed.
Lemma nr_set_gain e h r : never_raises e (set_gain h r).
Proof. intros w. discriminate. Qed.
Lemma nr_get_rs e h : never_raises e (get_rs h).
Proof. intros w. discriminate. Qed.
Lemma nr_close e h : never_raises e (close h).
Proof. intros w. discriminate. Qed.
Lemma nr_tidy e h b : never_raises e (tidy h b).
Proof. destruct b; intros w; discriminate. Qed.

Lemma nr_read_samples e h n :
  DeviceReadError <> e -> never_raises e (read_samples h n).
Proof.
  intros H w. unfold read_samples.
  destruct (_ && _)%bool; simpl; congruence.
Qed.

Lemma nr_py_truediv e a b :
  ZeroDivisionError <> e -> never_raises e (py_truediv a b).
Proof.
  intros H w. unfold py_truediv. destruct (Qis_zero b); simpl; congruence.
Qed.

Lemma nr_py_floordiv e a b :
  ZeroDivisionError <> e -> never_raises e (py_floordiv a b).
Proof.
  intros H w. unfold py_floordiv. destruct (b =? 0)%Z; simpl; congruence.
Qed.

Lemma nr_np_zeros e n : ValueError <> e -> never_raises e (np_zeros n).
Proof.
  intros H w. unfold np_zeros. destruct (n <? 0)%Z; simpl; congruence.
Qed.

Lemma nr_np_iadd e a b : ValueError <> e -> never_raises e (np_iadd a b).
Proof.
  intros H w. unfold np_iadd.
  destruct (_ =? _)%nat; [discriminate|].
  destruct (_ =? _)%nat; simpl; congruence.
Qed.

Lemma nr_get_sdr e r f g :
  DeviceOpenError <> e -> never_raises e (get_sdr r f g).
Proof.
  intros H w. unfold get_sdr, bind, RtlSdr.
  destruct (present w); simpl; congruence.
Qed.

Lemma nr_with_sdr {A} e r f g sdr (body : handle -> bool -> M A) :
  DeviceOpenError <> e ->
  (forall h b, never_raises e (body h b)) ->
  never_raises e (with_sdr r f g sdr body).
Proof.
  intros H Hb w. unfold with_sdr. destruct sdr as [h|].
  - specialize (Hb h false w). destruct (body h false w) as [w2 r2].
    exact Hb.
  - pose proof (nr_get_sdr e r f g H w) as Hg. unfold bind.
    destruct (get_sdr r f g w) as [w1 [h|e1]]; simpl in *.
    + specialize (Hb h true w1). destruct (body h true w1) as [w2 r2].
      exact Hb.
    + intros E. apply Hg. congruence.
Qed.

Section SpectralRaises.

Variable welch : SampleBlock -> Q -> Z -> Z -> list Q * list Q.
Variable get_window : Z -> list Q.

Lemma nr_fswitch_step h ns nb np rate tick st :
  never_raises AssertionError (fswitch_step welch h ns nb np rate tick st).
Proof.
  unfold fswitch_step. apply nr_bind; [apply nr_read_samples; discriminate|].
  intros iq. destruct tick; destruct (welch _ _ _ _) as [fr px];
    (apply nr_bind; [apply nr_np_iadd; discriminate | intros; apply nr_ret]).
Qed.

Lemma nr_fswitch_inner h ns nb np rate tick n st :
  never_raises AssertionError (fswitch_inner welch h ns nb np rate tick n st).
Proof.
  revert st. induction n as [|n IH]; intros st; simpl.
  - apply nr_ret.
  - apply nr_bind; [apply nr_fswitch_step | intros; apply IH].
Qed.

Lemma nr_fswitch_outer h ns nb np rate fc fthrow nl n i st :
  never_raises AssertionError
    (fswitch_outer welch h ns nb np rate fc fthrow nl n i st).
Proof.
  revert i st. induction n as [|n IH]; intros i st; simpl.
  - apply nr_ret.
  - apply nr_bind; [|intros; apply IH].
    unfold fswitch_dwell. apply nr_bind; [|intros; apply nr_fswitch_inner].
    apply nr_if; apply nr_set_fc.
Qed.

Lemma fswitch_check_Ok (t_int fswitch : Q) (w : World) :
  ~ fswitch == 0 -> switch_threshold fswitch <= float64 t_int ->
  fswitch_check t_int fswitch w = (w, Ok tt).
Proof.
  intros Hf Ht. unfold fswitch_check.
  rewrite (bind_Ok _ _ _ _ _ (py_truediv_Ok 1 fswitch w Hf)).
  fold (switch_threshold fswitch).
  apply Qle_bool_iff in Ht. now rewrite Ht.
Qed.

Lemma fswitch_check_fails (t_int fswitch : Q) (w : World) :
  ~ fswitch == 0 -> float64 t_int < switch_threshold fswitch ->
  fswitch_check t_int fswitch w = (w, Raise AssertionError).
Proof.
  intros Hf Ht. unfold fswitch_check.
  rewrite (bind_Ok _ _ _ _ _ (py_truediv_Ok 1 fswitch w Hf)).
  fold (switch_threshold fswitch).
  destruct (Qle_bool _ _) eqn:L; [|reflexivity].
  apply Qle_bool_iff in L. lra.
Qed.

Lemma nr_call_get_window e n :
  ValueError <> e -> never_raises e (call_get_window get_window n).
Proof.
  intros H w. unfold call_get_window. destruct (n <=? 0)%Z; simpl; congruence.
Qed.

Lemma fswitch_accepted_no_assertion
    (num_samp nbins : Z) (gain rate fc fthrow t_int fswitch : Q)
    (sdr : option handle) (w : World) :
  ~ fswitch == 0 -> switch_threshold fswitch <= float64 t_int ->
  snd (run_fswitch_int welch get_window num_samp nbins gain rate fc
         fthrow t_int fswitch sdr w) <> Raise AssertionError.
Proof.
  intros Hf Ht. unfold run_fswitch_int.
  rewrite (bind_Ok _ _ _ _ _ (fswitch_check_Ok _ _ w Hf Ht)).
  apply nr_with_sdr; [discriminate|]. intros h b. unfold fswitch_body.
  repeat (apply nr_bind;
          [first [apply nr_set_rs | apply nr_set_fc | apply nr_set_gain
                 | apply nr_get_rs
                 | apply nr_py_truediv; discriminate
                 | apply nr_py_floordiv; discriminate
                 | apply nr_np_zeros; discriminate
                 | apply nr_fswitch_outer
                 | apply nr_call_get_window; discriminate
                 | apply nr_tidy]
          | intros ?]).
  apply nr_ret.
Qed.

(** C6. The check compares [t_int] with the double [2.0 * (1.0 /
    fswitch)].  Below that threshold the frequency-switched driver raises
    the assertion error and leaves the world as it found it: nothing is
    opened, tuned or read, and no result is returned.  From the threshold
    on that error is not raised; in particular it is not raised when
    [t_int >= 2 / fswitch] ([fswitch] a float). *)
Theorem fswitch_rejects_short_integration
    (num_samp nbins : Z) (gain rate fc fthrow t_int fswitch : Q)
    (sdr : option handle) (w : World) :
  ~ fswitch == 0 ->
  (float64 t_int < switch_threshold fswitch ->
     run_fswitch_int welch get_window num_samp nbins gain rate fc fthrow
       t_int fswitch sdr w = (w, Raise AssertionError)) /\
  (switch_threshold fswitch <= float64 t_int ->
     snd (run_fswitch_int welch get_window num_samp nbins gain rate fc
            fthrow t_int fswitch sdr w) <> Raise AssertionError) /\
  (float64 fswitch == fswitch -> 2 / fswitch <= t_int ->
     snd (run_fswitch_int welch get_window num_samp nbins gain rate fc
            fthrow t_int fswitch sdr w) <> Raise AssertionError).
Proof.
  intros Hf. split; [|split].
  - intros Ht. unfold run_fswitch_int.
    now rewrite (bind_Raise _ _ _ _ _ (fswitch_check_fails _ _ w Hf Ht)).
  - intros Ht. now apply fswitch_accepted_no_assertion.
  - intros E Ht. apply fswitch_accepted_no_assertion; [exact Hf|].
    now apply threshold_below.
Qed.

End SpectralRaises.

(* ================================================================== *)
(** ** Worlds along a run *)

Lemma tune3 {A} (h : handle) (rate fc gain : Q) (K : M A) (w : World) :
  (set_rs h rate ;; set_fc h fc ;; set_gain h gain ;; K) w
  = K (tuned rate fc gain w).
Proof.
  assert (E : forall e1 e2 e3 (l : list Event),
             ((l ++ [e1]) ++ [e2]) ++ [e3] = l ++ [e1; e2; e3])
    by (intros; rewrite <- !app_assoc; reflexivity).
  unfold bind, set_rs, set_fc, set_gain, log_event, tuned.
  cbn [trace present is_open dev_rs dev_fc dev_gain gpio4 feed clock
       disk_ok]. rewrite E. reflexivity.
Qed.

Lemma tune_get {A} (h : handle) (rate fc gain : Q) (K : Q -> M A)
    (w : World) :
  (set_rs h rate ;; set_fc h fc ;; set_gain h gain ;;
   rs <- get_rs h ;; K rs) w
  = K rate (tuned rate fc gain w).
Proof. rewrite tune3. reflexivity. Qed.

Lemma RtlSdr_Ok (w : World) :
  present w = true -> RtlSdr w = (opened w, Ok TheSdr).
Proof.
  intros Hp. unfold RtlSdr, opened, log_event.
  cbn [trace present is_open dev_rs dev_fc dev_gain gpio4 feed clock
       disk_ok]. rewrite Hp. reflexivity.
Qed.

Lemma get_sdr_Ok (rate fc gain : Q) (w : World) :
  present w = true ->
  get_sdr rate fc gain w = (tuned rate fc gain (opened w), Ok TheSdr).
Proof.
  intros Hp. unfold get_sdr.
  rewrite (bind_Ok _ _ _ _ _ (RtlSdr_Ok w Hp)).
  rewrite tune3. reflexivity.
Qed.

Lemma get_sdr_absent (rate fc gain : Q) (w : World) :
  present w = false ->
  get_sdr rate fc gain w = (w, Raise DeviceOpenError).
Proof. intros Hp. unfold get_sdr, bind, RtlSdr. now rewrite Hp. Qed.

Lemma close_eq (h : handle) (w : World) : close h w = (closed w, Ok tt).
Proof. reflexivity. Qed.

(** [with_sdr] when the caller supplies the handle. *)
Lemma with_sdr_supplied {A} rate fc gain (h : handle)
    (body : handle -> bool -> M A) (w : World) :
  with_sdr rate fc gain (Some h) body w = body h false w.
Proof. unfold with_sdr. now destruct (body h false w). Qed.

(** [with_sdr] when the driver opens the dongle itself. *)
Lemma with_sdr_owned {A} rate fc gain (body : handle -> bool -> M A)
    (w : World) :
  present w = true ->
  with_sdr rate fc gain None body w
  = (closed (fst (body TheSdr true (tuned rate fc gain (opened w)))),
     snd (body TheSdr true (tuned rate fc gain (opened w)))).
Proof.
  intros Hp. unfold with_sdr.
  rewrite (bind_Ok _ _ _ _ _ (get_sdr_Ok rate fc gain w Hp)).
  unfold ret. destruct (body TheSdr true _) as [w2 r]. reflexivity.
Qed.

Lemma with_sdr_absent {A} rate fc gain (body : handle -> bool -> M A)
    (w : World) :
  present w = false ->
  with_sdr rate fc gain None body w = (w, Raise DeviceOpenError).
Proof.
  intros Hp. unfold with_sdr.
  now rewrite (bind_Raise _ _ _ _ _ (get_sdr_absent rate fc gain w Hp)).
Qed.

(* ================================================================== *)
(** ** Counting the blocks a computation requests *)

Lemma count_reads_app (l1 l2 : list Event) :
  count_reads (l1 ++ l2) = (count_reads l1 + count_reads l2)%nat.
Proof. unfold count_reads. now rewrite filter_app, length_app. Qed.

Lemma count_reads_repeat (n : Z) (k : nat) :
  count_reads (repeat (EvRead n) k) = k.
Proof.
  induction k as [|k IH]; [reflexivity|].
  unfold count_reads in *. simpl. now rewrite IH.
Qed.

Lemma reads_log_event (e : Event) (w : World) :
  reads (log_event e w) = (reads w + if is_read e then 1 else 0)%nat.
Proof.
  unfold reads, log_event. cbn [trace]. rewrite count_reads_app.
  unfold count_reads. simpl. now destruct (is_read e).
Qed.







Lemma rl_logged {A} (e : Event) (a : A) (g : World -> World) :
  (forall w, trace (g w) = trace w) -> is_read e = false ->
  reads_le 0 (fun w => (log_event e (g w), Ok a)).
Proof.
  intros Hg He w. cbn [fst]. rewrite reads_log_event, He.
  unfold reads. rewrite Hg. lia.
Qed.

Lemma rl_set_rs h r : reads_le 0 (set_rs h r).
Proof. unfold set_rs. now apply rl_logged. Qed.
Lemma rl_set_gain h r : reads_le 0 (set_gain h r).
Proof. unfold set_gain. now apply rl_logged. Qed.
Lemma rl_get_rs h : reads_le 0 (get_rs h).
Proof. intros w. simpl. lia. Qed.







Lemma reads_tuned rate fc gain (w : World) :
  reads (tuned rate fc gain w) = reads w.
Proof.
  unfold reads, tuned. cbn [trace]. rewrite count_reads_app.
  unfold count_reads at 2. simpl. lia.
Qed.

Lemma reads_opened (w : World) : reads (opened w) = reads w.
Proof.
  unfold reads, opened. cbn [trace]. rewrite count_reads_app.
  unfold count_reads at 2. simpl. lia.
Qed.

Lemma reads_closed (w : World) : reads (closed w) = reads w.
Proof.
  unfold reads, closed. cbn [trace]. rewrite count_reads_app.
  unfold count_reads at 2. simpl. lia.
Qed.



Section SpectralReads.

Variable welch : SampleBlock -> Q -> Z -> Z -> list Q * list Q.
Variable get_window : Z -> list Q.





Lemma accepted_positive (t_int fswitch : Q) :
  0 < fswitch -> switch_threshold fswitch <= float64 t_int -> 0 < t_int.
Proof.
  intros Hf Ht. rewrite switch_threshold_eq in Ht.
  pose proof (float_div_pos 1 fswitch ltac:(lra) Hf) as P.
  destruct (Qlt_le_dec 0 t_int) as [H|H]; [exact H|].
  pose proof (float64_nonpos t_int H). lra.
Qed.


End SpectralReads.

(* ================================================================== *)
(** ** Reading blocks *)

Lemma read_samples_Ok (h : handle) (n : Z) (w : World) :
  (0 <= n)%Z -> (Z.to_nat n <= length (feed w))%nat ->
  read_samples h n w
  = (after_reads n 1 w, Ok (firstn (Z.to_nat n) (feed w))).
Proof.
  intros Hn Hl. unfold read_samples.
  apply Z.leb_le in Hn. apply Nat.leb_le in Hl. rewrite Hn, Hl.
  unfold after_reads, log_event.
  cbn [andb trace present is_open dev_rs dev_fc dev_gain gpio4 feed clock
       disk_ok repeat]. rewrite Nat.mul_1_l. reflexivity.
Qed.

Lemma read_samples_fails (h : handle) (n : Z) (w : World) :
  (length (feed w) < Z.to_nat n)%nat ->
  read_samples h n w = (log_event (EvRead n) w, Raise DeviceReadError).
Proof.
  intros Hl. unfold read_samples.
  apply Nat.leb_gt in Hl. rewrite Hl, andb_false_r. reflexivity.
Qed.

Lemma after_reads_S (n : Z) (k : nat) (w : World) :
  after_reads n k (after_reads n 1 w) = after_reads n (S k) w.
Proof.
  unfold after_reads.
  cbn [trace present is_open dev_rs dev_fc dev_gain gpio4 feed clock
       disk_ok]. rewrite skipn_skipn, <- app_assoc.
  replace (k * Z.to_nat n + 1 * Z.to_nat n)%nat
    with (S k * Z.to_nat n)%nat by lia.
  reflexivity.
Qed.

Lemma after_reads_0 (n : Z) (w : World) : after_reads n 0 w = w.
Proof.
  destruct w. unfold after_reads. cbn. now rewrite app_nil_r.
Qed.

Lemma reads_after_reads (n : Z) (k : nat) (w : World) :
  reads (after_reads n k w) = (reads w + k)%nat.
Proof.
  unfold reads, after_reads. cbn [trace].
  now rewrite count_reads_app, count_reads_repeat.
Qed.

Lemma feed_after_reads (n : Z) (k : nat) (w : World) :
  feed (after_reads n k w) = skipn (k * Z.to_nat n) (feed w).
Proof. reflexivity. Qed.

(** The stream when the hardware delivers: [b] blocks reach the callback
    and one more is delivered and dropped. *)
Lemma read_stream_Ok {S : Type} (h : handle) (b : nat)
    (cb : SampleBlock -> S -> S) (n : Z) (st : S) (w : World) :
  (0 <= n)%Z -> (Datatypes.S b * Z.to_nat n <= length (feed w))%nat ->
  read_stream h b cb n st w
  = (after_reads n (Datatypes.S b) w,
     Ok (fold_left (fun s iq => cb iq s)
                   (blocks (Z.to_nat n) b (feed w)) st)).
Proof.
  intros Hn. revert st w. induction b as [|b IH]; intros st w Hl.
  - cbn [read_stream blocks fold_left].
    now rewrite (bind_Ok _ _ _ _ _ (read_samples_Ok h n w Hn ltac:(lia))).
  - cbn [read_stream blocks fold_left].
    rewrite (bind_Ok _ _ _ _ _ (read_samples_Ok h n w Hn ltac:(lia))).
    rewrite IH.
    + rewrite after_reads_S, feed_after_reads, Nat.mul_1_l. reflexivity.
    + rewrite feed_after_reads, length_skipn. lia.
Qed.

(* ================================================================== *)
(** ** The total-power accumulator *)

Lemma fold_Qplus (l : list Q) (q0 : Q) :
  fold_left Qplus l q0 == q0 + Qsum l.
Proof.
  revert q0. induction l as [|x l IH]; intros q0; simpl.
  - ring.
  - rewrite IH. ring.
Qed.

Lemma p_tot_fold_np (bl : list SampleBlock) (x : npfloat) (c : Z) (q0 : Q) :
  x = Fin q0 ->
  fold_left (fun s iq => p_tot_callback iq s) bl (NpFloat x, c)
  = (NpFloat (Fin (fold_left Qplus (powers bl) q0)),
     (c + Z.of_nat (length bl))%Z).
Proof.
  revert x c q0. induction bl as [|iq bl IH]; intros x c q0 ->.
  - cbn. now rewrite Z.add_0_r.
  - cbn [fold_left powers map length]. unfold p_tot_callback at 2.
    cbn [to_np np_add]. rewrite (IH _ _ (q0 + block_power (dc_compensate iq)))
      by reflexivity.
    f_equal. lia.
Qed.

Lemma p_tot_fold (bl : list SampleBlock) :
  fold_left (fun s iq => p_tot_callback iq s) bl (PyFloat 0, 0%Z)
  = match bl with
    | [] => (PyFloat 0, 0%Z)
    | _ => (NpFloat (Fin (fold_left Qplus (powers bl) 0)),
            Z.of_nat (length bl))
    end.
Proof.
  destruct bl as [|iq bl]; [reflexivity|].
  cbn [fold_left]. unfold p_tot_callback at 2. cbn [to_np np_add].
  rewrite (p_tot_fold_np bl _ _ (0 + block_power (dc_compensate iq)))
    by reflexivity.
  cbn [powers map fold_left length]. f_equal. lia.
Qed.

Lemma length_blocks (n k : nat) (fd : list complex) :
  length (blocks n k fd) = k.
Proof.
  revert fd. induction k as [|k IH]; intros fd; simpl; [|rewrite IH];
    reflexivity.
Qed.

Lemma p_tot_fold_blocks (n k : nat) (fd : list complex) :
  fold_left (fun s iq => p_tot_callback iq s) (blocks n k fd)
            (PyFloat 0, 0%Z)
  = match k with
    | O => (PyFloat 0, 0%Z)
    | _ => (NpFloat (Fin (fold_left Qplus (powers (blocks n k fd)) 0)),
            Z.of_nat k)
    end.
Proof.
  rewrite p_tot_fold. destruct k as [|k]; [reflexivity|].
  cbn [blocks]. f_equal. f_equal. cbn [length]. now rewrite length_blocks.
Qed.

Lemma inject_Z_nonzero (z : Z) : z <> 0%Z -> Qis_zero (inject_Z z) = false.
Proof.
  intros H. unfold Qis_zero. destruct (Qeq_bool _ 0) eqn:E; [|reflexivity].
  apply Qeq_bool_iff in E. unfold Qeq in E.
  cbn [inject_Z Qnum Qden] in E. lia.
Qed.

Lemma with_sdr_Ok {A} rate fc gain sdr (body : handle -> bool -> M A)
    (w w1 : World) (r : outcome A) :
  (sdr = None -> present w = true) ->
  body (match sdr with None => TheSdr | Some h => h end)
       (match sdr with None => true | Some _ => false end)
       (entered rate fc gain sdr w) = (w1, r) ->
  with_sdr rate fc gain sdr body w = (left_raising sdr w1, r).
Proof.
  intros Hp Hb. destruct sdr as [h|].
  - rewrite with_sdr_supplied. exact Hb.
  - rewrite with_sdr_owned by auto. cbn [entered] in Hb. now rewrite Hb.
Qed.

Lemma tidy_eq (h : handle) (own : bool) (w : World) :
  tidy h own w = ((if own then closed w else w), Ok tt).
Proof. now destruct own. Qed.

(** The run of the total-power driver when the hardware delivers. *)
Lemma run_total_power_int_eq (num_samp : Z) (gain rate fc t_int : Q)
    (sdr : option handle) (w : World) :
  let w0 := entered rate fc gain sdr w in
  let N := total_samples (rate_in_use rate sdr w) t_int in
  let cnt := Z.to_nat (N / num_samp) in
  (sdr = None -> present w = true) ->
  (1 <= num_samp)%Z -> ~ rate == 0 ->
  (S cnt * Z.to_nat num_samp <= length (feed w))%nat ->
  run_total_power_int num_samp gain rate fc t_int sdr w
  = match cnt with
    | O => (left_raising sdr (after_reads num_samp 1 w0),
            Raise ZeroDivisionError)
    | _ => (left_normally sdr (after_reads num_samp (S cnt) w0),
            Ok (NpFloat
                  (Fin (fold_left Qplus
                          (powers (blocks (Z.to_nat num_samp) cnt (feed w)))
                          0
                        / inject_Z (num_samp * Z.of_nat cnt)))))
    end.
Proof.
  intros w0 N cnt Hp Hs Hr Hl. unfold run_total_power_int.
  assert (Hrs : dev_rs w0 = rate_in_use rate sdr w)
    by (destruct sdr; reflexivity).
  assert (Hfd : feed w0 = feed w) by (destruct sdr; reflexivity).
  set (h := match sdr with None => TheSdr | Some h => h end).
  set (own := match sdr with None => true | Some _ => false end).
  assert (Hs0 : num_samp <> 0%Z) by lia.
  assert (Hbody : total_power_body num_samp rate t_int h own w0
    = match cnt with
      | O => (after_reads num_samp 1 w0, Raise ZeroDivisionError)
      | _ => ((if own then closed (after_reads num_samp (S cnt) w0)
               else after_reads num_samp (S cnt) w0),
              Ok (NpFloat
                    (Fin (fold_left Qplus
                            (powers (blocks (Z.to_nat num_samp) cnt (feed w)))
                            0
                          / inject_Z (num_samp * Z.of_nat cnt)))))
      end).
  { unfold total_power_body.
    unfold get_rs at 1. unfold bind at 1. rewrite Hrs. fold N.
    rewrite (bind_Ok _ _ _ _ _ (py_int_truediv_Ok N num_samp w0 Hs0)).
    rewrite (bind_Ok _ _ _ _ _ (py_int_truediv_Ok N num_samp w0 Hs0)).
    unfold read_samples_async.
    rewrite call_budget_floor by lia. fold cnt.
    rewrite (bind_Ok _ _ _ _ _
               (read_stream_Ok h cnt p_tot_callback num_samp _ w0
                  ltac:(lia) ltac:(rewrite Hfd; exact Hl))).
    rewrite p_tot_fold_blocks, Hfd.
    destruct cnt as [|c] eqn:Ec.
    - cbv iota beta.
      rewrite (bind_Ok _ _ _ _ _ (py_truediv_Ok _ rate _ Hr)).
      unfold pynum_div_int. rewrite Z.mul_0_r. cbn [Z.eqb].
      reflexivity.
    - cbv iota beta.
      rewrite (bind_Ok _ _ _ _ _ (py_truediv_Ok _ rate _ Hr)).
      unfold pynum_div_int. cbn [np_div].
      rewrite inject_Z_nonzero by lia.
      unfold bind at 1. unfold ret at 1.
      rewrite (bind_Ok _ _ _ _ _ (tidy_eq h own _)). reflexivity. }
  destruct cnt as [|c];
    rewrite (with_sdr_Ok rate fc gain sdr _ w _ _ Hp Hbody);
    destruct sdr; reflexivity.
Qed.

(* ================================================================== *)
(** ** Arrays: [+=] and [fftshift] *)

Lemma length_vadd (a b : list Q) :
  length b = length a -> length (vadd a b) = length a.
Proof.
  intros H. unfold vadd. rewrite length_map, length_combine. lia.
Qed.

Lemma nth_vadd (a b : list Q) (k : nat) :
  length b = length a -> (k < length a)%nat ->
  nth k (vadd a b) 0 = nth k a 0 + nth k b 0.
Proof.
  revert b k. induction a as [|x a IH]; intros b k H Hk.
  - simpl in Hk. lia.
  - destruct b as [|y b]; [discriminate|].
    destruct k as [|k]; [reflexivity|].
    cbn [vadd combine map nth]. apply IH.
    + simpl in H. lia.
    + simpl in Hk. lia.
Qed.

Lemma np_iadd_Ok (a b : list Q) (w : World) :
  length b = length a -> np_iadd a b w = (w, Ok (vadd a b)).
Proof.
  intros H. unfold np_iadd. apply Nat.eqb_eq in H. now rewrite H.
Qed.

Lemma fftshift_map {A B : Type} (f : A -> B) (x : list A) :
  fftshift (map f x) = map f (fftshift x).
Proof.
  unfold fftshift. now rewrite length_map, map_app, skipn_map, firstn_map.
Qed.

Lemma length_fftshift {A : Type} (x : list A) :
  length (fftshift x) = length x.
Proof.
  unfold fftshift. rewrite length_app, length_skipn, length_firstn.
  pose proof (Nat.Div0.div_le_upper_bound (length x) 2 (length x)). lia.
Qed.

(** [fftshift] moves bin [k] to position [(k + n/2) mod n]. *)
Lemma nth_fftshift {A : Type} (x : list A) (d : A) (k : nat) :
  (k < length x)%nat ->
  nth ((k + length x / 2) mod length x) (fftshift x) d = nth k x d.
Proof.
  intros Hk. unfold fftshift.
  set (n := length x) in *. set (s := (n / 2)%nat).
  assert (Hs : (s <= n)%nat) by (apply Nat.Div0.div_le_upper_bound; lia).
  assert (Hlen : length (skipn (n - s) x) = s)
    by (rewrite length_skipn; fold n; lia).
  destruct (Nat.lt_ge_cases k (n - s)) as [Hlt|Hge].
  - rewrite Nat.mod_small by lia.
    rewrite app_nth2 by lia. rewrite Hlen.
    replace (k + s - s)%nat with k by lia.
    apply nth_firstn_lt || (rewrite nth_firstn;
      destruct (k <? n - s)%nat eqn:E;
      [reflexivity | apply Nat.ltb_ge in E; lia]).
  - assert (E : ((k + s) mod n = k + s - n)%nat).
    { symmetry. apply (Nat.mod_unique (k + s) n 1); lia. }
    rewrite E. rewrite app_nth1 by lia.
    rewrite nth_skipn. f_equal. lia.
Qed.

(* ================================================================== *)
(** ** The spectral accumulator *)

Section SpectrumRun.

Variable welch : SampleBlock -> Q -> Z -> Z -> list Q * list Q.
Variable get_window : Z -> list Q.

(** The contract of the periodogram estimator: [nfft] frequencies and
    [nfft] powers. *)
Hypothesis welch_shape : forall iq fs nperseg nfft,
  length (fst (welch iq fs nperseg nfft)) = Z.to_nat nfft /\
  length (snd (welch iq fs nperseg nfft)) = Z.to_nat nfft.

Variables (num_samp nbins nperseg : Z) (rate : Q).

Local Notation "'pg'" := (pgram welch rate nperseg nbins).
Local Notation "'acc'" := (accumulate welch rate nperseg nbins).
Local Notation "'lax'" := (last_axis welch rate nperseg nbins).

Lemma length_pgram (iq : SampleBlock) : length (pg iq) = Z.to_nat nbins.
Proof. unfold pgram. apply welch_shape. Qed.

Lemma length_accumulate (bl : list SampleBlock) (p0 : list Q) :
  length p0 = Z.to_nat nbins -> length (acc bl p0) = Z.to_nat nbins.
Proof.
  revert p0. induction bl as [|iq bl IH]; intros p0 H; [exact H|].
  cbn [accumulate fold_left]. apply IH.
  rewrite length_vadd; [exact H | now rewrite length_pgram].
Qed.

Lemma length_last_axis (bl : list SampleBlock) (f0 : list Q) :
  length f0 = Z.to_nat nbins -> length (lax bl f0) = Z.to_nat nbins.
Proof.
  revert f0. induction bl as [|iq bl IH]; intros f0 H; [exact H|].
  cbn [last_axis fold_left]. apply IH. unfold faxis. apply welch_shape.
Qed.

Lemma nth_accumulate (bl : list SampleBlock) (p0 : list Q) (k : nat) :
  length p0 = Z.to_nat nbins -> (k < Z.to_nat nbins)%nat ->
  nth k (acc bl p0) 0
  == nth k p0 0 + bin_sum welch rate nperseg nbins k bl.
Proof.
  revert p0. induction bl as [|iq bl IH]; intros p0 H Hk.
  - unfold bin_sum, accumulate. cbn [fold_left map Qsum fold_right]. ring.
  - cbn [accumulate fold_left]. fold (acc bl (vadd p0 (pg iq))).
    rewrite IH; [| rewrite length_vadd; [exact H | now rewrite length_pgram]
                 | exact Hk].
    rewrite nth_vadd by (rewrite ?length_pgram; lia).
    unfold bin_sum, Qsum. cbn [map fold_right]. ring.
Qed.

Lemma last_axis_last (bl : list SampleBlock) (f0 : list Q) (iq : SampleBlock) :
  lax (bl ++ [iq]) f0 = faxis welch rate nperseg nbins iq.
Proof. unfold last_axis. now rewrite fold_left_app. Qed.

Lemma spectrum_step_Ok (h : handle) (f0 p0 : list Q) (c0 : Z) (w : World) :
  (0 <= num_samp)%Z -> (Z.to_nat num_samp <= length (feed w))%nat ->
  length p0 = Z.to_nat nbins ->
  spectrum_step welch h num_samp nbins nperseg rate (f0, p0, c0) w
  = (after_reads num_samp 1 w,
     Ok (faxis welch rate nperseg nbins (firstn (Z.to_nat num_samp) (feed w)),
         vadd p0 (pg (firstn (Z.to_nat num_samp) (feed w))),
         (c0 + 1)%Z)).
Proof.
  intros Hn Hl Hp. unfold spectrum_step.
  rewrite (bind_Ok _ _ _ _ _ (read_samples_Ok h num_samp w Hn Hl)).
  unfold faxis, pgram.
  pose proof (welch_shape (dc_compensate (firstn (Z.to_nat num_samp) (feed w)))
                rate nperseg nbins) as [_ Hs].
  destruct (welch _ rate nperseg nbins) as [fr px]. cbn [fst snd] in *.
  rewrite (bind_Ok _ _ _ _ _ (np_iadd_Ok p0 px _ ltac:(lia))).
  reflexivity.
Qed.

Lemma spectrum_loop_Ok (h : handle) (n : nat) (f0 p0 : list Q) (c0 : Z)
    (w : World) :
  (0 <= num_samp)%Z -> (n * Z.to_nat num_samp <= length (feed w))%nat ->
  length p0 = Z.to_nat nbins ->
  spectrum_loop welch h num_samp nbins nperseg rate n (f0, p0, c0) w
  = (after_reads num_samp n w,
     Ok (lax (blocks (Z.to_nat num_samp) n (feed w)) f0,
         acc (blocks (Z.to_nat num_samp) n (feed w)) p0,
         (c0 + Z.of_nat n)%Z)).
Proof.
  intros Hn. revert f0 p0 c0 w.
  induction n as [|n IH]; intros f0 p0 c0 w Hl Hp.
  - cbn [spectrum_loop blocks last_axis accumulate fold_left]. unfold ret.
    now rewrite after_reads_0, Z.add_0_r.
  - cbn [spectrum_loop].
    rewrite (bind_Ok _ _ _ _ _
               (spectrum_step_Ok h f0 p0 c0 w Hn ltac:(lia) Hp)).
    rewrite IH.
    + rewrite after_reads_S, feed_after_reads, Nat.mul_1_l.
      cbn [blocks last_axis accumulate fold_left].
      do 3 f_equal. lia.
    + rewrite feed_after_reads, length_skipn. lia.
    + rewrite length_vadd; [exact Hp | now rewrite length_pgram].
Qed.

End SpectrumRun.

(* ================================================================== *)
(** ** Finalizing a spectrum *)

Lemma nth_map_lt {A B : Type} (f : A -> B) (l : list A) (d : A) (d' : B)
    (k : nat) :
  (k < length l)%nat -> nth k (map f l) d' = f (nth k l d).
Proof.
  intros H. rewrite (nth_indep _ d' (f d)) by (rewrite length_map; exact H).
  apply map_nth.
Qed.

Lemma window_correction_Fin (win : list Q) :
  ~ Qsum (map (fun x => x * x) win) == 0 ->
  window_correction win = Fin (window_factor win).
Proof.
  intros H. unfold window_correction, np_div, Qis_zero.
  destruct (Qeq_bool _ 0) eqn:E; [|reflexivity].
  apply Qeq_bool_iff in E. contradiction.
Qed.

Lemma Qis_zero_false (q : Q) : ~ q == 0 -> Qis_zero q = false.
Proof.
  intros H. unfold Qis_zero. destruct (Qeq_bool q 0) eqn:E; [|reflexivity].
  apply Qeq_bool_iff in E. contradiction.
Qed.

Lemma finalize_finalized (freqs p_xx : list Q) (cnt : Z) (center : Q)
    (win : list Q) (rate : Q) (total : nat -> Q) :
  length freqs = length p_xx ->
  cnt <> 0%Z -> ~ rate == 0 -> ~ Qsum (map (fun x => x * x) win) == 0 ->
  (forall k, (k < length p_xx)%nat -> nth k p_xx 0 == total k) ->
  finalized (length p_xx) (fun k => nth k freqs 0) total cnt center win rate
            (finalize freqs p_xx cnt center win rate).
Proof.
  intros Hlen Hc Hr Hw Ht. unfold finalized, finalize. cbn [fst snd].
  split; [now rewrite length_map, length_fftshift|].
  split.
  { unfold to_psd, np_idiv_count.
    now rewrite length_map, length_fftshift, length_map. }
  intros k Hk. split.
  - rewrite (nth_map_lt _ _ 0).
    + rewrite <- Hlen. now rewrite nth_fftshift by lia.
    + rewrite length_fftshift, Hlen. apply Nat.mod_upper_bound. lia.
  - unfold to_psd, np_idiv_count.
    rewrite fftshift_map, map_map.
    rewrite (nth_map_lt _ _ 0).
    + rewrite nth_fftshift by exact Hk.
      rewrite window_correction_Fin by exact Hw.
      unfold np_div at 2. rewrite inject_Z_nonzero by exact Hc.
      cbn [np_mul]. unfold np_div. rewrite Qis_zero_false by exact Hr.
      cbn [np_eq]. rewrite (Ht k Hk).
      assert (Hc' : ~ inject_Z cnt == 0).
      { intros E. unfold Qeq in E. cbn [inject_Z Qnum Qden] in E. lia. }
      field. split; assumption.
    + rewrite length_fftshift. apply Nat.mod_upper_bound. lia.
Qed.

Lemma choose_nperseg_pos (nbins : Z) :
  (1 <= nbins)%Z -> (1 <= choose_nperseg nbins)%Z.
Proof. intros H. unfold choose_nperseg. destruct (nbins <? 256)%Z; lia. Qed.

Lemma call_get_window_Ok (get_window : Z -> list Q) (n : Z) (w : World) :
  (1 <= n)%Z -> call_get_window get_window n w = (w, Ok (get_window n)).
Proof.
  intros H. unfold call_get_window.
  destruct (Z.leb_spec n 0); [lia | reflexivity].
Qed.

Lemma call_get_window_fails (get_window : Z -> list Q) (n : Z) (w : World) :
  (n <= 0)%Z -> call_get_window get_window n w = (w, Raise ValueError).
Proof.
  intros H. unfold call_get_window.
  destruct (Z.leb_spec n 0); [reflexivity | lia].
Qed.

(** A window with a nonzero sum of squares has a length: with the shape
    of [get_window], [nbins] is positive. *)
Lemma window_has_length (get_window : Z -> list Q) (nbins : Z) :
  (forall n, length (get_window n) = Z.to_nat n) ->
  ~ Qsum (map (fun x => x * x) (get_window (choose_nperseg nbins))) == 0 ->
  (0 <= nbins)%Z -> (1 <= nbins)%Z.
Proof.
  intros Hshape Hw Hb.
  destruct (Z.eq_dec nbins 0) as [E|E]; [|lia].
  exfalso. apply Hw. subst nbins.
  pose proof (Hshape (choose_nperseg 0)) as L.
  change (choose_nperseg 0) with 0%Z in *.
  destruct (get_window 0%Z); [reflexivity | discriminate L].
Qed.

Section SpectrumResult.

Variable welch : SampleBlock -> Q -> Z -> Z -> list Q * list Q.
Variable get_window : Z -> list Q.

Hypothesis welch_shape : forall iq fs nperseg nfft,
  length (fst (welch iq fs nperseg nfft)) = Z.to_nat nfft /\
  length (snd (welch iq fs nperseg nfft)) = Z.to_nat nfft.

(** The run of the spectral driver when the hardware delivers. *)
Lemma run_spectrum_int_eq (num_samp nbins : Z) (gain rate fc t_int : Q)
    (sdr : option handle) (w : World) :
  let nperseg := choose_nperseg nbins in
  let N := total_samples rate t_int in
  let num_loops := Z.to_nat (py_int (int_truediv N num_samp) + 1) in
  let bl := blocks (Z.to_nat num_samp) num_loops (feed w) in
  let zeros := repeat 0 (Z.to_nat nbins) in
  (sdr = None -> present w = true) ->
  (1 <= num_samp)%Z -> (1 <= nbins)%Z -> ~ rate == 0 ->
  (num_loops * Z.to_nat num_samp <= length (feed w))%nat ->
  run_spectrum_int welch get_window num_samp nbins gain rate fc t_int sdr w
  = (left_normally sdr
       (after_reads num_samp num_loops
          (tuned rate fc gain (entered rate fc gain sdr w))),
     Ok (finalize (last_axis welch rate nperseg nbins bl zeros)
                  (accumulate welch rate nperseg nbins bl zeros)
                  (Z.of_nat num_loops) fc (get_window nperseg) rate)).
Proof.
  intros nperseg N num_loops bl zeros Hp Hs Hb Hr Hl.
  unfold run_spectrum_int. fold nperseg.
  set (w0 := entered rate fc gain sdr w).
  assert (Hfd : feed (tuned rate fc gain w0) = feed w)
    by (destruct sdr; reflexivity).
  set (h := match sdr with None => TheSdr | Some h => h end).
  set (own := match sdr with None => true | Some _ => false end).
  assert (Hbody :
    spectrum_body welch get_window num_samp nbins nperseg gain rate fc t_int
      h own w0
    = ((if own
        then closed (after_reads num_samp num_loops (tuned rate fc gain w0))
        else after_reads num_samp num_loops (tuned rate fc gain w0)),
       Ok (finalize (last_axis welch rate nperseg nbins bl zeros)
                    (accumulate welch rate nperseg nbins bl zeros)
                    (Z.of_nat num_loops) fc (get_window nperseg) rate))).
  { unfold spectrum_body. rewrite tune_get. fold N.
    rewrite (bind_Ok _ _ _ _ _
               (py_int_truediv_Ok N num_samp _ ltac:(lia))).
    rewrite (bind_Ok _ _ _ _ _ (np_zeros_Ok nbins _ ltac:(lia))).
    rewrite (bind_Ok _ _ _ _ _ (np_zeros_Ok nbins _ ltac:(lia))).
    fold num_loops zeros.
    rewrite (bind_Ok _ _ _ _ _
               (spectrum_loop_Ok welch welch_shape num_samp nbins nperseg
                  rate h num_loops zeros zeros 0%Z _ ltac:(lia)
                  ltac:(rewrite Hfd; exact Hl)
                  ltac:(apply repeat_length))).
    rewrite Hfd. fold bl. cbv iota beta.
    rewrite (bind_Ok _ _ _ _ _ (py_truediv_Ok _ rate _ Hr)).
    rewrite (bind_Ok _ _ _ _ _
               (call_get_window_Ok get_window nperseg _
                  (choose_nperseg_pos nbins Hb))).
    rewrite (bind_Ok _ _ _ _ _ (tidy_eq h own _)).
    rewrite Z.add_0_l. reflexivity. }
  rewrite (with_sdr_Ok rate fc gain sdr _ w _ _ Hp Hbody).
  destruct sdr; reflexivity.
Qed.

End SpectrumResult.

(* ================================================================== *)
(** ** The dwells of the frequency-switched driver *)

Lemma set_fc_eq (h : handle) (f : Q) (w : World) :
  set_fc h f w = (retuned f w, Ok tt).
Proof. reflexivity. Qed.

Lemma tick_next (i : Z) :
  ((i + 1) mod 2 =? 0)%Z = negb (i mod 2 =? 0)%Z.
Proof.
  destruct (Z.eqb_spec ((i + 1) mod 2) 0), (Z.eqb_spec (i mod 2) 0);
    cbn [negb]; try reflexivity; exfalso;
    Z.div_mod_to_equations; lia.
Qed.

Lemma tick_of_nat (j : nat) : (Z.of_nat j mod 2 =? 0)%Z = Nat.even j.
Proof.
  induction j as [|j IH]; [reflexivity|].
  rewrite Nat2Z.inj_succ. unfold Z.succ. rewrite tick_next, IH.
  now rewrite Nat.even_succ, <- Nat.negb_even.
Qed.

Lemma feed_after_dwells num_samp nl fc fthrow n tick w :
  feed (after_dwells num_samp nl fc fthrow n tick w)
  = skipn (n * (nl * Z.to_nat num_samp)) (feed w).
Proof.
  revert tick w. induction n as [|n IH]; intros tick w; [reflexivity|].
  cbn [after_dwells]. rewrite IH, feed_after_reads.
  cbn [feed retuned]. rewrite skipn_skipn. f_equal. lia.
Qed.

Lemma trace_after_dwells num_samp nl fc fthrow n (i : nat) w :
  trace (after_dwells num_samp nl fc fthrow n (Nat.even i) w)
  = trace w ++ dwell_events num_samp nl fc fthrow i n.
Proof.
  revert i w. induction n as [|n IH]; intros i w.
  - unfold dwell_events. cbn. now rewrite app_nil_r.
  - cbn [after_dwells].
    replace (negb (Nat.even i)) with (Nat.even (S i))
      by (now rewrite Nat.even_succ, <- Nat.negb_even).
    rewrite IH. unfold dwell_events. cbn [seq flat_map after_reads trace
      retuned]. rewrite <- !app_assoc. reflexivity.
Qed.

Section FswitchRun.

Variable welch : SampleBlock -> Q -> Z -> Z -> list Q * list Q.
Variable get_window : Z -> list Q.

Hypothesis welch_shape : forall iq fs nperseg nfft,
  length (fst (welch iq fs nperseg nfft)) = Z.to_nat nfft /\
  length (snd (welch iq fs nperseg nfft)) = Z.to_nat nfft.

Variables (num_samp nbins nperseg : Z) (rate : Q).

Local Notation "'fsa'" := (fs_after welch rate nperseg nbins).

Lemma fs_after_nil (st : FsState) : fsa [] [] st = st.
Proof.
  destruct st. unfold fs_after. cbn. now rewrite !Z.add_0_r.
Qed.

Lemma fs_after_compose (on1 off1 on2 off2 : list SampleBlock)
    (st : FsState) :
  fsa on2 off2 (fsa on1 off1 st) = fsa (on1 ++ on2) (off1 ++ off2) st.
Proof.
  unfold fs_after, last_axis, accumulate.
  cbn [freqs_on freqs_off p_xx_on p_xx_off cntOn cntOff].
  rewrite !fold_left_app, !length_app, !Nat2Z.inj_add, !Z.add_assoc.
  reflexivity.
Qed.

Lemma fswitch_step_Ok (h : handle) (tick : bool) (st : FsState) (w : World) :
  (0 <= num_samp)%Z -> (Z.to_nat num_samp <= length (feed w))%nat ->
  length (p_xx_on st) = Z.to_nat nbins ->
  length (p_xx_off st) = Z.to_nat nbins ->
  fswitch_step welch h num_samp nbins nperseg rate tick st w
  = (after_reads num_samp 1 w,
     Ok (if tick
         then fsa [firstn (Z.to_nat num_samp) (feed w)] [] st
         else fsa [] [firstn (Z.to_nat num_samp) (feed w)] st)).
Proof.
  intros Hn Hl Hon Hoff. unfold fswitch_step.
  rewrite (bind_Ok _ _ _ _ _ (read_samples_Ok h num_samp w Hn Hl)).
  unfold fs_after, last_axis, accumulate, faxis, pgram.
  cbn [fold_left length Z.of_nat].
  pose proof (welch_shape (dc_compensate (firstn (Z.to_nat num_samp) (feed w)))
                rate nperseg nbins) as [_ Hs].
  destruct (welch _ rate nperseg nbins) as [fr px]. cbn [fst snd] in *.
  destruct tick.
  - rewrite (bind_Ok _ _ _ _ _ (np_iadd_Ok (p_xx_on st) px _ ltac:(lia))).
    unfold ret. now rewrite Z.add_0_r.
  - rewrite (bind_Ok _ _ _ _ _ (np_iadd_Ok (p_xx_off st) px _ ltac:(lia))).
    unfold ret. now rewrite Z.add_0_r.
Qed.

Lemma length_fs_after (on off : list SampleBlock) (st : FsState) :
  length (p_xx_on st) = Z.to_nat nbins ->
  length (p_xx_off st) = Z.to_nat nbins ->
  length (p_xx_on (fsa on off st)) = Z.to_nat nbins /\
  length (p_xx_off (fsa on off st)) = Z.to_nat nbins.
Proof.
  intros Hon Hoff. unfold fs_after. cbn [p_xx_on p_xx_off].
  split; apply (length_accumulate welch welch_shape); assumption.
Qed.

Lemma fswitch_inner_Ok (h : handle) (tick : bool) (n : nat) (st : FsState)
    (w : World) :
  (0 <= num_samp)%Z -> (n * Z.to_nat num_samp <= length (feed w))%nat ->
  length (p_xx_on st) = Z.to_nat nbins ->
  length (p_xx_off st) = Z.to_nat nbins ->
  fswitch_inner welch h num_samp nbins nperseg rate tick n st w
  = (after_reads num_samp n w,
     Ok (if tick
         then fsa (blocks (Z.to_nat num_samp) n (feed w)) [] st
         else fsa [] (blocks (Z.to_nat num_samp) n (feed w)) st)).
Proof.
  intros Hn. revert st w.
  induction n as [|n IH]; intros st w Hl Hon Hoff.
  - cbn [fswitch_inner blocks]. unfold ret.
    rewrite after_reads_0, fs_after_nil. now destruct tick.
  - cbn [fswitch_inner].
    rewrite (bind_Ok _ _ _ _ _
               (fswitch_step_Ok h tick st w Hn ltac:(lia) Hon Hoff)).
    rewrite IH.
    + rewrite after_reads_S, feed_after_reads, Nat.mul_1_l.
      cbn [blocks]. destruct tick; now rewrite fs_after_compose.
    + rewrite feed_after_reads, length_skipn. lia.
    + destruct tick; now apply length_fs_after.
    + destruct tick; now apply length_fs_after.
Qed.

Lemma fswitch_outer_Ok (h : handle) (fc fthrow : Q) (num_loops : Z)
    (n : nat) (i : Z) (st : FsState) (w : World) :
  let nl := Z.to_nat num_loops in
  let ns := Z.to_nat num_samp in
  let tick := (i mod 2 =? 0)%Z in
  (0 <= num_samp)%Z -> (n * (nl * ns) <= length (feed w))%nat ->
  length (p_xx_on st) = Z.to_nat nbins ->
  length (p_xx_off st) = Z.to_nat nbins ->
  fswitch_outer welch h num_samp nbins nperseg rate fc fthrow num_loops
                n i st w
  = (after_dwells num_samp nl fc fthrow n tick w,
     Ok (fsa (state_blocks ns nl n tick (feed w))
             (state_blocks ns nl n (negb tick) (feed w)) st)).
Proof.
  intros nl ns tick Hn. subst tick. revert i st w.
  induction n as [|n IH]; intros i st w Hl Hon Hoff.
  - cbn [fswitch_outer after_dwells state_blocks]. unfold ret.
    now rewrite fs_after_nil.
  - cbn [fswitch_outer].
    set (tick := (i mod 2 =? 0)%Z).
    assert (Hset : (if tick then set_fc h fc else set_fc h fthrow) w
                   = (retuned (if tick then fc else fthrow) w, Ok tt))
      by (destruct tick; reflexivity).
    assert (Hdwell :
      fswitch_dwell welch h num_samp nbins nperseg rate fc fthrow num_loops
                    i st w
      = (after_reads num_samp nl (retuned (if tick then fc else fthrow) w),
         Ok (if tick
             then fsa (blocks ns nl (feed w)) [] st
             else fsa [] (blocks ns nl (feed w)) st))).
    { unfold fswitch_dwell. cbv zeta. fold tick.
      rewrite (bind_Ok _ _ _ _ _ Hset).
      assert (Hfeed : (nl * Z.to_nat num_samp
                       <= length (feed (retuned (if tick then fc else fthrow)
                                               w)))%nat)
        by (cbn [feed retuned]; fold ns; lia).
      exact (fswitch_inner_Ok h tick nl st
               (retuned (if tick then fc else fthrow) w) Hn Hfeed Hon Hoff). }
    rewrite (bind_Ok _ _ _ _ _ Hdwell).
    rewrite IH.
    + rewrite tick_next. fold tick. cbn [after_dwells state_blocks].
      rewrite feed_after_reads. cbn [feed retuned]. fold ns.
      rewrite negb_involutive.
      destruct tick; cbn [negb]; rewrite fs_after_compose;
        rewrite ?app_nil_r; reflexivity.
    + rewrite feed_after_reads, length_skipn. cbn [feed retuned].
      fold ns. lia.
    + destruct tick; now apply length_fs_after.
    + destruct tick; now apply length_fs_after.
Qed.

End FswitchRun.

Section FswitchResult.

Variable welch : SampleBlock -> Q -> Z -> Z -> list Q * list Q.
Variable get_window : Z -> list Q.

Hypothesis welch_shape : forall iq fs nperseg nfft,
  length (fst (welch iq fs nperseg nfft)) = Z.to_nat nfft /\
  length (snd (welch iq fs nperseg nfft)) = Z.to_nat nfft.

(** The run of the frequency-switched driver when the configuration is
    accepted and the hardware delivers. *)
Lemma run_fswitch_int_eq (num_samp nbins : Z)
    (gain rate fc fthrow t_int fswitch : Q) (sdr : option handle)
    (w : World) :
  let nperseg := choose_nperseg nbins in
  let N := total_samples rate t_int in
  let N_dwell := dwell_samples rate fswitch in
  let nl := Z.to_nat (N_dwell / num_samp) in
  let nd := Z.to_nat (N / N_dwell) in
  let ns := Z.to_nat num_samp in
  let zeros := repeat 0 (Z.to_nat nbins) in
  let st := fs_after welch rate nperseg nbins
              (state_blocks ns nl nd true (feed w))
              (state_blocks ns nl nd false (feed w))
              (mkFs zeros zeros zeros zeros 0 0) in
  let win := get_window nperseg in
  let r_on := finalize (freqs_on st) (p_xx_on st) (cntOn st) fc win rate in
  let r_off :=
    finalize (freqs_off st) (p_xx_off st) (cntOff st) fthrow win rate in
  (sdr = None -> present w = true) ->
  ~ fswitch == 0 -> switch_threshold fswitch <= float64 t_int ->
  (1 <= num_samp)%Z -> (1 <= nbins)%Z -> ~ rate == 0 -> N_dwell <> 0%Z ->
  (nd * (nl * ns) <= length (feed w))%nat ->
  run_fswitch_int welch get_window num_samp nbins gain rate fc fthrow t_int
                  fswitch sdr w
  = (left_normally sdr
       (after_dwells num_samp nl fc fthrow nd true
          (tuned rate fc gain (entered rate fc gain sdr w))),
     Ok (fst r_on, snd r_on, fst r_off, snd r_off)).
Proof.
  intros nperseg N N_dwell nl nd ns zeros st win r_on r_off
         Hp Hf Ht Hs Hb Hr HD Hl.
  unfold run_fswitch_int. fold nperseg.
  rewrite (bind_Ok _ _ _ _ _ (fswitch_check_Ok _ _ w Hf Ht)).
  set (w0 := entered rate fc gain sdr w).
  assert (Hfd : feed (tuned rate fc gain w0) = feed w)
    by (destruct sdr; reflexivity).
  set (h := match sdr with None => TheSdr | Some h => h end).
  set (own := match sdr with None => true | Some _ => false end).
  set (w2 := after_dwells num_samp nl fc fthrow nd true
               (tuned rate fc gain w0)).
  assert (Hbody :
    fswitch_body welch get_window num_samp nbins nperseg gain rate fc fthrow
      t_int fswitch h own w0
    = ((if own then closed w2 else w2),
       Ok (fst r_on, snd r_on, fst r_off, snd r_off))).
  { unfold fswitch_body. rewrite tune_get. fold N.
    rewrite (bind_Ok _ _ _ _ _ (py_truediv_Ok 1 fswitch _ Hf)).
    fold N_dwell.
    rewrite (bind_Ok _ _ _ _ _
               (py_floordiv_Ok N_dwell num_samp _ ltac:(lia))).
    rewrite (bind_Ok _ _ _ _ _ (py_floordiv_Ok N N_dwell _ HD)).
    rewrite (bind_Ok _ _ _ _ _ (py_floordiv_Ok N num_samp _ ltac:(lia))).
    do 4 rewrite (bind_Ok _ _ _ _ _ (np_zeros_Ok nbins _ ltac:(lia))).
    fold zeros nd.
    assert (Hfeed : (nd * (Z.to_nat (N_dwell / num_samp) * Z.to_nat num_samp)
                     <= length (feed (tuned rate fc gain w0)))%nat)
      by (rewrite Hfd; exact Hl).
    rewrite (bind_Ok _ _ _ _ _
               (fswitch_outer_Ok welch welch_shape num_samp nbins nperseg
                  rate h fc fthrow (N_dwell / num_samp) nd 0%Z
                  (mkFs zeros zeros zeros zeros 0 0) _ ltac:(lia) Hfeed
                  ltac:(apply repeat_length) ltac:(apply repeat_length))).
    change ((0 mod 2 =? 0)%Z) with true. cbn [negb].
    rewrite Hfd. fold nl ns st w2.
    rewrite (bind_Ok _ _ _ _ _ (py_truediv_Ok _ rate _ Hr)).
    rewrite (bind_Ok _ _ _ _ _
               (call_get_window_Ok get_window nperseg _
                  (choose_nperseg_pos nbins Hb))).
    rewrite (bind_Ok _ _ _ _ _ (tidy_eq h own _)).
    reflexivity. }
  rewrite (with_sdr_Ok rate fc gain sdr _ w _ _ Hp Hbody).
  destruct sdr; reflexivity.
Qed.

End FswitchResult.

(* ================================================================== *)
(** ** The total-power average *)

Lemma Qsum_const (l : list Q) (p : Q) :
  (forall x, In x l -> x == p) ->
  Qsum l == inject_Z (Z.of_nat (length l)) * p.
Proof.
  induction l as [|x l IH]; intros H.
  - simpl. ring.
  - cbn [Qsum fold_right length]. fold (Qsum l).
    rewrite IH by (intros y Hy; apply H; now right).
    rewrite (H x) by now left.
    rewrite Nat2Z.inj_succ. unfold Z.succ. rewrite inject_Z_plus. ring.
Qed.

Lemma length_powers (bl : list SampleBlock) : length (powers bl) = length bl.
Proof. apply length_map. Qed.

Lemma Qsum_map_ext {A : Type} (f g : A -> Q) (l : list A) :
  (forall x, In x l -> f x == g x) -> Qsum (map f l) == Qsum (map g l).
Proof.
  induction l as [|x l IH]; intros H; [reflexivity|].
  cbn [map Qsum fold_right]. fold (Qsum (map f l)) (Qsum (map g l)).
  rewrite (H x) by now left.
  rewrite IH by (intros y Hy; apply H; now right). reflexivity.
Qed.

(** The product of a sample with its conjugate has real part
    [I^2 + Q^2]. *)
Lemma sample_power_eq (z : complex) :
  sample_power z == re z * re z + im z * im z.
Proof. unfold sample_power, cmul, conj. cbn [re im]. ring. Qed.

Lemma block_power_eq (iq : SampleBlock) :
  block_power iq == Qsum (map (fun z => re z * re z + im z * im z) iq).
Proof.
  unfold block_power. apply Qsum_map_ext. intros z _.
  apply sample_power_eq.
Qed.

(** What the driver computes on a block is the power the spec speaks of. *)
Lemma block_power_spec (iq : SampleBlock) :
  block_power (dc_compensate iq) == spec_power iq.
Proof.
  unfold block_power, dc_compensate, spec_power, mean.
  rewrite !map_map. apply Qsum_map_ext. intros z _.
  rewrite sample_power_eq. cbn [re im]. rewrite !length_map.
  simpl. ring.
Qed.

(** C8. A total-power integration over [cnt >= 1] blocks of [num_samp]
    samples returns the sum, over the blocks and over the samples of each
    block, of [I^2 + Q^2] after the block's mean [I] and mean [Q] have been
    taken off, divided by [num_samp * cnt]; when every block has the same
    power [p], that is [p / num_samp]. *)
Theorem total_power_average
    (num_samp : Z) (gain rate fc t_int : Q) (sdr : option handle)
    (w : World) :
  let N := total_samples (rate_in_use rate sdr w) t_int in
  let cnt := Z.to_nat (N / num_samp) in
  let bl := blocks (Z.to_nat num_samp) cnt (feed w) in
  (sdr = None -> present w = true) ->
  (1 <= num_samp)%Z -> ~ rate == 0 -> (1 <= cnt)%nat ->
  (S cnt * Z.to_nat num_samp <= length (feed w))%nat ->
  exists w' q,
    run_total_power_int num_samp gain rate fc t_int sdr w
    = (w', Ok (NpFloat (Fin q))) /\
    q == Qsum (map spec_power bl) / inject_Z (num_samp * Z.of_nat cnt) /\
    forall p, (forall iq, In iq bl -> spec_power iq == p) ->
              q == p / inject_Z num_samp.
Proof.
  intros N cnt bl Hp Hs Hr Hc Hl.
  pose proof (run_total_power_int_eq num_samp gain rate fc t_int sdr w
                Hp Hs Hr Hl) as E.
  fold N cnt bl in E. destruct cnt as [|c] eqn:Ec; [lia|].
  eexists. eexists. split; [exact E|].
  assert (A : ~ inject_Z num_samp == 0).
  { intros E0. unfold Qeq in E0. cbn [inject_Z Qnum Qden] in E0. lia. }
  assert (B : ~ inject_Z (Z.of_nat (S c)) == 0).
  { intros E0. unfold Qeq in E0. cbn [inject_Z Qnum Qden] in E0. lia. }
  assert (Hsum : fold_left Qplus (powers bl) 0 == Qsum (map spec_power bl)).
  { rewrite fold_Qplus, Qplus_0_l. unfold powers.
    apply Qsum_map_ext. intros iq _. apply block_power_spec. }
  split; [now rewrite Hsum|].
  intros p Hall. rewrite Hsum.
  assert (Hc' : Qsum (map spec_power bl)
                == inject_Z (Z.of_nat (length (map spec_power bl))) * p).
  { apply Qsum_const. intros x Hx. apply in_map_iff in Hx.
    destruct Hx as (iq & <- & Hiq). now apply Hall. }
  rewrite Hc', length_map. unfold bl. rewrite length_blocks.
  rewrite inject_Z_mult. field. split; assumption.
Qed.

(* ================================================================== *)
(** ** Block counts of the plain drivers *)

Lemma reads_entered rate fc gain sdr (w : World) :
  reads (entered rate fc gain sdr w) = reads w.
Proof.
  destruct sdr; [reflexivity|]. cbn [entered].
  now rewrite reads_tuned, reads_opened.
Qed.

Lemma reads_left_normally sdr (w : World) :
  reads (left_normally sdr w) = reads w.
Proof.
  destruct sdr; [reflexivity|]. cbn [left_normally].
  now rewrite !reads_closed.
Qed.

Lemma reads_left_raising sdr (w : World) :
  reads (left_raising sdr w) = reads w.
Proof.
  destruct sdr; [reflexivity|]. cbn [left_raising]. now rewrite reads_closed.
Qed.

Section BlockCounts.

Variable welch : SampleBlock -> Q -> Z -> Z -> list Q * list Q.
Variable get_window : Z -> list Q.

Hypothesis welch_shape : forall iq fs nperseg nfft,
  length (fst (welch iq fs nperseg nfft)) = Z.to_nat nfft /\
  length (snd (welch iq fs nperseg nfft)) = Z.to_nat nfft.


End BlockCounts.

(* ================================================================== *)
(** ** The finalized spectra *)

Section FinalizedSpectra.

Variable welch : SampleBlock -> Q -> Z -> Z -> list Q * list Q.
Variable get_window : Z -> list Q.

Hypothesis welch_shape : forall iq fs nperseg nfft,
  length (fst (welch iq fs nperseg nfft)) = Z.to_nat nfft /\
  length (snd (welch iq fs nperseg nfft)) = Z.to_nat nfft.

(** [get_window('hann', n)] is an array of [n] values. *)
Hypothesis window_shape : forall n, length (get_window n) = Z.to_nat n.

Lemma finalized_of_blocks (nbins nperseg : Z) (rate center : Q)
    (win : list Q) (bl : list SampleBlock) :
  let zeros := repeat 0 (Z.to_nat nbins) in
  bl <> [] -> ~ rate == 0 -> ~ Qsum (map (fun x => x * x) win) == 0 ->
  finalized (Z.to_nat nbins)
    (fun k => nth k (last_axis welch rate nperseg nbins bl zeros) 0)
    (fun k => bin_sum welch rate nperseg nbins k bl)
    (Z.of_nat (length bl)) center win rate
    (finalize (last_axis welch rate nperseg nbins bl zeros)
              (accumulate welch rate nperseg nbins bl zeros)
              (Z.of_nat (length bl)) center win rate).
Proof.
  intros zeros Hbl Hr Hw.
  assert (Hz : length zeros = Z.to_nat nbins) by apply repeat_length.
  pose proof (length_accumulate welch welch_shape nbins nperseg rate bl zeros
                Hz) as Hacc.
  pose proof (length_last_axis welch welch_shape nbins nperseg rate bl zeros
                Hz) as Hax.
  rewrite <- Hacc at 1.
  apply finalize_finalized.
  - congruence.
  - destruct bl; [congruence | simpl; lia].
  - exact Hr.
  - exact Hw.
  - intros k Hk. rewrite Hacc in Hk.
    rewrite (nth_accumulate welch welch_shape nbins nperseg rate bl zeros k
               Hz Hk).
    unfold zeros. rewrite nth_repeat. ring.
Qed.

(** C2. The spectral driver, and each switch state of the
    frequency-switched driver that accumulated at least one periodogram,
    return the per-bin sum of the periodograms divided by their number,
    with bin [k] at position [(k + nbins/2) mod nbins], the center
    frequency of the state ([fc], or [fthrow] for the shifted state) added
    to the frequencies, and every power multiplied by the one factor
    [((sum w)^2 / sum (w^2)) / rate] of the window [w] of length
    [nperseg]. *)
Theorem spectra_are_finalized
    (num_samp nbins : Z) (gain rate fc fthrow t_int fswitch : Q)
    (sdr : option handle) (w : World) :
  let nperseg := choose_nperseg nbins in
  let win := get_window nperseg in
  let n := Z.to_nat nbins in
  let ns := Z.to_nat num_samp in
  let zeros := repeat 0 n in
  let N := total_samples rate t_int in
  (sdr = None -> present w = true) ->
  (1 <= num_samp)%Z -> (0 <= nbins)%Z -> ~ rate == 0 ->
  ~ Qsum (map (fun x => x * x) win) == 0 ->
  (let cnt := Z.to_nat (py_int (int_truediv N num_samp) + 1) in
   let bl := blocks ns cnt (feed w) in
   (1 <= cnt)%nat -> (cnt * ns <= length (feed w))%nat ->
   exists w' res,
     run_spectrum_int welch get_window num_samp nbins gain rate fc t_int
                      sdr w = (w', Ok res) /\
     finalized n
       (fun k => nth k (last_axis welch rate nperseg nbins bl zeros) 0)
       (fun k => bin_sum welch rate nperseg nbins k bl)
       (Z.of_nat cnt) fc win rate res) /\
  (let N_dwell := dwell_samples rate fswitch in
   let nl := Z.to_nat (N_dwell / num_samp) in
   let nd := Z.to_nat (N / N_dwell) in
   let on := state_blocks ns nl nd true (feed w) in
   let off := state_blocks ns nl nd false (feed w) in
   ~ fswitch == 0 -> switch_threshold fswitch <= float64 t_int ->
   N_dwell <> 0%Z ->
   (nd * (nl * ns) <= length (feed w))%nat ->
   exists w' f_on p_on f_off p_off,
     run_fswitch_int welch get_window num_samp nbins gain rate fc fthrow
                     t_int fswitch sdr w
     = (w', Ok (f_on, p_on, f_off, p_off)) /\
     (on <> [] ->
      finalized n
        (fun k => nth k (last_axis welch rate nperseg nbins on zeros) 0)
        (fun k => bin_sum welch rate nperseg nbins k on)
        (Z.of_nat (length on)) fc win rate (f_on, p_on)) /\
     (off <> [] ->
      finalized n
        (fun k => nth k (last_axis welch rate nperseg nbins off zeros) 0)
        (fun k => bin_sum welch rate nperseg nbins k off)
        (Z.of_nat (length off)) fthrow win rate (f_off, p_off))).
Proof.
  intros nperseg win n ns zeros N Hp Hs Hb0 Hr Hw.
  pose proof (window_has_length get_window nbins window_shape Hw Hb0) as Hb.
  split.
  - intros cnt bl Hc Hl.
    pose proof (run_spectrum_int_eq welch get_window welch_shape num_samp
                  nbins gain rate fc t_int sdr w Hp Hs Hb Hr Hl) as E.
    eexists. eexists. split; [exact E|].
    assert (Hlen : length bl = cnt) by apply length_blocks.
    assert (Hne : bl <> [])
      by (intros Hnil; rewrite Hnil in Hlen; simpl in Hlen; lia).
    pose proof (finalized_of_blocks nbins nperseg rate fc win bl Hne Hr Hw)
      as F.
    rewrite Hlen in F. exact F.
  - intros N_dwell nl nd on off Hf Ht HD Hl.
    pose proof (run_fswitch_int_eq welch get_window welch_shape num_samp
                  nbins gain rate fc fthrow t_int fswitch sdr w
                  Hp Hf Ht Hs Hb Hr HD Hl) as E.
    do 5 eexists. split; [exact E|].
    split; intros Hne.
    + pose proof (finalized_of_blocks nbins nperseg rate fc win on Hne Hr Hw)
        as F.
      rewrite <- surjective_pairing. exact F.
    + pose proof (finalized_of_blocks nbins nperseg rate fthrow win off Hne
                    Hr Hw) as F.
      rewrite <- surjective_pairing. exact F.
Qed.

End FinalizedSpectra.

(* ================================================================== *)
(** ** The rounds of the Dicke driver *)

Lemma flipflop_of_bool (b : bool) :
  ((if b then 1 else 0) =? 0)%Z = negb b.
Proof. now destruct b. Qed.

Lemma dicke_step_Ok (h : handle) (num_samp : Z) (b : bool)
    (st : DickeState) (w : World) :
  (0 <= num_samp)%Z -> (Z.to_nat num_samp <= length (feed w))%nat ->
  flipflop st = (if b then 1 else 0)%Z ->
  dicke_step h num_samp st w
  = (after_rounds num_samp b 1 w, Ok (dicke_after num_samp b 1 st w)).
Proof.
  intros Hn Hl Hf. unfold dicke_step.
  assert (Ht : time_time w = (ticked w, Ok (clock w))) by reflexivity.
  rewrite (bind_Ok _ _ _ _ _ Ht).
  rewrite Hf, flipflop_of_bool.
  assert (Hsw : (if negb b then set_gpio_bit h 4 false
                 else set_gpio_bit h 4 true) (ticked w)
                = (switched b (ticked w), Ok tt))
    by (destruct b; reflexivity).
  rewrite (bind_Ok _ _ _ _ _ Hsw).
  rewrite (bind_Ok _ _ _ _ _
             (read_samples_Ok h num_samp (switched b (ticked w)) Hn Hl)).
  cbn [after_rounds dicke_after feed switched ticked]. unfold ret.
  do 3 f_equal. now destruct b.
Qed.

Lemma dicke_loop_Ok (h : handle) (num_samp : Z) (n : nat) (b : bool)
    (st : DickeState) (w : World) :
  (0 <= num_samp)%Z -> (n * Z.to_nat num_samp <= length (feed w))%nat ->
  flipflop st = (if b then 1 else 0)%Z ->
  dicke_loop h num_samp n st w
  = (after_rounds num_samp b n w, Ok (dicke_after num_samp b n st w)).
Proof.
  intros Hn. revert b st w. induction n as [|n IH]; intros b st w Hl Hf.
  - reflexivity.
  - cbn [dicke_loop].
    rewrite (bind_Ok _ _ _ _ _
               (dicke_step_Ok h num_samp b st w Hn ltac:(lia) Hf)).
    cbn [after_rounds dicke_after]. apply IH.
    + rewrite feed_after_reads, length_skipn. cbn [feed switched ticked].
      lia.
    + cbn [flipflop]. now destruct b.
Qed.

Lemma disk_ok_after_rounds num_samp b n w :
  disk_ok (after_rounds num_samp b n w) = disk_ok w.
Proof.
  revert b w. induction n as [|n IH]; intros b w; [reflexivity|].
  cbn [after_rounds]. now rewrite IH.
Qed.

Lemma trace_after_rounds num_samp b n w :
  trace (after_rounds num_samp b n w)
  = trace w ++ gpio_rounds num_samp b n.
Proof.
  revert b w. induction n as [|n IH]; intros b w.
  - cbn. now rewrite app_nil_r.
  - cbn [after_rounds gpio_rounds]. rewrite IH.
    cbn [trace after_reads switched ticked repeat].
    now rewrite <- !app_assoc.
Qed.

Lemma noise_on_dicke_after num_samp n (j : nat) st w :
  noise_on (dicke_after num_samp (Nat.even j) n st w)
  = noise_on st ++ map (fun j => if Nat.even j then 1%Z else 0%Z) (seq j n).
Proof.
  revert j st w. induction n as [|n IH]; intros j st w.
  - cbn. now rewrite app_nil_r.
  - cbn [dicke_after].
    replace (negb (Nat.even j)) with (Nat.even (S j))
      by (now rewrite Nat.even_succ, <- Nat.negb_even).
    rewrite IH. cbn [noise_on seq map]. now rewrite <- app_assoc.
Qed.

Lemma time_str_dicke_after num_samp b n st w :
  (1 <= n)%nat -> time_str (dicke_after num_samp b n st w) <> None.
Proof.
  revert b st w. induction n as [|n IH]; intros b st w Hn; [lia|].
  cbn [dicke_after]. destruct n as [|n].
  - cbn. discriminate.
  - apply IH. lia.
Qed.

(** The run of the Dicke driver when the hardware delivers and the file
    can be written. *)
Lemma dicke_eq (num_samp : Z) (gain rate fc t : Q) (sdr : option handle)
    (w : World) :
  let n := Z.to_nat (total_samples rate t / num_samp) in
  let w1 := log_event (EvGpioOutput 4)
              (tuned rate fc gain (entered rate fc gain sdr w)) in
  let st := dicke_after num_samp true n dicke_init w1 in
  (sdr = None -> present w = true) -> disk_ok w = true ->
  (1 <= num_samp)%Z -> (1 <= n)%nat ->
  (n * Z.to_nat num_samp <= length (feed w))%nat ->
  exists w',
    dicke num_samp gain rate fc t sdr w
    = (w', Ok (ts st, ps st, noise_on st)) /\
    trace w' = trace w1 ++ gpio_rounds num_samp true n
               ++ EvSave :: match sdr with
                            | None => [EvGpioBit 4 false; EvClose; EvClose]
                            | Some _ => []
                            end.
Proof.
  intros n w1 st Hp Hd Hs Hn Hl.
  set (w0 := entered rate fc gain sdr w).
  set (h := match sdr with None => TheSdr | Some h => h end).
  set (own := match sdr with None => true | Some _ => false end).
  set (w2 := after_rounds num_samp true n w1).
  assert (Hfd : feed w1 = feed w) by (destruct sdr; reflexivity).
  assert (Hdk : disk_ok w2 = true).
  { unfold w2. rewrite disk_ok_after_rounds. destruct sdr; exact Hd. }
  set (w3 := log_event EvSave w2).
  set (w4 := if own then closed (switched false w3) else w3).
  assert (Hbody : dicke_body num_samp gain rate fc t h own w0
                  = (w4, Ok (ts st, ps st, noise_on st))).
  { unfold dicke_body. rewrite tune_get.
    rewrite (bind_Ok _ _ _ _ _
               (py_int_truediv_Ok _ num_samp _ ltac:(lia))).
    assert (Hg : set_gpio_output h 4 (tuned rate fc gain w0) = (w1, Ok tt))
      by reflexivity.
    rewrite (bind_Ok _ _ _ _ _ Hg).
    rewrite (bind_Ok _ _ _ _ _ (py_floordiv_Ok _ num_samp _ ltac:(lia))).
    fold n.
    rewrite (bind_Ok _ _ _ _ _
               (dicke_loop_Ok h num_samp n true dicke_init w1 ltac:(lia)
                  ltac:(rewrite Hfd; exact Hl) eq_refl)).
    fold st w2.
    pose proof (time_str_dicke_after num_samp true n dicke_init w1 Hn) as Hts.
    fold st in Hts. destruct (time_str st) as [s|]; [|congruence].
    assert (Hsave : np_save w2 = (w3, Ok tt))
      by (unfold np_save; now rewrite Hdk).
    rewrite (bind_Ok _ _ _ _ _ Hsave).
    assert (Hfin : (if own then set_gpio_bit h 4 false ;; close h else ret tt)
                     w3 = (w4, Ok tt))
      by (unfold w4; destruct own; reflexivity).
    rewrite (bind_Ok _ _ _ _ _ Hfin). reflexivity. }
  exists (left_raising sdr w4). split.
  - unfold dicke. apply (with_sdr_Ok rate fc gain sdr _ w _ _ Hp Hbody).
  - unfold w4, w3, w2, own. destruct sdr;
      cbn [left_raising closed switched log_event trace];
      rewrite trace_after_rounds; rewrite <- ?app_assoc; reflexivity.
Qed.

(* ================================================================== *)
(** ** The schedules of the switched drivers *)

Lemma trace_left_normally sdr (w : World) :
  trace (left_normally sdr w)
  = trace w ++ match sdr with
               | None => [EvClose; EvClose]
               | Some _ => []
               end.
Proof.
  destruct sdr; cbn [left_normally closed trace].
  - now rewrite app_nil_r.
  - now rewrite <- app_assoc.
Qed.

Section Schedules.

Variable welch : SampleBlock -> Q -> Z -> Z -> list Q * list Q.
Variable get_window : Z -> list Q.

Hypothesis welch_shape : forall iq fs nperseg nfft,
  length (fst (welch iq fs nperseg nfft)) = Z.to_nat nfft /\
  length (snd (welch iq fs nperseg nfft)) = Z.to_nat nfft.

(** C3. The schedules as the code has them.  In the frequency-switched
    driver, on an
    accepted configuration with at least one sample per dwell, [N] is the
    floor of the double [rate * t_int] and [N_dwell] the floor of the
    double [rate * (1.0 / fswitch)]; there are at least two dwells, and the
    run is [N // N_dwell] dwells of [N_dwell // num_samp] blocks each,
    every dwell opened by a retuning, to [fc] on dwells 0, 2, 4, ... and to
    [fthrow] on dwells 1, 3, 5, ...; the rate 2.4e6 with [fswitch = 10] and
    [t_int = 1] gives 10 dwells.  The Dicke driver has no such plan: it
    takes [N // num_samp] single blocks, and its switch flag alternates
    from 1 (noise on). *)
Theorem switched_schedules
    (num_samp nbins : Z) (gain rate fc fthrow t_int fswitch : Q)
    (sdr : option handle) (w : World) :
  (sdr = None -> present w = true) -> (1 <= num_samp)%Z -> 0 < rate ->
  (let N := total_samples rate t_int in
   let N_dwell := dwell_samples rate fswitch in
   let blocks_per_dwell := Z.to_nat (N_dwell / num_samp) in
   let num_dwells := Z.to_nat (N / N_dwell) in
   0 < fswitch -> switch_threshold fswitch <= float64 t_int ->
   (1 <= N_dwell)%Z -> (1 <= nbins)%Z ->
   (num_dwells * (blocks_per_dwell * Z.to_nat num_samp)
    <= length (feed w))%nat ->
   N = Qfloor (float_mul rate t_int) /\
   N_dwell = Qfloor (float_mul rate (float_div 1 fswitch)) /\
   (2 <= num_dwells)%nat /\
   exists w' res,
     run_fswitch_int welch get_window num_samp nbins gain rate fc fthrow
                     t_int fswitch sdr w = (w', Ok res) /\
     trace w'
     = trace (tuned rate fc gain (entered rate fc gain sdr w))
       ++ dwell_events num_samp blocks_per_dwell fc fthrow 0 num_dwells
       ++ match sdr with None => [EvClose; EvClose] | Some _ => [] end) /\
  Z.to_nat (total_samples 2400000 1 / dwell_samples 2400000 10) = 10%nat /\
  (let n := Z.to_nat (total_samples rate t_int / num_samp) in
   disk_ok w = true -> (1 <= n)%nat ->
   (n * Z.to_nat num_samp <= length (feed w))%nat ->
   exists w' ts ps flags,
     dicke num_samp gain rate fc t_int sdr w = (w', Ok (ts, ps, flags)) /\
     flags = dicke_flags n /\
     reads w' = (reads w + n)%nat).
Proof.
  intros Hp Hs Hr. split; [|split].
  - intros N N_dwell bpd nd Hf Ht HD Hb Hl.
    pose proof (accepted_positive t_int fswitch Hf Ht) as Hpos.
    assert (Hrt : 0 <= rate * t_int) by (apply Qmult_le_0_compat; lra).
    split; [apply py_int_nonneg, float_mul_nonneg, Hrt|].
    split.
    { apply py_int_nonneg. unfold float_mul. apply float64_nonneg.
      pose proof (float64_nonneg rate ltac:(lra)).
      pose proof (float_div_pos 1 fswitch ltac:(lra) Hf).
      rewrite float_div_float. nra. }
    split.
    { pose proof (two_dwells_fit rate t_int fswitch ltac:(lra) Hf Ht) as T.
      fold N N_dwell in T. unfold nd.
      assert (2 <= N / N_dwell)%Z by (apply Z.div_le_lower_bound; lia).
      lia. }
    assert (HD0 : dwell_samples rate fswitch <> 0%Z)
      by (unfold N_dwell in HD; lia).
    assert (Hf0 : ~ fswitch == 0) by lra.
    assert (Hr0 : ~ rate == 0) by lra.
    pose proof (run_fswitch_int_eq welch get_window welch_shape num_samp
                  nbins gain rate fc fthrow t_int fswitch sdr w Hp
                  Hf0 Ht Hs Hb Hr0 HD0 Hl)
      as E.
    eexists. eexists. split; [exact E|].
    rewrite trace_left_normally.
    rewrite (trace_after_dwells num_samp bpd fc fthrow nd 0).
    now rewrite <- app_assoc.
  - vm_compute. reflexivity.
  - intros n Hd Hn Hl.
    destruct (dicke_eq num_samp gain rate fc t_int sdr w Hp Hd Hs Hn Hl)
      as (w' & E & Htr).
    fold n in E, Htr. do 4 eexists. split; [exact E|]. split.
    + change true with (Nat.even 0).
      rewrite noise_on_dicke_after. reflexivity.
    + unfold reads. rewrite Htr.
      rewrite !count_reads_app.
      assert (A : forall b m, count_reads (gpio_rounds num_samp b m) = m).
      { intros b m. revert b. induction m as [|m IH]; intros b;
          [reflexivity|].
        cbn [gpio_rounds]. unfold count_reads in *. cbn [filter is_read
          length]. now rewrite IH. }
      rewrite A. fold (reads (log_event (EvGpioOutput 4)
                       (tuned rate fc gain (entered rate fc gain sdr w)))).
      rewrite reads_log_event, reads_tuned, reads_entered.
      assert (B : count_reads
                    (EvSave :: match sdr with
                               | None => [EvGpioBit 4 false; EvClose; EvClose]
                               | Some _ => []
                               end) = 0%nat)
        by (destruct sdr; reflexivity).
      rewrite B. cbn [is_read]. unfold reads. lia.
Qed.

End Schedules.

(** C3, as the spec words it, fails twice.  The samples of a dwell are not
    [floor(rate / fswitch)]: at 2450000 Hz and 49 switches a second the
    driver computes 49999, not 50000.  And the first block of a Dicke run
    is taken with the noise source on. *)
Lemma schedule_claim_fails :
  (dwell_samples 2450000 49 = 49999%Z /\
   Qfloor (2450000 / 49) = 50000%Z) /\
  ~ (forall num_samp gain rate fc t sdr w w' ts ps flags,
       dicke num_samp gain rate fc t sdr w = (w', Ok (ts, ps, flags)) ->
       starts_noise_off flags).
Proof.
  split; [split; vm_compute; reflexivity|].
  intros H.
  assert (E : exists w' ts ps rest,
             dicke 2 35 4 0 1 None (fresh_world (ramp_feed 4))
             = (w', Ok (ts, ps, 1%Z :: rest)))
    by (vm_compute; do 4 eexists; reflexivity).
  destruct E as (w' & ts & ps & rest & E).
  specialize (H _ _ _ _ _ _ _ _ _ _ _ E). clear E.
  cbn [starts_noise_off] in H. discriminate H.
Qed.

(* ================================================================== *)
(** ** The noise-source switch along a Dicke run *)

Lemma gv_log_event (e : Event) (w : World) :
  gv (log_event e w) = gv w ++ (if is_gpio_or_read e then [e] else []).
Proof.
  unfold gv, gpio_view, log_event. cbn [trace]. rewrite filter_app.
  cbn [filter]. now destruct (is_gpio_or_read e).
Qed.

Lemma gv_closed (w : World) : gv (closed w) = gv w.
Proof.
  unfold gv, gpio_view, closed. cbn [trace]. rewrite filter_app.
  cbn. now rewrite app_nil_r.
Qed.

Lemma quiet_ret {A} (a : A) : quiet (ret a).
Proof. intros w. now split. Qed.

Lemma quiet_raise {A} (e : Exn) : quiet (@raise A e).
Proof. intros w. now split. Qed.

Lemma quiet_bind {A B} (c : M A) (k : A -> M B) :
  quiet c -> (forall a, quiet (k a)) -> quiet (bind c k).
Proof.
  intros Hc Hk w. unfold bind. destruct (Hc w) as [G L].
  destruct (c w) as [w1 [a|e]]; cbn [fst] in *.
  - destruct (Hk a w1) as [G' L']. split; congruence.
  - now split.
Qed.

Lemma quiet_logged {A} (e : Event) (a : A) (g : World -> World) :
  (forall w, trace (g w) = trace w) -> (forall w, gpio4 (g w) = gpio4 w) ->
  is_gpio_or_read e = false ->
  quiet (fun w => (log_event e (g w), Ok a)).
Proof.
  intros Ht Hg He w. cbn [fst]. rewrite gv_log_event, He, app_nil_r.
  unfold gv. rewrite Ht. split; [reflexivity|]. cbn [log_event gpio4].
  apply Hg.
Qed.

Lemma quiet_set_rs h r : quiet (set_rs h r).
Proof. unfold set_rs. now apply quiet_logged. Qed.
Lemma quiet_set_fc h r : quiet (set_fc h r).
Proof. unfold set_fc. now apply quiet_logged. Qed.
Lemma quiet_set_gain h r : quiet (set_gain h r).
Proof. unfold set_gain. now apply quiet_logged. Qed.
Lemma quiet_close h : quiet (close h).
Proof. unfold close. now apply quiet_logged. Qed.
Lemma quiet_set_gpio_output h p : quiet (set_gpio_output h p).
Proof.
  unfold set_gpio_output. now apply (quiet_logged _ _ (fun w => w)).
Qed.
Lemma quiet_get_rs h : quiet (get_rs h).
Proof. intros w. now split. Qed.
Lemma quiet_time_time : quiet time_time.
Proof. intros w. now split. Qed.

Lemma quiet_np_save : quiet np_save.
Proof.
  intros w. unfold np_save. destruct (disk_ok w); cbn [fst]; [|now split].
  rewrite gv_log_event. cbn. now rewrite app_nil_r.
Qed.

Lemma quiet_py_int_truediv a b : quiet (py_int_truediv a b).
Proof.
  unfold py_int_truediv.
  destruct (b =? 0)%Z; [apply quiet_raise | apply quiet_ret].
Qed.

Lemma quiet_py_floordiv a b : quiet (py_floordiv a b).
Proof.
  unfold py_floordiv.
  destruct (b =? 0)%Z; [apply quiet_raise | apply quiet_ret].
Qed.

Lemma sw_quiet_bind {A B} ns own b (c : M A) (k : A -> M B) :
  quiet c -> (forall a, switches ns own b (k a)) ->
  switches ns own b (bind c k).
Proof.
  intros Hc Hk w. unfold bind. destruct (Hc w) as [G L].
  destruct (c w) as [w1 [a|e]]; cbn [fst snd] in *.
  - destruct (Hk a w1) as (m & G' & L'). exists m.
    rewrite G', L', G, L. now split.
  - exists 0%nat. cbn [gpio_rounds level_after is_ok].
    rewrite andb_false_r. cbn [reset_event]. rewrite app_nil_r.
    now split.
Qed.

(** The end of the [try] body of [dicke]: save, then put the switch back
    and close when the dongle is the driver's own. *)
Lemma sw_dicke_tail {A} ns own b (h : handle) (st : DickeState) (a : A) :
  switches ns own b
    (match time_str st with
     | None => raise UnboundLocalError
     | Some _ => np_save
     end ;;
     (if own then set_gpio_bit h 4 false ;; close h else ret tt) ;;
     ret a).
Proof.
  intros w. exists 0%nat. cbn [gpio_rounds level_after app].
  destruct (time_str st) as [s|].
  - destruct (disk_ok w) eqn:Hd.
    + destruct own.
      * assert (E : (np_save ;;
                     (set_gpio_bit h 4 false ;; close h) ;; ret a) w
                    = (closed (switched false (log_event EvSave w)), Ok a))
          by (unfold bind, np_save; rewrite Hd; reflexivity).
        rewrite E. cbn [fst snd is_ok andb reset_event gpio4 closed switched].
        rewrite gv_closed. unfold gv at 1, gpio_view.
        cbn [trace switched log_event]. rewrite !filter_app.
        cbn [filter is_gpio_or_read]. rewrite app_nil_r. now split.
      * assert (E : (np_save ;; ret tt ;; ret a) w
                    = (log_event EvSave w, Ok a))
          by (unfold bind, np_save; rewrite Hd; reflexivity).
        rewrite E. cbn [fst snd is_ok andb reset_event].
        rewrite gv_log_event. cbn [is_gpio_or_read]. rewrite !app_nil_r.
        now split.
    + assert (E : (np_save ;;
                   (if own then set_gpio_bit h 4 false ;; close h
                    else ret tt) ;; ret a) w
                  = (w, Raise OSError))
        by (unfold bind, np_save; rewrite Hd; reflexivity).
      rewrite E. cbn [fst snd is_ok]. rewrite andb_false_r.
      cbn [reset_event]. rewrite app_nil_r. now split.
  - cbn [fst snd is_ok bind raise]. rewrite andb_false_r.
    cbn [reset_event]. rewrite app_nil_r. now split.
Qed.

Lemma bind_assoc {A B C} (c : M A) (f : A -> M B) (g : B -> M C)
    (w : World) :
  bind (bind c f) g w = bind c (fun a => bind (f a) g) w.
Proof.
  unfold bind. destruct (c w) as [w1 [a|e]]; reflexivity.
Qed.

Lemma dicke_loop_S_run {A} ns (h : handle) (n : nat) (b : bool)
    (st : DickeState) (tail : DickeState -> M A) (w : World) :
  flipflop st = (if b then 1 else 0)%Z ->
  bind (dicke_loop h ns (S n) st) tail w
  = if ((0 <=? ns)%Z && (Z.to_nat ns <=? length (feed w))%nat)%bool
    then bind (dicke_loop h ns n (dicke_after ns b 1 st w)) tail
              (after_rounds ns b 1 w)
    else (log_event (EvRead ns) (switched b (ticked w)),
          Raise DeviceReadError).
Proof.
  intros Hf.
  destruct ((0 <=? ns)%Z && (Z.to_nat ns <=? length (feed w))%nat)%bool
    eqn:Hc.
  - apply andb_prop in Hc. destruct Hc as [H1 H2].
    apply Z.leb_le in H1. apply Nat.leb_le in H2.
    cbn [dicke_loop]. rewrite bind_assoc.
    now rewrite (bind_Ok _ _ _ _ _ (dicke_step_Ok h ns b st w H1 H2 Hf)).
  - cbn [dicke_loop]. rewrite bind_assoc.
    assert (E : dicke_step h ns st w
                = (log_event (EvRead ns) (switched b (ticked w)),
                   Raise DeviceReadError)).
    { unfold dicke_step.
      assert (Ht : time_time w = (ticked w, Ok (clock w))) by reflexivity.
      rewrite (bind_Ok _ _ _ _ _ Ht).
      rewrite Hf, flipflop_of_bool.
      assert (Hsw : (if negb b then set_gpio_bit h 4 false
                     else set_gpio_bit h 4 true) (ticked w)
                    = (switched b (ticked w), Ok tt))
        by (destruct b; reflexivity).
      rewrite (bind_Ok _ _ _ _ _ Hsw).
      apply bind_Raise. unfold read_samples.
      cbn [feed switched ticked]. now rewrite Hc. }
    now rewrite (bind_Raise _ _ _ _ _ E).
Qed.

Lemma gv_after_round ns b (w : World) :
  gv (after_rounds ns b 1 w) = gv w ++ [EvGpioBit 4 b; EvRead ns].
Proof.
  unfold gv, gpio_view. cbn [after_rounds after_reads trace switched ticked
    repeat]. rewrite !filter_app. cbn [filter is_gpio_or_read].
  now rewrite <- app_assoc.
Qed.

(** The rounds of the loop, followed by whatever makes no round. *)
Lemma sw_dicke_loop {A} ns own (h : handle) (n : nat) (b : bool)
    (st : DickeState) (tail : DickeState -> M A) :
  flipflop st = (if b then 1 else 0)%Z ->
  (forall b' st', switches ns own b' (tail st')) ->
  switches ns own b (bind (dicke_loop h ns n st) tail).
Proof.
  intros Hf Htail. revert b st Hf.
  induction n as [|n IH]; intros b st Hf w.
  - cbn [dicke_loop]. unfold bind at 1 2 3. cbn [ret]. apply Htail.
  - rewrite (dicke_loop_S_run ns h n b st tail w Hf).
    destruct (_ && _)%bool.
    + assert (Hf1 : flipflop (dicke_after ns b 1 st w)
                    = (if negb b then 1 else 0)%Z)
        by (cbn [dicke_after flipflop]; now destruct b).
      destruct (IH (negb b) _ Hf1 (after_rounds ns b 1 w)) as (m & G & L).
      exists (S m). rewrite G, L, gv_after_round.
      cbn [gpio_rounds level_after app]. rewrite <- !app_assoc.
      split; reflexivity.
    + exists 1%nat. cbn [fst snd is_ok]. rewrite andb_false_r.
      cbn [reset_event gpio_rounds level_after].
      rewrite gv_log_event. cbn [is_gpio_or_read].
      unfold gv, gpio_view. cbn [trace switched ticked].
      rewrite filter_app. cbn [filter is_gpio_or_read].
      rewrite app_nil_r, <- !app_assoc. split; reflexivity.
Qed.

Lemma sw_dicke_body ns gain rate fc t (h : handle) (own : bool) :
  switches ns own true (dicke_body ns gain rate fc t h own).
Proof.
  unfold dicke_body.
  apply sw_quiet_bind; [apply quiet_set_rs | intros _].
  apply sw_quiet_bind; [apply quiet_set_fc | intros _].
  apply sw_quiet_bind; [apply quiet_set_gain | intros _].
  apply sw_quiet_bind; [apply quiet_get_rs | intros rs].
  apply sw_quiet_bind; [apply quiet_py_int_truediv | intros _].
  apply sw_quiet_bind; [apply quiet_set_gpio_output | intros _].
  apply sw_quiet_bind; [apply quiet_py_floordiv | intros n].
  apply sw_dicke_loop; [reflexivity|].
  intros b' st'. apply sw_dicke_tail.
Qed.

Lemma gpio_rounds_even ns (j m : nat) :
  gpio_rounds ns (Nat.even j) m
  = flat_map (fun i => [EvGpioBit 4 (Nat.even i); EvRead ns]) (seq j m).
Proof.
  revert j. induction m as [|m IH]; intros j; [reflexivity|].
  cbn [gpio_rounds seq flat_map app].
  replace (negb (Nat.even j)) with (Nat.even (S j))
    by (now rewrite Nat.even_succ, <- Nat.negb_even).
  now rewrite IH.
Qed.

Lemma level_after_even (j m : nat) (g0 : bool) :
  level_after (Nat.even j) m g0
  = match m with O => g0 | S m' => Nat.even (j + m') end.
Proof.
  revert j g0. induction m as [|m IH]; intros j g0; [reflexivity|].
  cbn [level_after].
  replace (negb (Nat.even j)) with (Nat.even (S j))
    by (now rewrite Nat.even_succ, <- Nat.negb_even).
  rewrite IH. destruct m as [|m'].
  - now rewrite Nat.add_0_r.
  - f_equal. lia.
Qed.

Lemma gv_entered_owned rate fc gain (w : World) :
  gv (tuned rate fc gain (opened w)) = gv w.
Proof.
  unfold gv, gpio_view, tuned, opened. cbn [trace].
  rewrite !filter_app. cbn. now rewrite !app_nil_r.
Qed.

(** C10. In a Dicke run the switch (GPIO bit 4) is written before every
    block read, with the flag of the round: 1, 0, 1, ...  It is put back to
    0 only when the body completes and the driver opened the dongle
    itself; when the run raises, or the caller supplied the handle, the
    switch stays at the level of the last round (the level before the run
    if no round was made). *)
Theorem dicke_gpio_discipline
    (num_samp : Z) (gain rate fc t : Q) (sdr : option handle) (w : World) :
  let run := dicke num_samp gain rate fc t sdr w in
  let reset := match sdr with
               | None => is_ok (snd run)
               | Some _ => false
               end in
  exists m : nat,
    gpio_view (trace (fst run))
    = gpio_view (trace w)
      ++ flat_map (fun j => [EvGpioBit 4 (Nat.even j); EvRead num_samp])
                  (seq 0 m)
      ++ (if reset then [EvGpioBit 4 false] else []) /\
    gpio4 (fst run)
    = if reset then false
      else match m with
           | O => gpio4 w
           | S m' => Nat.even m'
           end.
Proof.
  intros run reset. subst reset run. unfold dicke.
  destruct sdr as [h|].
  - rewrite with_sdr_supplied.
    destruct (sw_dicke_body num_samp gain rate fc t h false w)
      as (m & G & L).
    exists m. cbn [andb reset_event] in G, L.
    rewrite <- (gpio_rounds_even num_samp 0 m).
    rewrite (level_after_even 0 m) in L. split; [exact G | exact L].
  - destruct (present w) eqn:Hp.
    + rewrite with_sdr_owned by exact Hp. cbn [fst snd].
      destruct (sw_dicke_body num_samp gain rate fc t TheSdr true
                  (tuned rate fc gain (opened w))) as (m & G & L).
      exists m. cbn [andb] in G, L. rewrite gv_entered_owned in G.
      rewrite <- (gpio_rounds_even num_samp 0 m).
      rewrite (level_after_even 0 m) in L.
      split.
      * fold (gv (closed (fst (dicke_body num_samp gain rate fc t TheSdr
                                 true (tuned rate fc gain (opened w)))))).
        rewrite gv_closed. exact G.
      * exact L.
    + rewrite with_sdr_absent by exact Hp. exists 0%nat.
      cbn. now rewrite app_nil_r.
Qed.

(** A run that leaves the noise source on: the caller's dongle, one
    block. *)
Example dicke_leaves_noise_on :
  gpio4 (fst (dicke 2 35 2 0 1 (Some TheSdr) (opened_world 2 (ramp_feed 2))))
  = true.
Proof. vm_compute. reflexivity. Qed.

(* ================================================================== *)
(** ** Finalizing an accumulator that collected nothing *)

Lemma firstn_repeat {A : Type} (x : A) (k n : nat) :
  firstn k (repeat x n) = repeat x (Nat.min k n).
Proof.
  revert n. induction k as [|k IH]; intros n; [reflexivity|].
  destruct n as [|n]; [reflexivity|]. cbn. now rewrite IH.
Qed.

Lemma skipn_repeat {A : Type} (x : A) (k n : nat) :
  skipn k (repeat x n) = repeat x (n - k).
Proof.
  revert n. induction k as [|k IH]; intros n.
  - now rewrite Nat.sub_0_r.
  - destruct n as [|n]; [reflexivity|]. cbn. apply IH.
Qed.

Lemma fftshift_repeat {A : Type} (x : A) (n : nat) :
  fftshift (repeat x n) = repeat x n.
Proof.
  unfold fftshift. rewrite repeat_length, skipn_repeat, firstn_repeat.
  rewrite <- repeat_app. f_equal.
  pose proof (Nat.Div0.div_le_upper_bound n 2 n). lia.
Qed.

(** Dividing the zero array by a zero count: NaN in every bin. *)
Lemma np_idiv_count_zero (n : nat) :
  np_idiv_count (repeat 0 n) 0 = repeat NaN n.
Proof. unfold np_idiv_count. now rewrite map_repeat. Qed.

Lemma to_psd_nan (n : nat) (win : list Q) (rate : Q) :
  to_psd (repeat NaN n) win rate = repeat NaN n.
Proof. unfold to_psd. now rewrite map_repeat. Qed.

Lemma state_blocks_no_loops (ns n : nat) (tick : bool) (fd : list complex) :
  state_blocks ns 0 n tick fd = [].
Proof.
  revert tick fd. induction n as [|n IH]; intros tick fd; [reflexivity|].
  cbn [state_blocks blocks]. rewrite IH. now destruct tick.
Qed.

Lemma count_reads_dwell_events ns nl fc fthrow (i n : nat) :
  count_reads (dwell_events ns nl fc fthrow i n) = (n * nl)%nat.
Proof.
  unfold dwell_events. revert i. induction n as [|n IH]; intros i;
    [reflexivity|].
  cbn [seq flat_map]. rewrite count_reads_app, IH.
  change (EvSetFc ?f :: ?l) with ([EvSetFc f] ++ l).
  rewrite count_reads_app, count_reads_repeat. cbn. lia.
Qed.

Section ZeroCount.

Variable welch : SampleBlock -> Q -> Z -> Z -> list Q * list Q.
Variable get_window : Z -> list Q.

Hypothesis welch_shape : forall iq fs nperseg nfft,
  length (fst (welch iq fs nperseg nfft)) = Z.to_nat nfft /\
  length (snd (welch iq fs nperseg nfft)) = Z.to_nat nfft.

(** C1. What finalizing a zero count does.  The total-power driver, whose
    sum is a Python float, raises ZeroDivisionError when its callback never
    ran.  The spectral drivers divide a numpy array, and dividing the zero
    sum by a zero count raises nothing: a spectral run whose loop count is
    not positive, and a frequency-switched run whose dwell is shorter than
    one block ([num_loops = 0]), read nothing and return spectra whose
    powers are all NaN. *)
Theorem zero_count_outcomes
    (num_samp nbins : Z) (gain rate fc fthrow t_int fswitch : Q)
    (sdr : option handle) (w : World) :
  (sdr = None -> present w = true) -> (1 <= num_samp)%Z -> ~ rate == 0 ->
  (Z.to_nat (total_samples (rate_in_use rate sdr w) t_int / num_samp)
   = 0%nat ->
   (Z.to_nat num_samp <= length (feed w))%nat ->
   snd (run_total_power_int num_samp gain rate fc t_int sdr w)
   = Raise ZeroDivisionError) /\
  (Z.to_nat (py_int (int_truediv (total_samples rate t_int) num_samp) + 1)
   = 0%nat ->
   (1 <= nbins)%Z ->
   exists w' freqs,
     run_spectrum_int welch get_window num_samp nbins gain rate fc t_int
                      sdr w
     = (w', Ok (freqs, repeat NaN (Z.to_nat nbins))) /\
     reads w' = reads w) /\
  (let N_dwell := dwell_samples rate fswitch in
   ~ fswitch == 0 -> switch_threshold fswitch <= float64 t_int ->
   (1 <= nbins)%Z ->
   N_dwell <> 0%Z -> Z.to_nat (N_dwell / num_samp) = 0%nat ->
   exists w' f_on f_off,
     run_fswitch_int welch get_window num_samp nbins gain rate fc fthrow
                     t_int fswitch sdr w
     = (w', Ok (f_on, repeat NaN (Z.to_nat nbins),
                f_off, repeat NaN (Z.to_nat nbins))) /\
     reads w' = reads w).
Proof.
  intros Hp Hs Hr. split; [|split].
  - intros Hc Hl.
    pose proof (run_total_power_int_eq num_samp gain rate fc t_int sdr w)
      as E. cbv zeta in E. rewrite Hc in E.
    rewrite (E Hp Hs Hr ltac:(simpl; lia)). reflexivity.
  - intros Hc Hb.
    pose proof (run_spectrum_int_eq welch get_window welch_shape num_samp
                  nbins gain rate fc t_int sdr w) as E.
    cbv zeta in E. rewrite Hc in E.
    specialize (E Hp Hs Hb Hr ltac:(simpl; lia)).
    unfold finalize in E.
    cbn [blocks last_axis accumulate fold_left Z.of_nat] in E.
    rewrite np_idiv_count_zero, !fftshift_repeat, to_psd_nan in E.
    do 2 eexists. split; [exact E|].
    now rewrite reads_left_normally, reads_after_reads, reads_tuned,
      reads_entered, Nat.add_0_r.
  - intros N_dwell Hf Ht Hb HD Hnl.
    pose proof (run_fswitch_int_eq welch get_window welch_shape num_samp
                  nbins gain rate fc fthrow t_int fswitch sdr w) as E.
    cbv zeta in E. fold N_dwell in E. rewrite Hnl in E.
    specialize (E Hp Hf Ht Hs Hb Hr HD ltac:(simpl; lia)).
    rewrite !state_blocks_no_loops in E.
    unfold fs_after, finalize in E.
    cbn [last_axis accumulate fold_left length freqs_on freqs_off p_xx_on
         p_xx_off cntOn cntOff fst snd Z.of_nat Z.add] in E.
    rewrite !np_idiv_count_zero, !fftshift_repeat, !to_psd_nan in E.
    do 3 eexists. split; [exact E|].
    rewrite reads_left_normally. unfold reads.
    rewrite (trace_after_dwells num_samp 0 fc fthrow _ 0).
    rewrite count_reads_app, count_reads_dwell_events.
    fold (reads (tuned rate fc gain (entered rate fc gain sdr w))).
    rewrite reads_tuned, reads_entered. unfold reads. lia.
Qed.

End ZeroCount.

(** With blocks of 262144 samples and dwells of 240000 the
    frequency-switched driver reads no block, both counts are zero, and
    the run returns spectra of NaN. *)
Example fswitch_zero_count_returns_nan :
  let run := run_fswitch_int sample_welch sample_window 262144 4 35 2400000
               1420400000 1420800000 1 10 None (fresh_world []) in
  reads (fst run) = 0%nat /\
  exists f_on f_off,
    snd run = Ok (f_on, repeat NaN 4, f_off, repeat NaN 4).
Proof.
  split; [vm_compute; reflexivity|].
  do 2 eexists. vm_compute. reflexivity.
Qed.

(* ================================================================== *)
(** ** Closing the dongle *)


(** The calls of [close()] the plain spectral driver makes on three
    exits, and the releases of the device they amount to.  When it opened
    the dongle itself and returns normally, [close()] is called twice, once
    at the end of the [try] body and once more in the [finally] clause, and
    the second call finds the handle closed.  When a read fails
    mid-acquisition it is called once; on a handle the caller supplied it
    is never called. *)
Example spectrum_close_calls :
  (let run := run_spectrum_int sample_welch sample_window 2 4 35 4 100 1 None
                (fresh_world (ramp_feed 6)) in
   is_ok (snd run) = true /\ count_closes (trace (fst run)) = 2%nat /\
   released (fst run) = 1%nat) /\
  (let run := run_spectrum_int sample_welch sample_window 2 4 35 4 100 1 None
                (fresh_world (ramp_feed 3)) in
   snd run = Raise DeviceReadError /\
   count_closes (trace (fst run)) = 1%nat /\
   released (fst run) = 1%nat) /\
  (let run := run_spectrum_int sample_welch sample_window 2 4 35 4 100 1
                (Some TheSdr) (opened_world 4 (ramp_feed 6)) in
   is_ok (snd run) = true /\ count_closes (trace (fst run)) = 0%nat /\
   released (fst run) = 0%nat).
Proof. repeat split; vm_compute; reflexivity. Qed.

(** The other three drivers close their own dongle twice as well on a
    normal return. *)
Example normal_return_closes_twice :
  count_closes
    (trace (fst (run_total_power_int 2 35 4 100 1 None
                   (fresh_world (ramp_feed 6))))) = 2%nat /\
  count_closes
    (trace (fst (dicke 2 35 4 100 1 None (fresh_world (ramp_feed 4)))))
  = 2%nat /\
  count_closes
    (trace (fst (run_fswitch_int sample_welch sample_window 2 4 35 8 100 104
                   1 2 None (fresh_world (ramp_feed 8))))) = 2%nat.
Proof. repeat split; vm_compute; reflexivity. Qed.

(* ================================================================== *)
(** ** The theorems at concrete inputs *)

Lemma sample_welch_shape : forall iq fs nperseg nfft,
  length (fst (sample_welch iq fs nperseg nfft)) = Z.to_nat nfft /\
  length (snd (sample_welch iq fs nperseg nfft)) = Z.to_nat nfft.
Proof.
  intros iq fs nperseg nfft. unfold sample_welch, fftfreq. cbn [fst snd].
  now rewrite !length_map, length_seq.
Qed.

Ltac q_nonzero := let H := fresh in intro H; vm_compute in H; discriminate H.
Ltac q_le := let H := fresh in vm_compute; intro H; discriminate H.

Lemma sample_window_shape : forall n,
  length (sample_window n) = Z.to_nat n.
Proof.
  intros n. unfold sample_window.
  destruct (Z.eqb_spec n 4) as [->|_]; [reflexivity|].
  destruct (Z.eqb_spec n 2) as [->|_]; [reflexivity|].
  apply repeat_length.
Qed.

Lemma fswitch_rejects_short_integration_witness :
  run_fswitch_int sample_welch sample_window 1024 4 35 2400000 1420400000
    1420800000 (1 # 10) 10 None (fresh_world [])
  = (fresh_world [], Raise AssertionError) /\
  snd (run_fswitch_int sample_welch sample_window 1024 4 35 2400000
         1420400000 1420800000 1 10 None (fresh_world []))
  <> Raise AssertionError.
Proof.
  split.
  - apply (proj1 (fswitch_rejects_short_integration sample_welch
                    sample_window 1024 4 35 2400000 1420400000 1420800000
                    (1 # 10) 10 None (fresh_world []) ltac:(q_nonzero))).
    vm_compute. reflexivity.
  - apply (proj2 (proj2 (fswitch_rejects_short_integration sample_welch
                           sample_window 1024 4 35 2400000 1420400000
                           1420800000 1 10 None (fresh_world [])
                           ltac:(q_nonzero))));
      [vm_compute; reflexivity | q_le].
Defined.

(** C6, as the spec words it, fails by one rounding: the double
    0.6666666666666666 is less than 2/3, and with [fswitch = 3] the driver
    accepts it, opens the dongle and reads two blocks. *)
Lemma fswitch_accepts_below_two_periods :
  let t := 6004799503160661 # 9007199254740992 in
  let run := run_fswitch_int sample_welch sample_window 1 4 35 3 100 104 t 3
               None (fresh_world (ramp_feed 2)) in
  t < 2 / 3 /\ float64 t == t /\
  is_ok (snd run) = true /\ reads (fst run) = 2%nat.
Proof. repeat split; vm_compute; reflexivity. Qed.


(** The product is rounded before it is truncated: [10 * 0.7] is the
    double 7.0 although the product of the two doubles is below 7, and the
    driver plans and reads 7 blocks. *)
Example rounded_product_plans_seven_blocks :
  let t := 3152519739159347 # 4503599627370496 in
  let run := run_fswitch_int sample_welch sample_window 1 4 35 10 100 104 t
               10 None (fresh_world (ramp_feed 7)) in
  float64 (7 # 10) == t /\ total_samples 10 t = 7%Z /\
  is_ok (snd run) = true /\ reads (fst run) = 7%nat /\
  (Qfloor (10 * t) = 6)%Z.
Proof. repeat split; vm_compute; reflexivity. Qed.

Lemma total_power_average_witness :
  exists w' q,
    run_total_power_int 2 35 4 100 1 None (fresh_world (ramp_feed 6))
    = (w', Ok (NpFloat (Fin q))) /\
    q == Qsum (map spec_power (blocks 2 2 (ramp_feed 6))) / inject_Z (2 * 2).
Proof.
  destruct (total_power_average 2 35 4 100 1 None (fresh_world (ramp_feed 6))
              (fun _ => eq_refl) ltac:(lia) ltac:(q_nonzero)
              ltac:(vm_compute; lia) ltac:(vm_compute; lia))
    as (w' & q & E & Hq & _).
  exists w', q. split; [exact E | exact Hq].
Defined.



Lemma spectra_are_finalized_witness :
  (exists w' res,
     run_spectrum_int sample_welch sample_window 2 4 35 8 100 1 None
       (fresh_world (ramp_feed 10)) = (w', Ok res) /\
     length (snd res) = 4%nat) /\
  (exists w' f_on p_on f_off p_off,
     run_fswitch_int sample_welch sample_window 2 4 35 8 100 104 1 2 None
       (fresh_world (ramp_feed 10)) = (w', Ok (f_on, p_on, f_off, p_off)) /\
     length p_on = 4%nat /\ length p_off = 4%nat).
Proof.
  destruct (spectra_are_finalized sample_welch sample_window
              sample_welch_shape sample_window_shape
              2 4 35 8 100 104 1 2 None
              (fresh_world (ramp_feed 10))
              (fun _ => eq_refl) ltac:(lia) ltac:(lia) ltac:(q_nonzero)
              ltac:(q_nonzero)) as [A B].
  split.
  - destruct A as (w' & res & E & F); [vm_compute; lia | vm_compute; lia |].
    exists w', res. split; [exact E | exact (proj1 (proj2 F))].
  - destruct B as (w' & f_on & p_on & f_off & p_off & E & Fon & Foff);
      [q_nonzero | q_le | vm_compute; discriminate | vm_compute; lia |].
    exists w', f_on, p_on, f_off, p_off. split; [exact E|]. split.
    + exact (proj1 (proj2 (Fon ltac:(vm_compute; discriminate)))).
    + exact (proj1 (proj2 (Foff ltac:(vm_compute; discriminate)))).
Defined.

Lemma switched_schedules_witness :
  (exists w' res,
     run_fswitch_int sample_welch sample_window 2 4 35 8 100 104 1 2 None
       (fresh_world (ramp_feed 8)) = (w', Ok res) /\
     trace w'
     = [EvOpen; EvSetRs 8; EvSetFc 100; EvSetGain 35;
        EvSetRs 8; EvSetFc 100; EvSetGain 35]
       ++ dwell_events 2 2 100 104 0 2 ++ [EvClose; EvClose]) /\
  (exists w' ts ps flags,
     dicke 2 35 8 100 1 None (fresh_world (ramp_feed 8))
     = (w', Ok (ts, ps, flags)) /\ flags = [1; 0; 1; 0]%Z).
Proof.
  destruct (switched_schedules sample_welch sample_window sample_welch_shape
              2 4 35 8 100 104 1 2 None (fresh_world (ramp_feed 8))
              (fun _ => eq_refl) ltac:(lia) ltac:(reflexivity))
    as (A & _ & C).
  split.
  - destruct A as (_ & _ & _ & w' & res & E & T);
      [reflexivity | q_le | vm_compute; discriminate | lia
       | vm_compute; lia |].
    exists w', res. split; [exact E|]. exact T.
  - destruct C as (w' & ts & ps & flags & E & F & _);
      [reflexivity | vm_compute; lia | vm_compute; lia |].
    exists w', ts, ps, flags. split; [exact E | exact F].
Defined.

Lemma zero_count_outcomes_witness :
  snd (run_total_power_int 1024 35 1000 100 1 None
         (fresh_world (ramp_feed 1024)))
  = Raise ZeroDivisionError /\
  (exists w' freqs,
     run_spectrum_int sample_welch sample_window 2 4 35 4 100 (-1) None
       (fresh_world [])
     = (w', Ok (freqs, repeat NaN 4)) /\
     reads w' = 0%nat) /\
  exists w' f_on f_off,
    run_fswitch_int sample_welch sample_window 262144 4 35 2400000
      1420400000 1420800000 1 10 None (fresh_world [])
    = (w', Ok (f_on, repeat NaN 4, f_off, repeat NaN 4)) /\
    reads w' = 0%nat.
Proof.
  split; [|split].
  - apply (proj1 (zero_count_outcomes sample_welch sample_window
                    sample_welch_shape 1024 4 35 1000 100 104 1 10 None
                    (fresh_world (ramp_feed 1024)) (fun _ => eq_refl)
                    ltac:(lia) ltac:(q_nonzero)));
      [vm_compute; reflexivity | vm_compute; lia].
  - apply (proj1 (proj2 (zero_count_outcomes sample_welch sample_window
                           sample_welch_shape 2 4 35 4 100 104 (-1) 10 None
                           (fresh_world []) (fun _ => eq_refl) ltac:(lia)
                           ltac:(q_nonzero))));
      [vm_compute; reflexivity | lia].
  - apply (proj2 (proj2 (zero_count_outcomes sample_welch sample_window
                           sample_welch_shape 262144 4 35 2400000 1420400000
                           1420800000 1 10 None (fresh_world [])
                           (fun _ => eq_refl) ltac:(lia) ltac:(q_nonzero))));
      [q_nonzero | q_le | lia | vm_compute; discriminate
       | vm_compute; reflexivity].
Defined.

(* ================================================================== *)
(** ** Properties of the DC compensation *)

Lemma dc_compensate_center (iq : SampleBlock) :
  dc_compensate iq = center (mean (map re iq)) (mean (map im iq)) iq.
Proof. reflexivity. Qed.

Lemma block_eq_refl (x : SampleBlock) : block_eq x x.
Proof.
  induction x as [|z x IH]; constructor; [|exact IH].
  split; reflexivity.
Qed.

Lemma center_comp (a a' b b' : Q) (x y : SampleBlock) :
  a == a' -> b == b' -> block_eq x y ->
  block_eq (center a b x) (center a' b' y).
Proof.
  intros Ha Hb H. induction H as [|z z' x y [Hr Hi] _ IH]; [constructor|].
  cbn [center map]. constructor; [|exact IH].
  split; cbn [re im]; [rewrite Hr, Ha | rewrite Hi, Hb]; reflexivity.
Qed.

Lemma Qsum_comp (f g : complex -> Q) (x y : SampleBlock) :
  (forall z z', cx_eq z z' -> f z == g z') -> block_eq x y ->
  Qsum (map f x) == Qsum (map g y).
Proof.
  intros Hfg H. induction H as [|z z' x y Hz _ IH]; [reflexivity|].
  cbn [map Qsum fold_right]. fold (Qsum (map f x)) (Qsum (map g y)).
  rewrite IH, (Hfg z z' Hz). reflexivity.
Qed.

Lemma block_power_comp (x y : SampleBlock) :
  block_eq x y -> block_power x == block_power y.
Proof.
  intros H. unfold block_power. apply Qsum_comp; [|exact H].
  intros z z' [Hr Hi]. rewrite !sample_power_eq, Hr, Hi. reflexivity.
Qed.

Lemma Qsum_map_plus {A : Type} (f : A -> Q) (c : Q) (l : list A) :
  Qsum (map (fun z => f z + c) l)
  == Qsum (map f l) + inject_Z (Z.of_nat (length l)) * c.
Proof.
  induction l as [|x l IH].
  - simpl. ring.
  - cbn [map Qsum fold_right length].
    fold (Qsum (map (fun z => f z + c) l)) (Qsum (map f l)). rewrite IH.
    rewrite Nat2Z.inj_succ. unfold Z.succ. rewrite inject_Z_plus. ring.
Qed.

Lemma Qsum_map_scale {A : Type} (f : A -> Q) (g : Q) (l : list A) :
  Qsum (map (fun z => g * f z) l) == g * Qsum (map f l).
Proof.
  induction l as [|x l IH].
  - simpl. ring.
  - cbn [map Qsum fold_right].
    fold (Qsum (map (fun z => g * f z) l)) (Qsum (map f l)). rewrite IH. ring.
Qed.

Lemma mean_shift {A : Type} (f : A -> Q) (c : Q) (l : list A) :
  l <> [] -> mean (map (fun z => f z + c) l) == mean (map f l) + c.
Proof.
  intros Hl. unfold mean. rewrite Qsum_map_plus, !length_map.
  pose proof (length_pos_inject l Hl) as Hn. field. exact Hn.
Qed.

Lemma mean_scale {A : Type} (f : A -> Q) (g : Q) (l : list A) :
  mean (map (fun z => g * f z) l) == g * mean (map f l).
Proof.
  unfold mean. rewrite Qsum_map_scale, !length_map.
  unfold Qdiv. ring.
Qed.

Lemma dc_means_zero (iq : SampleBlock) :
  iq <> [] ->
  mean (map re (dc_compensate iq)) == 0 /\
  mean (map im (dc_compensate iq)) == 0.
Proof.
  intros Hl. unfold dc_compensate. rewrite !map_map. cbn [re im]. split.
  - apply (mean_centered re iq Hl).
  - apply (mean_centered im iq Hl).
Qed.

(** X1. The DC compensation does not see a constant offset: adding one
    complex constant to every sample of a block leaves the compensated
    block unchanged. *)
Theorem dc_compensate_offset_invariant (c : complex) (iq : SampleBlock) :
  block_eq (dc_compensate (shift_block c iq)) (dc_compensate iq).
Proof.
  destruct iq as [|z0 iq0] eqn:E; [constructor|]. rewrite <- E.
  assert (Hne : iq <> []) by (rewrite E; discriminate).
  clear E. unfold dc_compensate, shift_block. rewrite !map_map. cbn [re im].
  pose proof (mean_shift re (re c) iq Hne) as Hr.
  pose proof (mean_shift im (im c) iq Hne) as Hi.
  revert Hr Hi.
  generalize (mean (map (fun z => re z + re c) iq)).
  generalize (mean (map (fun z => im z + im c) iq)).
  generalize (mean (map re iq)). generalize (mean (map im iq)).
  intros mi mr mi' mr' Hr Hi. clear Hne.
  induction iq as [|z iq IH]; [constructor|].
  cbn [map]. constructor; [|exact IH].
  split; cbn [re im]; [rewrite Hr | rewrite Hi]; ring.
Qed.

(** X2. Compensating twice is compensating once. *)
Theorem dc_compensate_idempotent (iq : SampleBlock) :
  block_eq (dc_compensate (dc_compensate iq)) (dc_compensate iq).
Proof.
  destruct iq as [|z0 iq0] eqn:E; [constructor|]. rewrite <- E.
  assert (Hne : iq <> []) by (rewrite E; discriminate). clear E.
  destruct (dc_means_zero iq Hne) as [Hr Hi].
  rewrite (dc_compensate_center (dc_compensate iq)).
  revert Hr Hi.
  generalize (mean (map re (dc_compensate iq))).
  generalize (mean (map im (dc_compensate iq))).
  intros mi mr Hr Hi. generalize (dc_compensate iq). intros x.
  induction x as [|z x IH]; [constructor|].
  cbn [center map]. constructor; [|exact IH].
  split; cbn [re im]; [rewrite Hr | rewrite Hi]; ring.
Qed.

Lemma Qsum_map_add2 {A : Type} (f g : A -> Q) (l : list A) :
  Qsum (map (fun z => f z + g z) l) == Qsum (map f l) + Qsum (map g l).
Proof.
  induction l as [|x l IH].
  - simpl. ring.
  - cbn [map Qsum fold_right].
    fold (Qsum (map (fun z => f z + g z) l)) (Qsum (map f l))
         (Qsum (map g l)). rewrite IH. ring.
Qed.

Lemma Qsum_sq_center {A : Type} (f : A -> Q) (m : Q) (l : list A) :
  Qsum (map (fun z => (f z - m) * (f z - m)) l)
  == Qsum (map (fun z => f z * f z) l) - 2 * m * Qsum (map f l)
     + inject_Z (Z.of_nat (length l)) * (m * m).
Proof.
  induction l as [|x l IH].
  - simpl. ring.
  - cbn [map Qsum fold_right length].
    fold (Qsum (map (fun z => (f z - m) * (f z - m)) l))
         (Qsum (map (fun z => f z * f z) l)) (Qsum (map f l)).
    rewrite IH. rewrite Nat2Z.inj_succ. unfold Z.succ.
    rewrite inject_Z_plus. ring.
Qed.

Lemma Qsum_of_mean {A : Type} (f : A -> Q) (l : list A) :
  l <> [] ->
  Qsum (map f l) == inject_Z (Z.of_nat (length l)) * mean (map f l).
Proof.
  intros Hl. unfold mean. rewrite length_map.
  pose proof (length_pos_inject l Hl) as Hn. field. exact Hn.
Qed.

Lemma block_power_nonneg (iq : SampleBlock) : 0 <= block_power iq.
Proof.
  unfold block_power. induction iq as [|z iq IH]; [simpl; lra|].
  cbn [map Qsum fold_right]. fold (Qsum (map sample_power iq)).
  rewrite sample_power_eq.
  assert (0 <= re z * re z) by nra. assert (0 <= im z * im z) by nra. lra.
Qed.

Lemma compensated_power_parts (iq : SampleBlock) :
  iq <> [] ->
  block_power (dc_compensate iq)
  == block_power iq
     - inject_Z (Z.of_nat (length iq))
       * (mean (map re iq) * mean (map re iq)
          + mean (map im iq) * mean (map im iq)) /\
  0 <= block_power (dc_compensate iq) /\
  block_power (dc_compensate iq) <= block_power iq.
Proof.
  intros Hl.
  set (n := inject_Z (Z.of_nat (length iq))).
  set (mr := mean (map re iq)). set (mi := mean (map im iq)).
  assert (E : block_power (dc_compensate iq)
              == block_power iq - n * (mr * mr + mi * mi)).
  { rewrite (block_power_eq (dc_compensate iq)), (block_power_eq iq).
    unfold dc_compensate. rewrite map_map. cbn [re im].
    rewrite (Qsum_map_add2 (fun z => (re z - mean (map re iq))
                                     * (re z - mean (map re iq)))
                           (fun z => (im z - mean (map im iq))
                                     * (im z - mean (map im iq)))).
    rewrite (Qsum_map_add2 (fun z => re z * re z) (fun z => im z * im z)).
    rewrite !Qsum_sq_center.
    rewrite (Qsum_of_mean re iq Hl), (Qsum_of_mean im iq Hl).
    fold n mr mi. ring. }
  split; [exact E|]. split; [apply block_power_nonneg|].
  rewrite E.
  assert (0 <= n).
  { unfold n. change 0 with (inject_Z 0). rewrite <- Zle_Qle. lia. }
  assert (0 <= mr * mr) by nra. assert (0 <= mi * mi) by nra.
  assert (0 <= n * (mr * mr + mi * mi)) by (apply Qmult_le_0_compat; lra).
  lra.
Qed.

(** X3. The power of a compensated block is the power of the block minus
    [n] times the squared modulus of its mean; it lies between 0 and the
    power of the block. *)
Theorem compensated_power (iq : SampleBlock) :
  iq <> [] ->
  let n := inject_Z (Z.of_nat (length iq)) in
  let mr := mean (map re iq) in
  let mi := mean (map im iq) in
  block_power (dc_compensate iq)
  == block_power iq - n * (mr * mr + mi * mi) /\
  0 <= block_power (dc_compensate iq) <= block_power iq.
Proof.
  intros Hl n mr mi.
  destruct (compensated_power_parts iq Hl) as (E & A & B).
  split; [exact E|]. split; assumption.
Qed.

Lemma compensated_power_witness :
  0 <= block_power (dc_compensate (ramp_feed 3))
    <= block_power (ramp_feed 3).
Proof.
  apply (compensated_power (ramp_feed 3)). vm_compute. discriminate.
Defined.

Lemma block_power_scale (g : Q) (iq : SampleBlock) :
  block_power (scale_block g iq) == g * g * block_power iq.
Proof.
  unfold block_power, scale_block. rewrite map_map.
  rewrite <- Qsum_map_scale. apply Qsum_comp; [|apply block_eq_refl].
  intros z z' [Hr Hi]. rewrite !sample_power_eq. cbn [re im].
  rewrite Hr, Hi. ring.
Qed.

(** X4. A gain applied to the samples goes through the compensation, and
    multiplies the power of the compensated block by its square. *)
Theorem compensated_power_scales (g : Q) (iq : SampleBlock) :
  block_eq (dc_compensate (scale_block g iq))
           (scale_block g (dc_compensate iq)) /\
  block_power (dc_compensate (scale_block g iq))
  == g * g * block_power (dc_compensate iq).
Proof.
  assert (E : block_eq (dc_compensate (scale_block g iq))
                       (scale_block g (dc_compensate iq))).
  { unfold dc_compensate, scale_block. rewrite !map_map. cbn [re im].
    pose proof (mean_scale re g iq) as Hr.
    pose proof (mean_scale im g iq) as Hi.
    revert Hr Hi.
    generalize (mean (map (fun z => g * re z) iq)).
    generalize (mean (map (fun z => g * im z) iq)).
    generalize (mean (map re iq)). generalize (mean (map im iq)).
    intros mi mr mi' mr' Hr Hi.
    induction iq as [|z iq IH]; [constructor|].
    cbn [map]. constructor; [|exact IH].
    split; cbn [re im]; [rewrite Hr | rewrite Hi]; ring. }
  split; [exact E|].
  rewrite (block_power_comp _ _ E). apply block_power_scale.
Qed.

Lemma Qsum_zero (l : list Q) : (forall x, In x l -> x == 0) -> Qsum l == 0.
Proof.
  intros H. rewrite (Qsum_const l 0 H). ring.
Qed.

(** A block whose samples all equal [c] is compensated to zero. *)
Lemma constant_block_power (c : complex) (iq : SampleBlock) :
  (forall z, In z iq -> cx_eq z c) -> block_power (dc_compensate iq) == 0.
Proof.
  intros Hc. destruct iq as [|z0 iq0] eqn:E; [reflexivity|]. rewrite <- E in *.
  assert (Hne : iq <> []) by (rewrite E; discriminate). clear E.
  assert (Hr : mean (map re iq) == re c).
  { unfold mean. rewrite (Qsum_const (map re iq) (re c)).
    - rewrite length_map. pose proof (length_pos_inject iq Hne). now field.
    - intros x Hx. apply in_map_iff in Hx. destruct Hx as (z & <- & Hz).
      apply (Hc z Hz). }
  assert (Hi : mean (map im iq) == im c).
  { unfold mean. rewrite (Qsum_const (map im iq) (im c)).
    - rewrite length_map. pose proof (length_pos_inject iq Hne). now field.
    - intros x Hx. apply in_map_iff in Hx. destruct Hx as (z & <- & Hz).
      apply (Hc z Hz). }
  unfold block_power, dc_compensate. rewrite map_map.
  apply Qsum_zero. intros x Hx. apply in_map_iff in Hx.
  destruct Hx as (z & <- & Hz). destruct (Hc z Hz) as [Hzr Hzi].
  rewrite sample_power_eq. cbn [re im]. rewrite Hr, Hi, Hzr, Hzi. ring.
Qed.

Lemma In_blocks (n k : nat) (fd : list complex) (b : SampleBlock)
    (z : complex) :
  In b (blocks n k fd) -> In z b -> In z fd.
Proof.
  revert fd. induction k as [|k IH]; intros fd Hb Hz; [contradiction|].
  cbn [blocks] in Hb. destruct Hb as [<- | Hb].
  - rewrite <- (firstn_skipn n fd). apply in_or_app. now left.
  - rewrite <- (firstn_skipn n fd). apply in_or_app. right.
    apply (IH _ Hb Hz).
Qed.

(** X5. A signal that is constant over the whole run integrates to total
    power zero: the compensation removes it entirely. *)
Theorem constant_signal_has_zero_power
    (num_samp : Z) (gain rate fc t_int : Q) (sdr : option handle)
    (w : World) (c : complex) :
  let N := total_samples (rate_in_use rate sdr w) t_int in
  let cnt := Z.to_nat (N / num_samp) in
  (sdr = None -> present w = true) ->
  (1 <= num_samp)%Z -> ~ rate == 0 -> (1 <= cnt)%nat ->
  (S cnt * Z.to_nat num_samp <= length (feed w))%nat ->
  (forall z, In z (feed w) -> cx_eq z c) ->
  exists w' q,
    run_total_power_int num_samp gain rate fc t_int sdr w
    = (w', Ok (NpFloat (Fin q))) /\ q == 0.
Proof.
  intros N cnt Hp Hs Hr Hc Hl Hconst.
  pose proof (run_total_power_int_eq num_samp gain rate fc t_int sdr w
                Hp Hs Hr Hl) as E.
  fold N cnt in E. destruct cnt as [|k] eqn:Ec; [lia|].
  eexists. eexists. split; [exact E|].
  rewrite fold_Qplus, Qplus_0_l.
  rewrite Qsum_zero; [unfold Qdiv; ring|].
  intros x Hx. unfold powers in Hx. apply in_map_iff in Hx.
  destruct Hx as (b & <- & Hb). apply (constant_block_power c).
  intros z Hz. apply Hconst. apply (In_blocks _ _ _ _ _ Hb Hz).
Qed.

Lemma constant_signal_has_zero_power_witness :
  exists w' q,
    run_total_power_int 2 35 4 100 1 None
      (fresh_world (repeat (Cx 3 (-2)) 6))
    = (w', Ok (NpFloat (Fin q))) /\ q == 0.
Proof.
  apply (constant_signal_has_zero_power 2 35 4 100 1 None
           (fresh_world (repeat (Cx 3 (-2)) 6)) (Cx 3 (-2))
           (fun _ => eq_refl));
    [lia | intro H; vm_compute in H; discriminate H
     | vm_compute; lia | vm_compute; lia |].
  intros z Hz. cbn [feed fresh_world] in Hz. apply repeat_spec in Hz.
  subst z. split; reflexivity.
Defined.

(* ================================================================== *)
(** ** Sample budgets and finite spectra *)

Lemma feed_entered rate fc gain sdr (w : World) :
  feed (entered rate fc gain sdr w) = feed w.
Proof. now destruct sdr. Qed.



Section SampleBudget.

Variable welch : SampleBlock -> Q -> Z -> Z -> list Q * list Q.
Variable get_window : Z -> list Q.

Hypothesis welch_shape : forall iq fs nperseg nfft,
  length (fst (welch iq fs nperseg nfft)) = Z.to_nat nfft /\
  length (snd (welch iq fs nperseg nfft)) = Z.to_nat nfft.


End SampleBudget.


Lemma In_fftshift {A : Type} (x : list A) (y : A) :
  In y (fftshift x) -> In y x.
Proof.
  unfold fftshift. intros H. apply in_app_or in H.
  rewrite <- (firstn_skipn (length x - length x / 2) x).
  apply in_or_app. tauto.
Qed.

Lemma finalize_finite (freqs p_xx : list Q) (cnt : Z) (center : Q)
    (win : list Q) (rate : Q) :
  cnt <> 0%Z -> ~ rate == 0 -> ~ Qsum (map (fun x => x * x) win) == 0 ->
  Forall np_finite (snd (finalize freqs p_xx cnt center win rate)).
Proof.
  intros Hc Hr Hw. apply Forall_forall. intros x Hx.
  unfold finalize, to_psd, np_idiv_count in Hx. cbn [snd] in Hx.
  apply in_map_iff in Hx. destruct Hx as (y & <- & Hy).
  apply In_fftshift in Hy. apply in_map_iff in Hy.
  destruct Hy as (a & <- & _).
  rewrite window_correction_Fin by exact Hw.
  unfold np_div at 2. rewrite inject_Z_nonzero by exact Hc.
  cbn [np_mul]. unfold np_div. rewrite Qis_zero_false by exact Hr.
  exact I.
Qed.

Lemma np_eq_Fin_trans (x : npfloat) (a b : Q) :
  np_eq x (Fin a) -> a == b -> np_eq x (Fin b).
Proof.
  destruct x; cbn [np_eq]; try contradiction. intros H E. now rewrite H.
Qed.

Section SpectrumExtras.

Variable welch : SampleBlock -> Q -> Z -> Z -> list Q * list Q.
Variable get_window : Z -> list Q.

Hypothesis welch_shape : forall iq fs nperseg nfft,
  length (fst (welch iq fs nperseg nfft)) = Z.to_nat nfft /\
  length (snd (welch iq fs nperseg nfft)) = Z.to_nat nfft.

Hypothesis window_shape : forall n, length (get_window n) = Z.to_nat n.

(** X7. The spectral driver always averages at least one periodogram: on
    a non-negative [rate * t_int] its loop count is at least 1, and every
    power it returns is a finite number, never NaN or an infinity. *)
Theorem spectrum_is_finite
    (num_samp nbins : Z) (gain rate fc t_int : Q) (sdr : option handle)
    (w : World) :
  let N := total_samples rate t_int in
  let num_loops := Z.to_nat (N / num_samp + 1) in
  (sdr = None -> present w = true) ->
  (1 <= num_samp)%Z -> (0 <= nbins)%Z -> ~ rate == 0 ->
  ~ Qsum (map (fun x => x * x) (get_window (choose_nperseg nbins))) == 0 ->
  0 <= rate * t_int ->
  (num_loops * Z.to_nat num_samp <= length (feed w))%nat ->
  (1 <= num_loops)%nat /\
  exists w' freqs power,
    run_spectrum_int welch get_window num_samp nbins gain rate fc t_int
                     sdr w = (w', Ok (freqs, power)) /\
    Forall np_finite power.
Proof.
  intros N num_loops Hp Hs Hb0 Hr Hw Hpos Hl.
  pose proof (window_has_length get_window nbins window_shape Hw Hb0) as Hb.
  assert (HN : (0 <= N)%Z) by (apply total_samples_nonneg, Hpos).
  assert (Hq : (0 <= N / num_samp)%Z) by (apply Z.div_pos; lia).
  assert (H1 : (1 <= num_loops)%nat) by (unfold num_loops; lia).
  split; [exact H1|].
  pose proof (run_spectrum_int_eq welch get_window welch_shape num_samp
                nbins gain rate fc t_int sdr w) as E. cbv zeta in E.
  fold N in E.
  rewrite (py_int_truediv_floor N num_samp HN ltac:(lia)) in E.
  fold num_loops in E. specialize (E Hp Hs Hb Hr Hl).
  rewrite (surjective_pairing (finalize _ _ _ _ _ _)) in E.
  do 3 eexists. split; [exact E|].
  apply finalize_finite; [lia | exact Hr | exact Hw].
Qed.

(** X8. Averaging does not distort: when every block of the run has the
    same periodogram [v], the spectral driver returns [v], centered and
    scaled by the window factor over the rate. *)
Theorem identical_periodograms_average_to_themselves
    (num_samp nbins : Z) (gain rate fc t_int : Q) (sdr : option handle)
    (w : World) (v : list Q) :
  let nperseg := choose_nperseg nbins in
  let N := total_samples rate t_int in
  let num_loops := Z.to_nat (N / num_samp + 1) in
  let n := Z.to_nat nbins in
  (sdr = None -> present w = true) ->
  (1 <= num_samp)%Z -> (0 <= nbins)%Z -> ~ rate == 0 ->
  ~ Qsum (map (fun x => x * x) (get_window nperseg)) == 0 ->
  0 <= rate * t_int ->
  (num_loops * Z.to_nat num_samp <= length (feed w))%nat ->
  (forall iq, In iq (blocks (Z.to_nat num_samp) num_loops (feed w)) ->
              pgram welch rate nperseg nbins iq = v) ->
  exists w' freqs power,
    run_spectrum_int welch get_window num_samp nbins gain rate fc t_int
                     sdr w = (w', Ok (freqs, power)) /\
    forall k, (k < n)%nat ->
      np_eq (nth ((k + n / 2) mod n) power NaN)
            (Fin (nth k v 0
                  * (window_factor (get_window nperseg) / rate))).
Proof.
  intros nperseg N num_loops n Hp Hs Hb0 Hr Hw Hpos Hl Hv.
  pose proof (window_has_length get_window nbins window_shape Hw Hb0) as Hb.
  assert (HN : (0 <= N)%Z) by (apply total_samples_nonneg, Hpos).
  assert (Hq : (0 <= N / num_samp)%Z) by (apply Z.div_pos; lia).
  assert (H1 : (1 <= num_loops)%nat) by (unfold num_loops; lia).
  pose proof (run_spectrum_int_eq welch get_window welch_shape num_samp
                nbins gain rate fc t_int sdr w) as E. cbv zeta in E.
  fold N in E.
  rewrite (py_int_truediv_floor N num_samp HN ltac:(lia)) in E.
  fold num_loops nperseg in E. specialize (E Hp Hs Hb Hr Hl).
  set (bl := blocks (Z.to_nat num_samp) num_loops (feed w)) in *.
  assert (Hlen : length bl = num_loops) by apply length_blocks.
  assert (Hne : bl <> [])
    by (intros Hnil; rewrite Hnil in Hlen; simpl in Hlen; lia).
  pose proof (finalized_of_blocks welch welch_shape nbins nperseg rate fc
                (get_window nperseg) bl Hne Hr Hw) as F.
  cbv zeta in F. rewrite Hlen in F.
  rewrite (surjective_pairing (finalize _ _ _ _ _ _)) in E.
  do 3 eexists. split; [exact E|].
  intros k Hk. destruct F as (_ & _ & F). destruct (F k Hk) as [_ Fp].
  apply (np_eq_Fin_trans _ _ _ Fp).
  assert (Hsum : bin_sum welch rate nperseg nbins k bl
                 == inject_Z (Z.of_nat num_loops) * nth k v 0).
  { unfold bin_sum. rewrite (Qsum_const _ (nth k v 0)).
    - now rewrite length_map, Hlen.
    - intros x Hx. apply in_map_iff in Hx. destruct Hx as (iq & <- & Hiq).
      now rewrite (Hv iq Hiq). }
  rewrite Hsum.
  assert (Hc : ~ inject_Z (Z.of_nat num_loops) == 0).
  { intros E0. unfold Qeq in E0. cbn [inject_Z Qnum Qden] in E0. lia. }
  field. split; assumption.
Qed.

End SpectrumExtras.

Lemma spectrum_is_finite_witness :
  exists w' freqs power,
    run_spectrum_int sample_welch sample_window 2 4 35 4 100 1 None
      (fresh_world (ramp_feed 6)) = (w', Ok (freqs, power)) /\
    Forall np_finite power.
Proof.
  apply (spectrum_is_finite sample_welch sample_window sample_welch_shape
           sample_window_shape
           2 4 35 4 100 1 None (fresh_world (ramp_feed 6))
           (fun _ => eq_refl) ltac:(lia) ltac:(lia) ltac:(q_nonzero)
           ltac:(q_nonzero) ltac:(q_le) ltac:(vm_compute; lia)).
Defined.

Lemma identical_periodograms_average_to_themselves_witness :
  exists w' freqs power,
    run_spectrum_int sample_welch sample_window 2 4 35 4 100 1 None
      (fresh_world (ramp_feed 2 ++ ramp_feed 2 ++ ramp_feed 2))
    = (w', Ok (freqs, power)) /\
    forall k, (k < 4)%nat ->
      np_eq (nth ((k + 4 / 2) mod 4) power NaN)
            (Fin (nth k (pgram sample_welch 4 4 4 (ramp_feed 2)) 0
                  * (window_factor (sample_window 4) / 4))).
Proof.
  apply (identical_periodograms_average_to_themselves sample_welch
           sample_window sample_welch_shape sample_window_shape
           2 4 35 4 100 1 None
           (fresh_world (ramp_feed 2 ++ ramp_feed 2 ++ ramp_feed 2))
           (pgram sample_welch 4 4 4 (ramp_feed 2))
           (fun _ => eq_refl) ltac:(lia) ltac:(lia) ltac:(q_nonzero)
           ltac:(q_nonzero) ltac:(q_le) ltac:(vm_compute; lia)).
  intros iq Hiq. vm_compute in Hiq.
  destruct Hiq as [<- | [<- | [<- | []]]]; vm_compute; reflexivity.
Defined.

(* ================================================================== *)
(** ** The two frequencies of a frequency-switched run *)

Lemma length_state_blocks (ns nl n : nat) (tick : bool) (fd : list complex) :
  length (state_blocks ns nl n tick fd)
  = ((if tick then (n + 1) / 2 else n / 2) * nl)%nat.
Proof.
  revert tick fd. induction n as [|n IH]; intros tick fd.
  - now destruct tick.
  - cbn [state_blocks]. rewrite length_app, IH. destruct tick; cbn [negb].
    + rewrite length_blocks.
      replace (S n + 1)%nat with (n + 1 * 2)%nat by lia.
      rewrite Nat.div_add by lia. lia.
    + cbn [length]. now rewrite Nat.add_1_r.
Qed.

(** An accepted configuration has room for two dwells. *)
Lemma two_dwells (rate t_int fswitch : Q) :
  0 < rate -> 0 < fswitch -> switch_threshold fswitch <= float64 t_int ->
  (1 <= dwell_samples rate fswitch)%Z ->
  (2 <= total_samples rate t_int / dwell_samples rate fswitch)%Z.
Proof.
  intros Hr Hf Ht HD.
  pose proof (two_dwells_fit rate t_int fswitch ltac:(lra) Hf Ht) as T.
  apply Z.div_le_lower_bound; lia.
Qed.

Lemma dev_fc_after_reads n k w : dev_fc (after_reads n k w) = dev_fc w.
Proof. reflexivity. Qed.

Lemma dev_fc_after_dwells ns nl fc fthrow (m : nat) (tick : bool) (w : World) :
  dev_fc (after_dwells ns nl fc fthrow (S m) tick w)
  = if (if Nat.even m then tick else negb tick) then fc else fthrow.
Proof.
  revert tick w. induction m as [|m IH]; intros tick w.
  - reflexivity.
  - change (after_dwells ns nl fc fthrow (S (S m)) tick w)
      with (after_dwells ns nl fc fthrow (S m) (negb tick)
              (after_reads ns nl
                 (retuned (if tick then fc else fthrow) w))).
    rewrite IH, Nat.even_succ, <- Nat.negb_even.
    destruct (Nat.even m), tick; reflexivity.
Qed.

Lemma dev_rs_gain_after_dwells ns nl fc fthrow (n : nat) (tick : bool)
    (w : World) :
  dev_rs (after_dwells ns nl fc fthrow n tick w) = dev_rs w /\
  dev_gain (after_dwells ns nl fc fthrow n tick w) = dev_gain w.
Proof.
  revert tick w. induction n as [|n IH]; intros tick w; [now split|].
  cbn [after_dwells]. destruct (IH (negb tick)
    (after_reads ns nl (retuned (if tick then fc else fthrow) w)))
    as [A B]. now rewrite A, B.
Qed.

Section FswitchExtras.

Variable welch : SampleBlock -> Q -> Z -> Z -> list Q * list Q.
Variable get_window : Z -> list Q.

Hypothesis welch_shape : forall iq fs nperseg nfft,
  length (fst (welch iq fs nperseg nfft)) = Z.to_nat nfft /\
  length (snd (welch iq fs nperseg nfft)) = Z.to_nat nfft.

Hypothesis window_shape : forall n, length (get_window n) = Z.to_nat n.

(** X9. What the check on [t_int] buys.  On an accepted configuration
    whose block fits in a dwell ([num_samp <= N_dwell], the samples of a
    dwell as the driver computes them) there are at least
    two dwells of at least one block; the fiducial frequency gets
    [ceil(num_dwells / 2)] dwells and the shifted one [floor(num_dwells /
    2)], so both are observed, and every power of the two returned spectra
    is a finite number. *)
Theorem fswitch_observes_both_frequencies
    (num_samp nbins : Z) (gain rate fc fthrow t_int fswitch : Q)
    (sdr : option handle) (w : World) :
  let N := total_samples rate t_int in
  let N_dwell := dwell_samples rate fswitch in
  let nl := Z.to_nat (N_dwell / num_samp) in
  let nd := Z.to_nat (N / N_dwell) in
  let ns := Z.to_nat num_samp in
  let on := state_blocks ns nl nd true (feed w) in
  let off := state_blocks ns nl nd false (feed w) in
  (sdr = None -> present w = true) ->
  0 < rate -> 0 < fswitch -> switch_threshold fswitch <= float64 t_int ->
  (1 <= num_samp <= N_dwell)%Z -> (0 <= nbins)%Z ->
  ~ Qsum (map (fun x => x * x) (get_window (choose_nperseg nbins))) == 0 ->
  (nd * (nl * ns) <= length (feed w))%nat ->
  (2 <= nd)%nat /\ (1 <= nl)%nat /\
  length on = ((nd + 1) / 2 * nl)%nat /\
  length off = (nd / 2 * nl)%nat /\
  (1 <= length off <= length on)%nat /\
  exists w' f_on p_on f_off p_off,
    run_fswitch_int welch get_window num_samp nbins gain rate fc fthrow
                    t_int fswitch sdr w
    = (w', Ok (f_on, p_on, f_off, p_off)) /\
    Forall np_finite p_on /\ Forall np_finite p_off.
Proof.
  intros N N_dwell nl nd ns on off Hp Hr Hf Ht [Hs HsD] Hb0 Hw Hl.
  pose proof (window_has_length get_window nbins window_shape Hw Hb0) as Hb.
  assert (HD : (1 <= N_dwell)%Z) by lia.
  pose proof (two_dwells rate t_int fswitch Hr Hf Ht HD) as H2.
  fold N N_dwell in H2.
  assert (Hnd : (2 <= nd)%nat) by (unfold nd; lia).
  assert (Hnl : (1 <= nl)%nat).
  { unfold nl. assert (1 <= N_dwell / num_samp)%Z
      by (apply Z.div_le_lower_bound; lia). lia. }
  assert (Lon : length on = ((nd + 1) / 2 * nl)%nat)
    by apply length_state_blocks.
  assert (Loff : length off = (nd / 2 * nl)%nat)
    by apply length_state_blocks.
  assert (Hhalf : (1 <= nd / 2 <= (nd + 1) / 2)%nat).
  { split.
    - apply Nat.div_le_lower_bound; lia.
    - apply Nat.Div0.div_le_mono. lia. }
  assert (Hlens : (1 <= length off <= length on)%nat) by (rewrite Lon, Loff; nia).
  do 5 (split; [assumption|]).
  pose proof (run_fswitch_int_eq welch get_window welch_shape num_samp nbins
                gain rate fc fthrow t_int fswitch sdr w Hp
                ltac:(lra) Ht Hs Hb ltac:(lra)
                ltac:(fold N_dwell; lia) Hl) as E.
  assert (Con : (0 + Z.of_nat (length on))%Z <> 0%Z) by lia.
  assert (Coff : (0 + Z.of_nat (length off))%Z <> 0%Z) by lia.
  assert (Hr0 : ~ rate == 0) by lra.
  do 5 eexists. split; [exact E|].
  split; apply finalize_finite;
    [exact Con | exact Hr0 | exact Hw | exact Coff | exact Hr0 | exact Hw].
Qed.

(** X10. The frequency-switched driver does not retune when it is done:
    the tuner stays where the last dwell put it, on [fthrow] when the
    number of dwells the driver computes is even and on [fc] when it is
    odd; the rate and the gain are the ones of the call. *)
Theorem fswitch_leaves_tuner_on_last_dwell
    (num_samp nbins : Z) (gain rate fc fthrow t_int fswitch : Q)
    (sdr : option handle) (w : World) :
  let N := total_samples rate t_int in
  let N_dwell := dwell_samples rate fswitch in
  let nl := Z.to_nat (N_dwell / num_samp) in
  let nd := Z.to_nat (N / N_dwell) in
  let w' := fst (run_fswitch_int welch get_window num_samp nbins gain rate
                   fc fthrow t_int fswitch sdr w) in
  (sdr = None -> present w = true) ->
  ~ fswitch == 0 -> switch_threshold fswitch <= float64 t_int ->
  (1 <= num_samp)%Z -> (1 <= nbins)%Z -> ~ rate == 0 -> N_dwell <> 0%Z ->
  (nd * (nl * Z.to_nat num_samp) <= length (feed w))%nat ->
  dev_rs w' = rate /\ dev_gain w' = gain /\
  dev_fc w' = match nd with
              | O => fc
              | S m => if Nat.even m then fc else fthrow
              end.
Proof.
  intros N N_dwell nl nd w' Hp Hf Ht Hs Hb Hr HD Hl. unfold w'.
  rewrite (run_fswitch_int_eq welch get_window welch_shape num_samp nbins
             gain rate fc fthrow t_int fswitch sdr w Hp Hf Ht Hs Hb Hr HD
             Hl).
  cbn [fst]. fold N N_dwell nl nd.
  set (w0 := tuned rate fc gain (entered rate fc gain sdr w)).
  destruct (dev_rs_gain_after_dwells num_samp nl fc fthrow nd true w0)
    as [A B].
  assert (C : dev_fc (after_dwells num_samp nl fc fthrow nd true w0)
              = match nd with
                | O => fc
                | S m => if Nat.even m then fc else fthrow
                end).
  { destruct nd as [|m]; [reflexivity|].
    rewrite dev_fc_after_dwells. now destruct (Nat.even m). }
  destruct sdr; cbn [left_normally closed dev_rs dev_gain dev_fc];
    rewrite A, B, C; auto.
Qed.

End FswitchExtras.

Lemma fswitch_observes_both_frequencies_witness :
  exists w' f_on p_on f_off p_off,
    run_fswitch_int sample_welch sample_window 2 4 35 8 100 104 1 2 None
      (fresh_world (ramp_feed 8)) = (w', Ok (f_on, p_on, f_off, p_off)) /\
    Forall np_finite p_on /\ Forall np_finite p_off.
Proof.
  apply (fswitch_observes_both_frequencies sample_welch sample_window
           sample_welch_shape sample_window_shape 2 4 35 8 100 104 1 2 None
           (fresh_world (ramp_feed 8)) (fun _ => eq_refl)
           ltac:(reflexivity) ltac:(reflexivity) ltac:(q_le)
           ltac:(vm_compute; split; discriminate) ltac:(lia)
           ltac:(q_nonzero) ltac:(vm_compute; lia)).
Defined.

Lemma fswitch_leaves_tuner_on_last_dwell_witness :
  dev_fc (fst (run_fswitch_int sample_welch sample_window 2 4 35 8 100 104 1
                 2 (Some TheSdr) (opened_world 8 (ramp_feed 8)))) = 104.
Proof.
  apply (proj2 (proj2 (fswitch_leaves_tuner_on_last_dwell sample_welch
           sample_window sample_welch_shape 2 4 35 8 100 104 1 2
           (Some TheSdr) (opened_world 8 (ramp_feed 8))
           ltac:(discriminate) ltac:(q_nonzero) ltac:(q_le) ltac:(lia)
           ltac:(lia) ltac:(q_nonzero) ltac:(vm_compute; discriminate)
           ltac:(vm_compute; lia)))).
Defined.

(** At 294000 Hz, 98 switches a second and 31 s the driver computes dwells
    of 2999 samples and 3039 of them: the run ends on [fc]. *)
Example dwell_count_odd :
  dwell_samples 294000 98 = 2999%Z /\
  Z.to_nat (total_samples 294000 31 / dwell_samples 294000 98) = 3039%nat.
Proof. split; vm_compute; reflexivity. Qed.

(* ================================================================== *)
(** ** Degenerate arguments and the series of the Dicke driver *)

Section EdgeCases.

Variable welch : SampleBlock -> Q -> Z -> Z -> list Q * list Q.
Variable get_window : Z -> list Q.

(** X11. A block size of zero is a division by zero in all four drivers:
    each raises ZeroDivisionError (the frequency-switched one once its
    check has passed) after the dongle is opened and before any block is
    read. *)
Theorem zero_block_size_raises
    (nbins : Z) (gain rate fc fthrow t_int fswitch : Q)
    (sdr : option handle) (w : World) :
  (sdr = None -> present w = true) ->
  (let run := run_total_power_int 0 gain rate fc t_int sdr w in
   snd run = Raise ZeroDivisionError /\ reads (fst run) = reads w) /\
  (let run := dicke 0 gain rate fc t_int sdr w in
   snd run = Raise ZeroDivisionError /\ reads (fst run) = reads w) /\
  (let run := run_spectrum_int welch get_window 0 nbins gain rate fc t_int
                sdr w in
   snd run = Raise ZeroDivisionError /\ reads (fst run) = reads w) /\
  (~ fswitch == 0 -> switch_threshold fswitch <= float64 t_int ->
   let run := run_fswitch_int welch get_window 0 nbins gain rate fc fthrow
                t_int fswitch sdr w in
   snd run = Raise ZeroDivisionError /\ reads (fst run) = reads w).
Proof.
  intros Hp.
  set (h := match sdr with None => TheSdr | Some h => h end).
  set (own := match sdr with None => true | Some _ => false end).
  set (w0 := entered rate fc gain sdr w).
  split; [|split; [|split]].
  - assert (Hb : total_power_body 0 rate t_int h own w0
                 = (w0, Raise ZeroDivisionError)) by reflexivity.
    unfold run_total_power_int.
    rewrite (with_sdr_Ok rate fc gain sdr _ w _ _ Hp Hb). cbn [fst snd].
    split; [reflexivity|]. unfold w0.
    now rewrite reads_left_raising, reads_entered.
  - assert (Hb : dicke_body 0 gain rate fc t_int h own w0
                 = (tuned rate fc gain w0, Raise ZeroDivisionError))
      by (unfold dicke_body; rewrite tune_get; reflexivity).
    unfold dicke.
    rewrite (with_sdr_Ok rate fc gain sdr _ w _ _ Hp Hb). cbn [fst snd].
    split; [reflexivity|]. unfold w0.
    now rewrite reads_left_raising, reads_tuned, reads_entered.
  - assert (Hb : spectrum_body welch get_window 0 nbins
                   (choose_nperseg nbins) gain rate fc t_int h own w0
                 = (tuned rate fc gain w0, Raise ZeroDivisionError))
      by (unfold spectrum_body; rewrite tune_get; reflexivity).
    unfold run_spectrum_int.
    rewrite (with_sdr_Ok rate fc gain sdr _ w _ _ Hp Hb). cbn [fst snd].
    split; [reflexivity|]. unfold w0.
    now rewrite reads_left_raising, reads_tuned, reads_entered.
  - intros Hf Ht.
    assert (Hb : fswitch_body welch get_window 0 nbins
                   (choose_nperseg nbins) gain rate fc fthrow t_int fswitch
                   h own w0
                 = (tuned rate fc gain w0, Raise ZeroDivisionError)).
    { unfold fswitch_body. rewrite tune_get.
      rewrite (bind_Ok _ _ _ _ _ (py_truediv_Ok 1 fswitch _ Hf)).
      reflexivity. }
    unfold run_fswitch_int.
    rewrite (bind_Ok _ _ _ _ _ (fswitch_check_Ok _ _ w Hf Ht)).
    rewrite (with_sdr_Ok rate fc gain sdr _ w _ _ Hp Hb). cbn [fst snd].
    split; [reflexivity|]. unfold w0.
    now rewrite reads_left_raising, reads_tuned, reads_entered.
Qed.

(** X12. A switching rate of zero is not rejected by the assertion: the
    check itself divides by it and raises ZeroDivisionError, before the
    dongle is touched. *)
Theorem zero_switch_rate_raises
    (num_samp nbins : Z) (gain rate fc fthrow t_int fswitch : Q)
    (sdr : option handle) (w : World) :
  fswitch == 0 ->
  run_fswitch_int welch get_window num_samp nbins gain rate fc fthrow t_int
                  fswitch sdr w
  = (w, Raise ZeroDivisionError).
Proof.
  intros Hf. unfold run_fswitch_int, fswitch_check.
  rewrite (bind_Raise _ _ _ _ _
             (bind_Raise _ _ _ _ _ (py_truediv_zero 1 fswitch w Hf))).
  reflexivity.
Qed.

End EdgeCases.

Lemma zero_block_size_raises_witness :
  snd (run_spectrum_int sample_welch sample_window 0 4 35 4 100 1 None
         (fresh_world (ramp_feed 4))) = Raise ZeroDivisionError.
Proof.
  destruct (zero_block_size_raises sample_welch sample_window 4 35 4 100 104
              1 2 None (fresh_world (ramp_feed 4)) (fun _ => eq_refl))
    as (_ & _ & C & _).
  exact (proj1 C).
Defined.

Lemma zero_switch_rate_raises_witness :
  run_fswitch_int sample_welch sample_window 2 4 35 8 100 104 1 0 None
    (fresh_world (ramp_feed 8))
  = (fresh_world (ramp_feed 8), Raise ZeroDivisionError).
Proof.
  apply (zero_switch_rate_raises sample_welch sample_window 2 4 35 8 100 104
           1 0 None (fresh_world (ramp_feed 8))).
  reflexivity.
Defined.



(** X14. A Dicke run too short for one block does not return empty
    series: it opens and tunes the dongle, reads nothing, and raises
    UnboundLocalError where it would save ([time_str] was never bound);
    its own dongle is then closed once. *)
Theorem dicke_without_blocks_raises
    (num_samp : Z) (gain rate fc t : Q) (sdr : option handle) (w : World) :
  (sdr = None -> present w = true) -> (1 <= num_samp)%Z ->
  Z.to_nat (total_samples rate t / num_samp) = 0%nat ->
  let run := dicke num_samp gain rate fc t sdr w in
  snd run = Raise UnboundLocalError /\
  trace (fst run)
  = trace (tuned rate fc gain (entered rate fc gain sdr w))
    ++ EvGpioOutput 4 :: match sdr with
                         | None => [EvClose]
                         | Some _ => []
                         end.
Proof.
  intros Hp Hs Hn.
  set (h := match sdr with None => TheSdr | Some h => h end).
  set (own := match sdr with None => true | Some _ => false end).
  set (w0 := entered rate fc gain sdr w).
  assert (Hb : dicke_body num_samp gain rate fc t h own w0
               = (log_event (EvGpioOutput 4) (tuned rate fc gain w0),
                  Raise UnboundLocalError)).
  { unfold dicke_body. rewrite tune_get.
    rewrite (bind_Ok _ _ _ _ _
               (py_int_truediv_Ok _ num_samp _ ltac:(lia))).
    assert (Hg : set_gpio_output h 4 (tuned rate fc gain w0)
                 = (log_event (EvGpioOutput 4) (tuned rate fc gain w0),
                    Ok tt)) by reflexivity.
    rewrite (bind_Ok _ _ _ _ _ Hg).
    rewrite (bind_Ok _ _ _ _ _ (py_floordiv_Ok _ num_samp _ ltac:(lia))).
    rewrite Hn. reflexivity. }
  cbv zeta. unfold dicke.
  rewrite (with_sdr_Ok rate fc gain sdr _ w _ _ Hp Hb). cbn [fst snd].
  split; [reflexivity|].
  destruct sdr; cbn [left_raising closed log_event trace];
    rewrite <- ?app_assoc; reflexivity.
Qed.


Lemma dicke_without_blocks_raises_witness :
  snd (dicke 1024 35 1000 100 1 None (fresh_world []))
  = Raise UnboundLocalError.
Proof.
  apply (proj1 (dicke_without_blocks_raises 1024 35 1000 100 1 None
                  (fresh_world []) (fun _ => eq_refl) ltac:(lia)
                  ltac:(vm_compute; reflexivity))).
Defined.

(* ================================================================== *)
(** ** The close calls of every run *)





























Section CloseDiscipline.

Variable welch : SampleBlock -> Q -> Z -> Z -> list Q * list Q.
Variable get_window : Z -> list Q.











End CloseDiscipline.



Lemma kt_ret {A} (a : A) : keeps_tuner (ret a).
Proof. intros w. now repeat split. Qed.

Lemma kt_raise {A} (e : Exn) : keeps_tuner (@raise A e).
Proof. intros w. now repeat split. Qed.

Lemma kt_bind {A B} (c : M A) (k : A -> M B) :
  keeps_tuner c -> (forall a, keeps_tuner (k a)) -> keeps_tuner (bind c k).
Proof.
  intros Hc Hk w. unfold bind. destruct (Hc w) as (R & F & G).
  destruct (c w) as [w1 [a|e]]; cbn [fst] in *.
  - destruct (Hk a w1) as (R' & F' & G'). repeat split; congruence.
  - now repeat split.
Qed.

Lemma kt_read_samples h n : keeps_tuner (read_samples h n).
Proof.
  intros w. unfold read_samples. destruct (_ && _)%bool; now repeat split.
Qed.

Lemma kt_read_stream {S : Type} h (b : nat) (cb : SampleBlock -> S -> S)
    n (st : S) :
  keeps_tuner (read_stream h b cb n st).
Proof.
  revert st. induction b as [|b IH]; intros st; cbn [read_stream].
  - apply kt_bind; [apply kt_read_samples | intros; apply kt_ret].
  - apply kt_bind; [apply kt_read_samples | intros; apply IH].
Qed.

(** X16. The total-power driver never tunes a handle the caller supplied:
    on every path the rate, the center frequency and the gain of the tuner
    are left as they were, and the [rate], [fc] and [gain] of the call are
    not applied. *)
Theorem total_power_keeps_supplied_tuner
    (num_samp : Z) (gain rate fc t_int : Q) (h : handle) (w : World) :
  let w' := fst (run_total_power_int num_samp gain rate fc t_int (Some h) w)
  in
  dev_rs w' = dev_rs w /\ dev_fc w' = dev_fc w /\ dev_gain w' = dev_gain w.
Proof.
  cbv zeta. unfold run_total_power_int. rewrite with_sdr_supplied.
  revert w. change (keeps_tuner (total_power_body num_samp rate t_int h false)).
  unfold total_power_body.
  apply kt_bind; [intros w; now repeat split | intros rs].
  apply kt_bind;
    [unfold py_int_truediv; destruct (_ =? _)%Z;
       [apply kt_raise | apply kt_ret] | intros _].
  apply kt_bind;
    [unfold py_int_truediv; destruct (_ =? _)%Z;
       [apply kt_raise | apply kt_ret] | intros mc].
  apply kt_bind; [apply kt_read_stream | intros [p c]].
  apply kt_bind;
    [unfold py_truediv; destruct (Qis_zero _);
       [apply kt_raise | apply kt_ret] | intros _].
  apply kt_bind;
    [unfold pynum_div_int; destruct p;
       [destruct (_ =? _)%Z; [apply kt_raise | apply kt_ret] | apply kt_ret]
    | intros pa].
  apply kt_bind; [apply kt_ret | intros _]. apply kt_ret.
Qed.

(* ================================================================== *)
(** ** Bounds on the total-power average *)

Lemma Qsum_le (f g : SampleBlock -> Q) (l : list SampleBlock) :
  (forall b, In b l -> f b <= g b) -> Qsum (map f l) <= Qsum (map g l).
Proof.
  induction l as [|b l IH]; intros H; [simpl; lra|].
  cbn [map Qsum fold_right]. fold (Qsum (map f l)) (Qsum (map g l)).
  assert (f b <= g b) by (apply H; now left).
  assert (Qsum (map f l) <= Qsum (map g l))
    by (apply IH; intros b' Hb'; apply H; now right).
  lra.
Qed.

Lemma blocks_full (n k : nat) (fd : list complex) (b : SampleBlock) :
  (k * n <= length fd)%nat -> In b (blocks n k fd) -> length b = n.
Proof.
  revert fd. induction k as [|k IH]; intros fd Hl Hb; [contradiction|].
  cbn [blocks] in Hb. destruct Hb as [<- | Hb].
  - rewrite length_firstn. lia.
  - apply (IH (skipn n fd)); [rewrite length_skipn; lia | exact Hb].
Qed.

(** X17. The average the total-power driver returns is never negative and
    never above the average of the uncompensated blocks: the DC
    compensation can only take power away. *)
Theorem total_power_is_bounded
    (num_samp : Z) (gain rate fc t_int : Q) (sdr : option handle)
    (w : World) :
  let N := total_samples (rate_in_use rate sdr w) t_int in
  let cnt := Z.to_nat (N / num_samp) in
  let bl := blocks (Z.to_nat num_samp) cnt (feed w) in
  (sdr = None -> present w = true) ->
  (1 <= num_samp)%Z -> ~ rate == 0 -> (1 <= cnt)%nat ->
  (S cnt * Z.to_nat num_samp <= length (feed w))%nat ->
  exists w' q,
    run_total_power_int num_samp gain rate fc t_int sdr w
    = (w', Ok (NpFloat (Fin q))) /\
    0 <= q <= Qsum (map block_power bl) / inject_Z (num_samp * Z.of_nat cnt).
Proof.
  intros N cnt bl Hp Hs Hr Hc Hl.
  pose proof (run_total_power_int_eq num_samp gain rate fc t_int sdr w
                Hp Hs Hr Hl) as E.
  fold N cnt bl in E. destruct cnt as [|c] eqn:Ec; [lia|].
  eexists. eexists. split; [exact E|].
  assert (Hd : 0 < inject_Z (num_samp * Z.of_nat (S c))).
  { change 0 with (inject_Z 0). rewrite <- Zlt_Qlt. lia. }
  assert (Hq : fold_left Qplus (powers bl) 0 == Qsum (powers bl))
    by (rewrite fold_Qplus; ring).
  rewrite Hq.
  assert (H0 : 0 <= Qsum (powers bl)).
  { unfold powers. clear. induction bl as [|b l IH]; [simpl; lra|].
    cbn [map Qsum fold_right].
    fold (Qsum (map (fun iq => block_power (dc_compensate iq)) l)).
    pose proof (block_power_nonneg (dc_compensate b)). lra. }
  assert (H1 : Qsum (powers bl) <= Qsum (map block_power bl)).
  { unfold powers. apply Qsum_le. intros b Hb.
    assert (Hlen : length b = Z.to_nat num_samp)
      by (apply (blocks_full _ (S c) (feed w)); [lia | exact Hb]).
    assert (Hne : b <> []) by (intros ->; simpl in Hlen; lia).
    exact (proj2 (proj2 (compensated_power_parts b Hne))). }
  split.
  - apply Qle_shift_div_l; [exact Hd | lra].
  - apply Qle_shift_div_r; [exact Hd|].
    unfold Qdiv. rewrite <- Qmult_assoc, (Qmult_comm (/ _)), Qmult_inv_r by lra.
    lra.
Qed.

Lemma total_power_is_bounded_witness :
  exists w' q,
    run_total_power_int 2 35 4 100 1 None (fresh_world (ramp_feed 6))
    = (w', Ok (NpFloat (Fin q))) /\
    0 <= q <= Qsum (map block_power (blocks 2 2 (ramp_feed 6)))
              / inject_Z (2 * 2).
Proof.
  exact (total_power_is_bounded 2 35 4 100 1 None (fresh_world (ramp_feed 6))
           (fun _ => eq_refl) ltac:(lia) ltac:(q_nonzero)
           ltac:(vm_compute; lia) ltac:(vm_compute; lia)).
Defined.

(* ================================================================== *)
(** ** A read that fails during a spectral integration *)

Section ReadFailure.

Variable welch : SampleBlock -> Q -> Z -> Z -> list Q * list Q.
Variable get_window : Z -> list Q.

Hypothesis welch_shape : forall iq fs nperseg nfft,
  length (fst (welch iq fs nperseg nfft)) = Z.to_nat nfft /\
  length (snd (welch iq fs nperseg nfft)) = Z.to_nat nfft.

(** The integration loop when the feed holds [j] whole blocks and the loop
    wants more: [j] passes, then the read that fails. *)
Lemma spectrum_loop_fails (h : handle) (num_samp nbins nperseg : Z)
    (rate : Q) (n j : nat) (f0 p0 : list Q) (c0 : Z) (w : World) :
  (1 <= num_samp)%Z -> length p0 = Z.to_nat nbins ->
  (j < n)%nat ->
  (j * Z.to_nat num_samp <= length (feed w))%nat ->
  (length (feed w) < S j * Z.to_nat num_samp)%nat ->
  spectrum_loop welch h num_samp nbins nperseg rate n (f0, p0, c0) w
  = (log_event (EvRead num_samp) (after_reads num_samp j w),
     Raise DeviceReadError).
Proof.
  intros Hs. revert j f0 p0 c0 w.
  induction n as [|n IH]; intros j f0 p0 c0 w Hp Hj Hlo Hhi; [lia|].
  cbn [spectrum_loop]. destruct j as [|j].
  - rewrite after_reads_0.
    assert (E : spectrum_step welch h num_samp nbins nperseg rate
                  (f0, p0, c0) w
                = (log_event (EvRead num_samp) w, Raise DeviceReadError)).
    { unfold spectrum_step.
      now rewrite (bind_Raise _ _ _ _ _
                     (read_samples_fails h num_samp w ltac:(lia))). }
    now rewrite (bind_Raise _ _ _ _ _ E).
  - rewrite (bind_Ok _ _ _ _ _
               (spectrum_step_Ok welch welch_shape num_samp nbins nperseg
                  rate h f0 p0 c0 w ltac:(lia) ltac:(lia) Hp)).
    rewrite (IH j).
    + now rewrite after_reads_S.
    + rewrite length_vadd; [exact Hp|]. now rewrite length_pgram.
    + lia.
    + rewrite feed_after_reads, length_skipn. lia.
    + rewrite feed_after_reads, length_skipn. lia.
Qed.

(** X18. When the device runs dry before the spectral driver has its
    blocks, the driver stops at the first read that fails: with [j] whole
    blocks in the feed and more than [j] wanted, it raises the read error
    after exactly [j + 1] requests, without retrying, and hands back no
    partial spectrum. *)
Theorem spectrum_stops_at_first_failed_read
    (num_samp nbins : Z) (gain rate fc t_int : Q) (sdr : option handle)
    (w : World) :
  let N := total_samples rate t_int in
  let num_loops := Z.to_nat (py_int (int_truediv N num_samp) + 1) in
  let j := (length (feed w) / Z.to_nat num_samp)%nat in
  (sdr = None -> present w = true) ->
  (1 <= num_samp)%Z -> (0 <= nbins)%Z ->
  (j < num_loops)%nat ->
  let run := run_spectrum_int welch get_window num_samp nbins gain rate fc
               t_int sdr w in
  snd run = Raise DeviceReadError /\
  reads (fst run) = (reads w + S j)%nat.
Proof.
  intros N num_loops j Hp Hs Hb Hj run.
  assert (Hn : (0 < Z.to_nat num_samp)%nat) by lia.
  assert (Hlo : (j * Z.to_nat num_samp <= length (feed w))%nat).
  { unfold j. rewrite Nat.mul_comm. apply Nat.Div0.mul_div_le. }
  assert (Hhi : (length (feed w) < S j * Z.to_nat num_samp)%nat).
  { unfold j. rewrite Nat.mul_comm. apply Nat.mul_succ_div_gt. lia. }
  set (w0 := entered rate fc gain sdr w).
  assert (Hfd : feed (tuned rate fc gain w0) = feed w).
  { cbn [feed tuned]. apply feed_entered. }
  set (h := match sdr with None => TheSdr | Some h => h end).
  set (own := match sdr with None => true | Some _ => false end).
  assert (Hbody :
    spectrum_body welch get_window num_samp nbins (choose_nperseg nbins)
      gain rate fc t_int h own w0
    = (log_event (EvRead num_samp)
         (after_reads num_samp j (tuned rate fc gain w0)),
       Raise DeviceReadError)).
  { unfold spectrum_body. rewrite tune_get. fold N.
    rewrite (bind_Ok _ _ _ _ _
               (py_int_truediv_Ok N num_samp _ ltac:(lia))).
    rewrite (bind_Ok _ _ _ _ _ (np_zeros_Ok nbins _ Hb)).
    rewrite (bind_Ok _ _ _ _ _ (np_zeros_Ok nbins _ Hb)).
    fold num_loops.
    rewrite (bind_Raise _ _ _ _ _
               (spectrum_loop_fails h num_samp nbins (choose_nperseg nbins)
                  rate num_loops j _ _ 0%Z _ Hs (repeat_length _ _) Hj
                  ltac:(rewrite Hfd; exact Hlo)
                  ltac:(rewrite Hfd; exact Hhi))).
    reflexivity. }
  assert (E : run = (left_raising sdr
                       (log_event (EvRead num_samp)
                          (after_reads num_samp j (tuned rate fc gain w0))),
                     Raise DeviceReadError)).
  { unfold run, run_spectrum_int.
    exact (with_sdr_Ok rate fc gain sdr _ w _ _ Hp Hbody). }
  rewrite E. cbn [fst snd]. split; [reflexivity|].
  rewrite reads_left_raising, reads_log_event, reads_after_reads,
    reads_tuned. unfold w0. rewrite reads_entered. cbn [is_read]. lia.
Qed.

End ReadFailure.

Lemma spectrum_stops_at_first_failed_read_witness :
  snd (run_spectrum_int sample_welch sample_window 2 4 35 8 100 1 None
         (fresh_world (ramp_feed 5)))
  = Raise DeviceReadError /\
  reads (fst (run_spectrum_int sample_welch sample_window 2 4 35 8 100 1
                None (fresh_world (ramp_feed 5)))) = 3%nat.
Proof.
  destruct (spectrum_stops_at_first_failed_read sample_welch sample_window
              sample_welch_shape 2 4 35 8 100 1 None
              (fresh_world (ramp_feed 5))
              (fun _ => eq_refl) ltac:(lia) ltac:(lia)
              ltac:(vm_compute; lia)) as (A & B).
  split; [exact A | exact B].
Defined.
